(** * The Circadia Sense: the lighting-pod sketches

    A shallow embedding of the two controller sketches

    - [198_Automatic_Lighting_Pod.ino]            (module [Live])
    - [198_Circadian_Light_Controller_Demo.ino]   (module [Demo])

    Both target the Arduino R4 Minima (named in the sketches' headers), a
    32-bit ARM board: [int], [long] and [unsigned long] are 32 bits wide,
    [float] is IEEE-754 binary32 and [double] is IEEE-754 binary64.
    Floating-point arithmetic is modelled with the reference specification
    [SpecFloat] of the standard library, instantiated at both formats, and
    every implicit C conversion of the sketches is written out.  Each
    operation rounds once to the format of its C type (round to nearest,
    ties to even): no operation is fused with another and no intermediate
    result is kept in a wider format.

    Hardware reads are inputs of the model: each call of [millis()] is an
    explicit argument (the value it returned), and so is the echo time
    measured by [pulseIn].  The LED strip is a pixel buffer in the state.
    The LCD is a display of two rows of sixteen cells (module [LCD]); the
    sketches' [updateLCD] transforms it and does not touch the other
    globals, so it is kept apart from the state of [loop()]. *)

From Stdlib Require Import ZArith Lia List Bool String QArith Qround Qabs Lqa Qpower.
From Stdlib Require Import Floats.SpecFloat.
From Stdlib Require Import Ascii DecimalString.
Import ListNotations.
Local Open Scope Z_scope.

(** ** C integer types *)

Module CInt.

(** [unsigned long]: arithmetic modulo 2^32. *)
Definition u32 (x : Z) : Z := x mod 2 ^ 32.

(** [uint8_t]: arithmetic modulo 2^8. *)
Definition u8 (x : Z) : Z := x mod 2 ^ 8.

End CInt.

(** ** IEEE-754 arithmetic of the target *)

(** [float]: binary32. *)
Module B32.
Definition prec : Z := 24.
Definition emax : Z := 128.
Definition of_Z (n : Z) : spec_float := binary_normalize prec emax n 0 false.
Definition add := SFadd prec emax.
Definition sub := SFsub prec emax.
Definition mul := SFmul prec emax.
Definition div := SFdiv prec emax.
Definition ltb := SFltb.
End B32.

(** [double]: binary64. *)
Module B64.
Definition prec : Z := 53.
Definition emax : Z := 1024.
Definition of_Z (n : Z) : spec_float := binary_normalize prec emax n 0 false.
Definition add := SFadd prec emax.
Definition sub := SFsub prec emax.
Definition mul := SFmul prec emax.
Definition div := SFdiv prec emax.
End B64.

(** Conversion [float] -> [double] (always exact) and [double] -> [float]
    (rounds to nearest even). *)
Definition double_of_float (x : spec_float) : spec_float :=
  match x with
  | S754_finite s m e => binary_normalize B64.prec B64.emax (cond_Zopp s (Zpos m)) e s
  | _ => x
  end.

Definition float_of_double (x : spec_float) : spec_float :=
  match x with
  | S754_finite s m e => binary_normalize B32.prec B32.emax (cond_Zopp s (Zpos m)) e s
  | _ => x
  end.

(** Conversion of a floating-point value to an integer type truncates toward
    zero.  [Z.shiftl] by a negative amount is the flooring right shift, taken
    here on the magnitude. *)
Definition SFtrunc (x : spec_float) : Z :=
  match x with
  | S754_finite s m e => cond_Zopp s (Z.shiftl (Zpos m) e)
  | _ => 0
  end.

(** [(uint8_t) x].  C leaves the conversion undefined when the truncated value
    is outside 0..255; the model reduces it modulo 256 there. *)
Definition to_uint8 (x : spec_float) : Z := CInt.u8 (SFtrunc x).

(** [(long) x], for values in the range of [long]. *)
Definition to_long (x : spec_float) : Z := SFtrunc x.

(** The rational number denoted by a mantissa and an exponent, and by a
    finite float (zeros, infinities and NaN are sent to 0). *)
Definition F2Q (m e : Z) : Q := inject_Z m * Qpower 2 e.

Definition B2Q (x : spec_float) : Q :=
  match x with
  | S754_finite s m e => F2Q (cond_Zopp s (Zpos m)) e
  | _ => 0%Q
  end.

(** ** Vocabulary for the rounding lemmas *)

(** The last step of [binary_round_aux]: renormalise the rounded mantissa
    and detect overflow. *)
Definition round_finish (prec emax : Z) (s : bool) (r E : Z) : spec_float :=
  let '(mrs'', e'') := shr_fexp prec emax r E loc_Exact in
  match shr_m mrs'' with
  | Z0 => S754_zero s
  | Zpos m => if e'' <=? emax - prec then S754_finite s m e'' else S754_infinity s
  | _ => S754_nan
  end.

(** [rounds_to s r E x]: the float [x] is what packing the rounded mantissa
    [r] at exponent [E] with sign [s] gives. *)
Inductive rounds_to (prec emax : Z) (s : bool) (r E : Z) : spec_float -> Prop :=
| RZero : r = 0 -> rounds_to prec emax s r E (S754_zero s)
| RFin (m : positive) (e : Z) :
    0 < r -> Zpos m * 2 ^ (e - E) = r -> E <= e ->
    canonical_mantissa prec emax m e = true -> e <= emax - prec ->
    rounds_to prec emax s r E (S754_finite s m e)
| RInf (m : positive) (e : Z) :
    0 < r -> Zpos m * 2 ^ (e - E) = r -> E <= e ->
    canonical_mantissa prec emax m e = true -> emax - prec < e ->
    rounds_to prec emax s r E (S754_infinity s).

(** A finite float of the format that is zero or positive. *)
Definition nonneg_float (prec emax : Z) (x : spec_float) : Prop :=
  match x with
  | S754_zero _ => True
  | S754_finite false m e => bounded prec emax m e = true
  | _ => False
  end.

(** [rounds_pos prec emax V x]: the float [x] is a rounding of the
    nonnegative rational [V] to the format.  It is a float of the format or
    [+inf]; no float of the format lies strictly between [V] and [x]; and [x]
    is within one unit in the last place of [V]. *)
Record rounds_pos (prec emax : Z) (V : Q) (x : spec_float) : Prop := mkRoundsPos {
  rp_class : x = S754_infinity false \/ nonneg_float prec emax x;
  rp_lower : forall (my : positive) (ey : Z),
      canonical_mantissa prec emax my ey = true ->
      (F2Q (Zpos my) ey <= V)%Q ->
      x = S754_infinity false \/ (F2Q (Zpos my) ey <= B2Q x)%Q;
  rp_upper : forall (my : positive) (ey : Z),
      bounded prec emax my ey = true ->
      (V <= F2Q (Zpos my) ey)%Q ->
      nonneg_float prec emax x /\ (B2Q x <= F2Q (Zpos my) ey)%Q;
  rp_near : forall k : Z,
      (V < 2 ^ k)%Q ->
      x = S754_infinity false \/
      (V - 2 ^ fexp prec emax k <= B2Q x /\ B2Q x <= V + 2 ^ fexp prec emax k)%Q
}.

(** A float that is zero, negative or [-inf]: what subtracting a larger
    value rounds to. *)
Definition nonpos_float (x : spec_float) : Prop :=
  match x with
  | S754_zero _ | S754_finite true _ _ | S754_infinity true => True
  | _ => False
  end.

(** ** Arduino core helpers used by the sketches *)

Module Arduino.

(** [long map(long x, long in_min, long in_max, long out_min, long out_max)]
    of the Arduino core; [/] is C's truncating division.  The core computes
    in 32-bit [long], where an overflow is undefined: [map] is the result
    of the code for the arguments that satisfy [map_fits], and says nothing
    about the others. *)
Definition map (x in_min in_max out_min out_max : Z) : Z :=
  Z.quot ((x - in_min) * (out_max - out_min)) (in_max - in_min) + out_min.

(** A value of type [long]. *)
Definition fits_long (x : Z) : Prop := - 2 ^ 31 <= x < 2 ^ 31.

(** Every intermediate result of [map] is a [long]. *)
Definition map_fits (x in_min in_max out_min out_max : Z) : Prop :=
  fits_long (x - in_min) /\ fits_long (out_max - out_min) /\
  fits_long ((x - in_min) * (out_max - out_min)) /\
  fits_long (in_max - in_min) /\
  fits_long (Z.quot ((x - in_min) * (out_max - out_min)) (in_max - in_min)) /\
  fits_long (map x in_min in_max out_min out_max).

(** The [constrain(amt, low, high)] macro. *)
Definition constrain (amt low high : Z) : Z :=
  if amt <? low then low else if amt >? high then high else amt.

End Arduino.

(** ** Colours and the linear fade shared by both sketches *)

Record RGBColor := mkRGB { r : Z; g : Z; b : Z }.

Definition RGBColor_ok (c : RGBColor) : Prop :=
  0 <= r c <= 255 /\ 0 <= g c <= 255 /\ 0 <= b c <= 255.

(** [float factor = (float)timeElapsed / FADE_DURATION_MS;] *)
Definition fade_factor (timeElapsed duration : Z) : spec_float :=
  B32.div (B32.of_Z timeElapsed) (B32.of_Z duration).

(** [(startColor.c * (1.0 - factor)) + (endColor.c * factor)]: the left
    product is computed in [double] (because of the literal [1.0]), the right
    one in [float], and the sum in [double]. *)
Definition fade_value (startc endc : Z) (factor : spec_float) : spec_float :=
  B64.add
    (B64.mul (B64.of_Z startc) (B64.sub (B64.of_Z 1) (double_of_float factor)))
    (double_of_float (B32.mul (B32.of_Z endc) factor)).

Definition fade_channel (startc endc : Z) (factor : spec_float) : Z :=
  to_uint8 (fade_value startc endc factor).

(** The body of [fade()], which is the same text in both sketches up to the
    value of [FADE_DURATION_MS]. *)
Definition fade_color (duration timeElapsed : Z) (startColor endColor : RGBColor)
  : RGBColor :=
  if timeElapsed <? duration then
    let factor := fade_factor timeElapsed duration in
    mkRGB (fade_channel (r startColor) (r endColor) factor)
          (fade_channel (g startColor) (g endColor) factor)
          (fade_channel (b startColor) (b endColor) factor)
  else endColor.

(** ** The specification's reading of the fade *)

(** The exact interpolation [start*(1-t) + end*t] of the specification at
    [t = elapsed/duration], and rounding to the nearest integer. *)
Definition spec_interp (startc endc elapsed duration : Z) : Q :=
  inject_Z (startc * (duration - elapsed) + endc * elapsed) / inject_Z duration.

Definition spec_round (x : Q) : Z := Qfloor (x + (1 # 2)).

(** What [fade] does to one channel while the fade is in progress: the
    computed [double] is a finite non-negative number [v], the channel is its
    integer part, and [v] is close to the exact interpolation. *)
Definition fade_channel_truncates (duration elapsed startc endc c : Z) : Prop :=
  let v := B2Q (fade_value startc endc (fade_factor elapsed duration)) in
  nonneg_float 53 1024 (fade_value startc endc (fade_factor elapsed duration)) /\
  c = Qfloor v /\
  (Qabs (v - spec_interp startc endc elapsed duration) <= 1 # 16384)%Q /\
  0 <= c <= 255.

(** The pixel buffer of the strip: [setPixelColor(i, ...)] writes pixel [i]
    and ignores an index past the end. *)
Fixpoint setPixelColor (i : nat) (c : RGBColor) (buf : list RGBColor) : list RGBColor :=
  match buf, i with
  | [], _ => []
  | _ :: rest, O => c :: rest
  | p :: rest, S j => p :: setPixelColor j c rest
  end.

(** [for (int i = 0; i < strip.numPixels(); ++i) strip.setPixelColor(i, c);] *)
Definition fill_strip (numPixels : nat) (c : RGBColor) (buf : list RGBColor)
  : list RGBColor :=
  fold_left (fun acc i => setPixelColor i c acc) (seq 0 numPixels) buf.

(** ** The character display *)

(** What a 16x2 display driven through [LiquidCrystal] shows.  [setCursor]
    moves the write position; [print] writes one cell per character from
    there and advances the column.  A character written outside the sixteen
    columns of the window is not shown. *)
Module LCD.

Definition COLS : Z := 16.

Record display := mkDisplay {
  col : Z;
  row : Z;
  line0 : list ascii;
  line1 : list ascii
}.

(** The display after [lcd.begin(16, 2)]: cleared, cursor at the origin. *)
Definition begin : display :=
  mkDisplay 0 0 (repeat " "%char 16) (repeat " "%char 16).

Fixpoint put (i : nat) (ch : ascii) (l : list ascii) : list ascii :=
  match l, i with
  | [], _ => []
  | _ :: rest, O => ch :: rest
  | x :: rest, S j => x :: put j ch rest
  end.

Definition setCursor (c r : Z) (d : display) : display :=
  mkDisplay c r (line0 d) (line1 d).

Definition write (ch : ascii) (d : display) : display :=
  let visible := (0 <=? col d) && (col d <? COLS) in
  mkDisplay (col d + 1) (row d)
    (if visible && (row d =? 0) then put (Z.to_nat (col d)) ch (line0 d)
     else line0 d)
    (if visible && (row d =? 1) then put (Z.to_nat (col d)) ch (line1 d)
     else line1 d).

Fixpoint print (s : string) (d : display) : display :=
  match s with
  | EmptyString => d
  | String ch rest => print rest (write ch d)
  end.

(** [lcd.print(n)] for an [int]: the decimal digits, with a sign when
    negative. *)
Definition print_int (n : Z) (d : display) : display :=
  print (NilZero.string_of_int (Z.to_int n)) d.

End LCD.

(** The column at which both sketches start the text [MODE: <mode>]:
    [(screenWidth - textWidth) / 2] in [int] arithmetic. *)
Definition startColumn (mode : string) : Z :=
  let screenWidth := 16 in
  let textWidth := Z.of_nat (String.length mode) + 6 in
  Z.quot (screenWidth - textWidth) 2.

(** ** The demo sketch *)

Module Demo.

Definition LED_COUNT : nat := 60.
Definition DIST_MIN : Z := 2.
Definition DIST_MAX : Z := 35.
Definition FADE_DURATION_MS : Z := 3000.
Definition HOLD_MODE : Z := 10000.
(** [2000.0] *)
Definition BRIGHTNESS_FADE_DURATION : spec_float := B64.of_Z 2000.
Definition HOUR_DAY : Z := 10.
Definition HOUR_AFTERNOON : Z := 18.
Definition HOUR_NIGHT : Z := 22.

Definition COLOR_DAYTIME : RGBColor := mkRGB 0 10 50.
Definition COLOR_AFTERNOON : RGBColor := mkRGB 255 255 255.
Definition COLOR_NIGHT : RGBColor := mkRGB 255 140 0.

Record state := mkState {
  fadeStartTime : Z;
  lastBrightUpdate : Z;
  simHour : Z;
  currentColor : RGBColor;
  startColor : RGBColor;
  endColor : RGBColor;
  currentMode : string;
  targetBrightness : Z;
  currentBrightnessPrecise : spec_float;
  globalBrightness : Z;
  strip : list RGBColor
}.

(** The globals as initialised at start-up. *)
Definition init : state :=
  mkState 0 0 0 COLOR_NIGHT COLOR_NIGHT COLOR_NIGHT "NIGHT"
          255 (B32.of_Z 255) 255 (repeat (mkRGB 0 0 0) LED_COUNT).

(** The values [millis()] returns at its calls during one [loop()]. *)
Record ticks := mkTicks {
  t_loop : Z;       (* first statement of [loop] *)
  t_setupFade : Z;  (* in [setupFade], when a mode change happens *)
  t_bright : Z;     (* in [updateBrightnessSmoothly] *)
  t_fade : Z        (* in [fade] *)
}.

Definition setupFade (color : RGBColor) (now : Z) (st : state) : state :=
  mkState now (lastBrightUpdate st) (simHour st)
          (currentColor st) (currentColor st) color (currentMode st)
          (targetBrightness st) (currentBrightnessPrecise st)
          (globalBrightness st) (strip st).

Definition setDemoMode (mode : string) (hour : Z) (color : RGBColor)
           (now : Z) (st : state) : state :=
  setupFade color now
    (mkState (fadeStartTime st) (lastBrightUpdate st) hour
             (currentColor st) (startColor st) (endColor st) mode
             (targetBrightness st) (currentBrightnessPrecise st)
             (globalBrightness st) (strip st)).

(** [(255.0 / BRIGHTNESS_FADE_DURATION) * dt], stored in a [float]. *)
Definition brightness_step (dt : Z) : spec_float :=
  float_of_double
    (B64.mul (B64.div (B64.of_Z 255) BRIGHTNESS_FADE_DURATION) (B64.of_Z dt)).

(** The two clamped moves of [updateBrightnessSmoothly]; the comparisons
    convert [targetBrightness] to [float]. *)
Definition smooth (cur : spec_float) (target : Z) (step : spec_float) : spec_float :=
  let tgt := B32.of_Z target in
  if B32.ltb cur tgt then
    let cur' := B32.add cur step in
    if B32.ltb tgt cur' then tgt else cur'
  else if B32.ltb tgt cur then
    let cur' := B32.sub cur step in
    if B32.ltb cur' tgt then tgt else cur'
  else cur.

Definition updateBrightnessSmoothly (now : Z) (st : state) : state :=
  let currentMillis := now in
  let dt := CInt.u32 (currentMillis - lastBrightUpdate st) in
  let step := brightness_step dt in
  let cur := smooth (currentBrightnessPrecise st) (targetBrightness st) step in
  mkState (fadeStartTime st) currentMillis (simHour st)
          (currentColor st) (startColor st) (endColor st) (currentMode st)
          (targetBrightness st) cur (to_uint8 cur) (strip st).

(** The literal [0.034]: the double nearest to 34/1000. *)
Definition lit_0_034 : spec_float := B64.div (B64.of_Z 34) (B64.of_Z 1000).

(** [getDistance()], as a function of the echo time [pulseIn] returned
    (0 on timeout). *)
Definition getDistance (duration : Z) : Z :=
  if duration =? 0 then 999
  else to_long (B64.div (B64.mul (B64.of_Z duration) lit_0_034) (B64.of_Z 2)).

Definition fade (now : Z) (st : state) : state :=
  let timeElapsed := CInt.u32 (now - fadeStartTime st) in
  mkState (fadeStartTime st) (lastBrightUpdate st) (simHour st)
          (fade_color FADE_DURATION_MS timeElapsed (startColor st) (endColor st))
          (startColor st) (endColor st) (currentMode st)
          (targetBrightness st) (currentBrightnessPrecise st)
          (globalBrightness st) (strip st).

(** [float scale = (float) globalBrightness / 255.0;] *)
Definition brightness_scale (globalBrightness : Z) : spec_float :=
  float_of_double
    (B64.div (double_of_float (B32.of_Z globalBrightness)) (B64.of_Z 255)).

(** The pixel [applyCurrentColor] writes: each channel times [scale], in
    [float], truncated to [uint8_t]. *)
Definition scaled_pixel (c : RGBColor) (globalBrightness : Z) : RGBColor :=
  let scale := brightness_scale globalBrightness in
  mkRGB (to_uint8 (B32.mul (B32.of_Z (r c)) scale))
        (to_uint8 (B32.mul (B32.of_Z (g c)) scale))
        (to_uint8 (B32.mul (B32.of_Z (b c)) scale)).

Definition applyCurrentColor (st : state) : state :=
  mkState (fadeStartTime st) (lastBrightUpdate st) (simHour st)
          (currentColor st) (startColor st) (endColor st) (currentMode st)
          (targetBrightness st) (currentBrightnessPrecise st)
          (globalBrightness st)
          (fill_strip LED_COUNT
             (scaled_pixel (currentColor st) (globalBrightness st)) (strip st)).

(** The mode part of [loop()]: the branch on [cycleTime] picks the
    arguments of [setDemoMode]. *)
Definition selectMode (cycleTime : Z) : string * Z * RGBColor :=
  if cycleTime <? HOLD_MODE then ("DAYTIME"%string, HOUR_DAY, COLOR_DAYTIME)
  else if cycleTime <? HOLD_MODE * 2
  then ("AFTERNOON"%string, HOUR_AFTERNOON, COLOR_AFTERNOON)
  else ("NIGHT"%string, HOUR_NIGHT, COLOR_NIGHT).

Definition cycleMode (cycleTime : Z) (now : Z) (st : state) : state :=
  let '(mode, hour, color) := selectMode cycleTime in
  if negb (String.eqb (currentMode st) mode)
  then setDemoMode mode hour color now st
  else st.

(** The sensor part of [loop()]. *)
Definition readSensor (dist : Z) (st : state) : state :=
  if dist <? DIST_MAX then
    let mappedBrightness := Arduino.map dist DIST_MIN DIST_MAX 255 0 in
    mkState (fadeStartTime st) (lastBrightUpdate st) (simHour st)
            (currentColor st) (startColor st) (endColor st) (currentMode st)
            (Arduino.constrain mappedBrightness 0 255)
            (currentBrightnessPrecise st) (globalBrightness st) (strip st)
  else st.

(** One iteration of [loop()]; [echo] is the result of [pulseIn].  The call
    of [updateLCD] only prints and is left out. *)
Definition loop (tk : ticks) (echo : Z) (st : state) : state :=
  let currentMillis := t_loop tk in
  let cycleTime := currentMillis mod 30000 in
  let st := cycleMode cycleTime (t_setupFade tk) st in
  let dist := getDistance echo in
  let st := readSensor dist st in
  let st := updateBrightnessSmoothly (t_bright tk) st in
  let st := fade (t_fade tk) st in
  applyCurrentColor st.

(** [updateLCD(mode, hour)]. *)
Definition updateLCD (mode : string) (hour : Z) (d : LCD.display) : LCD.display :=
  let d := LCD.setCursor 0 0 d in
  let d := LCD.print "Sim Time: " d in
  let d := if hour <? 10 then LCD.print "0" d else d in
  let d := LCD.print_int hour d in
  let d := LCD.print ":00  " d in
  let d := LCD.setCursor 0 1 d in
  let d := LCD.print "                " d in
  let d := LCD.setCursor (startColumn mode) 1 d in
  let d := LCD.print "MODE: " d in
  LCD.print mode d.

(** One full iteration of [loop()]: the globals and the display. *)
Definition loop_lcd (tk : ticks) (echo : Z) (sd : state * LCD.display)
  : state * LCD.display :=
  let st := loop tk echo (fst sd) in
  (st, updateLCD (currentMode st) (simHour st) (snd sd)).

(** The sketch from power-up: [setup()] leaves the globals at their initial
    values and the display cleared; then [loop()] runs once per element of
    [inputs], each giving the clock readings and the echo time of that
    iteration. *)
Fixpoint iterate (inputs : list (ticks * Z)) (sd : state * LCD.display)
  : state * LCD.display :=
  match inputs with
  | [] => sd
  | (tk, echo) :: rest => iterate rest (loop_lcd tk echo sd)
  end.

Definition run (inputs : list (ticks * Z)) : state * LCD.display :=
  iterate inputs (init, LCD.begin).

End Demo.

(** ** The live sketch *)

Module Live.

Definition LED_COUNT : nat := 60.
Definition MAX_BRIGHTNESS : Z := 255.
Definition DIST_MIN : Z := 5.
Definition DIST_MAX : Z := 25.
Definition FADE_DURATION_MS : Z := 1800000.
Definition HOUR_DAY_START : Z := 7.
Definition HOUR_AFTERNOON_START : Z := 17.
Definition HOUR_NIGHT_START : Z := 21.

(** The sketch defines the three colour constants twice.  The first block
    is the one in scope where the colour globals are initialised. *)
Module FirstBlock.
Definition COLOR_DAYTIME : RGBColor := mkRGB 255 255 255.
Definition COLOR_AFTERNOON : RGBColor := mkRGB 255 140 0.
Definition COLOR_NIGHT : RGBColor := mkRGB 0 10 50.
End FirstBlock.

(** The second block.  It defines the three names again, which C++ does not
    accept; [selectMode] and [checkMode] below are written for the reading
    in which this block is the one they see, and [selectMode_in] and
    [checkMode_in] further down cover both readings. *)
Definition COLOR_DAYTIME : RGBColor := mkRGB 0 10 50.
Definition COLOR_AFTERNOON : RGBColor := mkRGB 255 255 255.
Definition COLOR_NIGHT : RGBColor := mkRGB 255 140 0.

Record state := mkState {
  fadeStartTime : Z;
  lastTimeUpdate : Z;
  lastLCDUpdate : Z;
  lastBrightUpdate : Z;
  currentColor : RGBColor;
  startColor : RGBColor;
  endColor : RGBColor;
  currentMode : string;
  targetBrightness : Z;
  currentBrightnessPrecise : spec_float;
  globalBrightness : Z;
  strip : list RGBColor
}.

Definition init : state :=
  mkState 0 0 0 0 FirstBlock.COLOR_NIGHT FirstBlock.COLOR_NIGHT
          FirstBlock.COLOR_NIGHT "NIGHT"
          255 (B32.of_Z 255) 255 (repeat (mkRGB 0 0 0) LED_COUNT).

Definition setupFade (color : RGBColor) (mode : string) (now : Z) (st : state)
  : state :=
  mkState now (lastTimeUpdate st) (lastLCDUpdate st) (lastBrightUpdate st)
          (currentColor st) (currentColor st) color mode
          (targetBrightness st) (currentBrightnessPrecise st)
          (globalBrightness st) (strip st).

(** The mode and colour [checkMode] selects for an hour. *)
Definition selectMode (currentHour : Z) : string * RGBColor :=
  if (currentHour >=? HOUR_DAY_START) && (currentHour <? HOUR_AFTERNOON_START)
  then ("DAYTIME"%string, COLOR_DAYTIME)
  else if (currentHour >=? HOUR_AFTERNOON_START) && (currentHour <? HOUR_NIGHT_START)
  then ("AFTERNOON"%string, COLOR_AFTERNOON)
  else ("NIGHT"%string, COLOR_NIGHT).

Definition checkMode (currentHour : Z) (now : Z) (st : state) : state :=
  let '(mode, color) := selectMode currentHour in
  if negb (String.eqb mode (currentMode st))
  then setupFade color mode now st
  else st.

Definition fade (now : Z) (st : state) : state :=
  let timeElapsed := CInt.u32 (now - fadeStartTime st) in
  mkState (fadeStartTime st) (lastTimeUpdate st) (lastLCDUpdate st)
          (lastBrightUpdate st)
          (fade_color FADE_DURATION_MS timeElapsed (startColor st) (endColor st))
          (startColor st) (endColor st) (currentMode st)
          (targetBrightness st) (currentBrightnessPrecise st)
          (globalBrightness st) (strip st).

Definition applyCurrentColor (st : state) : state :=
  mkState (fadeStartTime st) (lastTimeUpdate st) (lastLCDUpdate st)
          (lastBrightUpdate st)
          (currentColor st) (startColor st) (endColor st) (currentMode st)
          (targetBrightness st) (currentBrightnessPrecise st)
          (globalBrightness st)
          (fill_strip LED_COUNT (currentColor st) (strip st)).

(** The sensor part of [loop()]; [dist] is what [getDistance()] returned. *)
Definition readSensor (dist : Z) (st : state) : state :=
  if dist <? DIST_MAX then
    let mappedBrightness := Arduino.map dist DIST_MIN DIST_MAX 255 0 in
    mkState (fadeStartTime st) (lastTimeUpdate st) (lastLCDUpdate st)
            (lastBrightUpdate st)
            (currentColor st) (startColor st) (endColor st) (currentMode st)
            (Arduino.constrain mappedBrightness 0 255)
            (currentBrightnessPrecise st) (globalBrightness st) (strip st)
  else st.

(** The values [millis()] returns at its calls in the body of [loop()],
    [setupFade] and [fade]. *)
Record ticks := mkTicks {
  t_modeCheck : Z;   (* [millis() - lastTimeUpdate >= 60000] *)
  t_setupFade : Z;   (* in [setupFade], when a mode change happens *)
  t_timeUpdate : Z;  (* [lastTimeUpdate = millis()] *)
  t_fade : Z;        (* in [fade] *)
  t_lcdCheck : Z;    (* [millis() - lastLCDUpdate >= 1000] *)
  t_lcdUpdate : Z    (* [lastLCDUpdate = millis()] *)
}.

Definition set_lastTimeUpdate (now : Z) (st : state) : state :=
  mkState (fadeStartTime st) now (lastLCDUpdate st) (lastBrightUpdate st)
          (currentColor st) (startColor st) (endColor st) (currentMode st)
          (targetBrightness st) (currentBrightnessPrecise st)
          (globalBrightness st) (strip st).

Definition set_lastLCDUpdate (now : Z) (st : state) : state :=
  mkState (fadeStartTime st) (lastTimeUpdate st) now (lastBrightUpdate st)
          (currentColor st) (startColor st) (endColor st) (currentMode st)
          (targetBrightness st) (currentBrightnessPrecise st)
          (globalBrightness st) (strip st).

(** The sketch declares [getDistance] and [updateBrightnessSmoothly] but
    does not define them.  The distance is an input of [loop]; the
    brightness update is an arbitrary state transformer. *)
Section Loop.

Variable updateBrightnessSmoothly : state -> state.

(** One iteration of [loop()]; [hour] is [currentTime.getHour()].  The call
    of [updateLCD] only prints and is left out. *)
Definition loop (tk : ticks) (hour dist : Z) (st : state) : state :=
  let st :=
    if CInt.u32 (t_modeCheck tk - lastTimeUpdate st) >=? 60000
    then set_lastTimeUpdate (t_timeUpdate tk) (checkMode hour (t_setupFade tk) st)
    else st in
  let st := readSensor dist st in
  let st := updateBrightnessSmoothly st in
  let st := fade (t_fade tk) st in
  let st := applyCurrentColor st in
  if CInt.u32 (t_lcdCheck tk - lastLCDUpdate st) >=? 1000
  then set_lastLCDUpdate (t_lcdUpdate tk) st
  else st.

End Loop.







(** [updateLCD(mode, time)]; [hour] and [minutes] are [time.getHour()] and
    [time.getMinutes()]. *)
Definition updateLCD (mode : string) (hour minutes : Z) (d : LCD.display)
  : LCD.display :=
  let d := LCD.setCursor 0 0 d in
  let d := LCD.print "Time: " d in
  let d := if hour <? 10 then LCD.print "0" d else d in
  let d := LCD.print_int hour d in
  let d := LCD.print ":" d in
  let d := if minutes <? 10 then LCD.print "0" d else d in
  let d := LCD.print_int minutes d in
  let d := LCD.print "      " d in
  let d := LCD.setCursor 0 1 d in
  let d := LCD.print "                " d in
  let d := LCD.setCursor (startColumn mode) 1 d in
  let d := LCD.print "MODE: " d in
  LCD.print mode d.

End Live.

(** ** Vocabulary for the properties of the sketches *)

(** The integers [lo], [lo+1], ..., [n] of them: the domain of an exhaustive
    check. *)
Fixpoint zrange (lo : Z) (n : nat) : list Z :=
  match n with
  | O => []
  | S k => lo :: zrange (lo + 1) k
  end.



(** One channel of [scaled_pixel], and the check that it is the quotient
    [c * gb / 255] where that quotient is exact. *)
Definition scaled_channel (c gb : Z) : Z :=
  to_uint8 (B32.mul (B32.of_Z c) (Demo.brightness_scale gb)).

Definition scaled_channel_check (c gb : Z) : bool :=
  if (c * gb) mod 255 =? 0 then scaled_channel c gb =? c * gb / 255 else true.

(** The decimal digit [k] as a character, and a number below 100 written
    with two digits. *)
Definition digit (k : Z) : ascii := ascii_of_nat (48 + Z.to_nat k).

Definition two_digits (n : Z) : string :=
  String (digit (n / 10)) (String (digit (n mod 10)) EmptyString).

(** A row showing [MODE: <mode>] from column [startColumn mode] on, blank
    elsewhere. *)
Definition centred (mode : string) : list ascii :=
  let text := ("MODE: " ++ mode)%string in
  let left := Z.to_nat (startColumn mode) in
  repeat " "%char left ++ list_ascii_of_string text
    ++ repeat " "%char (16 - left - String.length text).

(** The mode, simulated hour and target colour the demo holds together:
    one of the three rows [setDemoMode] is called with, or the initial
    values of the globals ([NIGHT] with [simHour = 0]). *)
Definition demo_mode_row (mode : string) (hour : Z) (color : RGBColor) : Prop :=
  (mode = "DAYTIME"%string /\ hour = Demo.HOUR_DAY /\ color = Demo.COLOR_DAYTIME) \/
  (mode = "AFTERNOON"%string /\ hour = Demo.HOUR_AFTERNOON /\ color = Demo.COLOR_AFTERNOON) \/
  (mode = "NIGHT"%string /\ hour = Demo.HOUR_NIGHT /\ color = Demo.COLOR_NIGHT) \/
  (mode = "NIGHT"%string /\ hour = 0 /\ color = Demo.COLOR_NIGHT).

(** The invariant of the demo's globals. *)
Record demo_state_ok (st : Demo.state) : Prop := mkDemoOk {
  ok_precise : nonneg_float 24 128 (Demo.currentBrightnessPrecise st);
  ok_precise_max : (B2Q (Demo.currentBrightnessPrecise st) <= 255)%Q;
  ok_target : 0 <= Demo.targetBrightness st <= 255;
  ok_global : 0 <= Demo.globalBrightness st <= 255;
  ok_current : RGBColor_ok (Demo.currentColor st);
  ok_start : RGBColor_ok (Demo.startColor st);
  ok_end : RGBColor_ok (Demo.endColor st);
  ok_strip_length : List.length (Demo.strip st) = Demo.LED_COUNT;
  ok_strip : Forall RGBColor_ok (Demo.strip st);
  ok_mode : demo_mode_row (Demo.currentMode st) (Demo.simHour st) (Demo.endColor st)
}.

Definition display_ok (d : LCD.display) : Prop :=
  List.length (LCD.line0 d) = 16%nat /\ List.length (LCD.line1 d) = 16%nat.

(** * IEEE-754 rounding: facts about [SpecFloat] *)

(** ** Binary digits *)

Lemma digits2_pos_bounds (m : positive) :
  2 ^ (Zpos (digits2_pos m) - 1) <= Zpos m < 2 ^ Zpos (digits2_pos m).
Proof.
  induction m as [p IH | p IH |]; simpl digits2_pos.
  - rewrite Pos2Z.inj_succ, Pos2Z.inj_xI.
    replace (Z.succ (Zpos (digits2_pos p)) - 1) with (Z.succ (Zpos (digits2_pos p) - 1)) by lia.
    rewrite !Z.pow_succ_r by lia.
    revert IH. generalize (2 ^ (Zpos (digits2_pos p) - 1)) (2 ^ Zpos (digits2_pos p)).
    intros lo hi IH. lia.
  - rewrite Pos2Z.inj_succ. change (Zpos p~0) with (2 * Zpos p).
    replace (Z.succ (Zpos (digits2_pos p)) - 1) with (Z.succ (Zpos (digits2_pos p) - 1)) by lia.
    rewrite !Z.pow_succ_r by lia.
    revert IH. generalize (2 ^ (Zpos (digits2_pos p) - 1)) (2 ^ Zpos (digits2_pos p)).
    intros lo hi IH. lia.
  - simpl. lia.
Qed.

Lemma Zdigits2_pos (m : positive) : Zdigits2 (Zpos m) = Zpos (digits2_pos m).
Proof. reflexivity. Qed.

Lemma Zdigits2_bounds (m : Z) :
  0 < m -> 2 ^ (Zdigits2 m - 1) <= m < 2 ^ Zdigits2 m.
Proof. destruct m as [| p | p]; try lia. intros _. apply digits2_pos_bounds. Qed.

Lemma Zdigits2_gt_0 (m : Z) : 0 < m -> 0 < Zdigits2 m.
Proof. destruct m; simpl; lia. Qed.

Lemma Zdigits2_unique (m k : Z) :
  2 ^ (k - 1) <= m < 2 ^ k -> 0 < m -> Zdigits2 m = k.
Proof.
  intros [L U] P.
  pose proof (Zdigits2_bounds m P) as [L' U'].
  pose proof (Zdigits2_gt_0 m P) as D.
  assert (K : 0 < k).
  { destruct (Z_lt_le_dec 0 k) as [|N]; [assumption|].
    destruct (Z.eq_dec k 0) as [->|]; [simpl in U; lia|].
    rewrite (Z.pow_neg_r 2 k) in U by lia. lia. }
  destruct (Z_lt_le_dec (Zdigits2 m) k) as [A|A].
  - assert (2 ^ Zdigits2 m <= 2 ^ (k - 1)) by (apply Z.pow_le_mono_r; lia). lia.
  - destruct (Z_lt_le_dec k (Zdigits2 m)) as [B|B]; [|lia].
    assert (2 ^ k <= 2 ^ (Zdigits2 m - 1)) by (apply Z.pow_le_mono_r; lia). lia.
Qed.

(** Digits of a quotient by a power of two. *)
Lemma Zdigits2_div_pow2 (m n : Z) :
  0 < m -> 0 <= n -> n < Zdigits2 m -> Zdigits2 (m / 2 ^ n) = Zdigits2 m - n.
Proof.
  intros P N L.
  pose proof (Zdigits2_bounds m P) as [Lm Um].
  assert (P2 : 0 < 2 ^ n) by (apply Z.pow_pos_nonneg; lia).
  assert (E1 : 2 ^ (Zdigits2 m - 1) = 2 ^ (Zdigits2 m - n - 1) * 2 ^ n).
  { rewrite <- Z.pow_add_r by lia. f_equal. lia. }
  assert (E2 : 2 ^ Zdigits2 m = 2 ^ (Zdigits2 m - n) * 2 ^ n).
  { rewrite <- Z.pow_add_r by lia. f_equal. lia. }
  assert (Q1 : 2 ^ (Zdigits2 m - n - 1) <= m / 2 ^ n).
  { apply Z.div_le_lower_bound; lia. }
  assert (Q2 : m / 2 ^ n < 2 ^ (Zdigits2 m - n)).
  { apply Z.div_lt_upper_bound; lia. }
  assert (0 < 2 ^ (Zdigits2 m - n - 1)) by (apply Z.pow_pos_nonneg; lia).
  apply Zdigits2_unique; [split; assumption | lia].
Qed.

(** ** Right shifts with sticky bits *)

Lemma iter_pos_nat {A : Type} (f : A -> A) (p : positive) (x : A) :
  iter_pos f p x = Nat.iter (Pos.to_nat p) f x.
Proof.
  revert x; induction p as [p IH | p IH |]; intros x; simpl iter_pos.
  - rewrite !IH, Pos2Nat.inj_xI. generalize (Pos.to_nat p); intros n.
    rewrite Nat.iter_succ_r.
    replace (2 * n)%nat with (n + n)%nat by lia.
    now rewrite Nat.iter_add.
  - rewrite !IH, Pos2Nat.inj_xO. generalize (Pos.to_nat p); intros n.
    replace (2 * n)%nat with (n + n)%nat by lia.
    now rewrite Nat.iter_add.
  - reflexivity.
Qed.

Lemma shr_1_m (mrs : shr_record) :
  0 <= shr_m mrs -> shr_m (shr_1 mrs) = shr_m mrs / 2.
Proof.
  destruct mrs as [m r s]; simpl shr_m. intros P.
  destruct m as [| [p | p |] | p]; try lia; simpl shr_m.
  - reflexivity.
  - apply Z.div_unique with 1; lia.
  - apply Z.div_unique with 0; lia.
  - reflexivity.
Qed.

Lemma shr_iter_m (n : nat) (mrs : shr_record) :
  0 <= shr_m mrs ->
  shr_m (Nat.iter n shr_1 mrs) = shr_m mrs / 2 ^ Z.of_nat n.
Proof.
  intros P. induction n as [| n IH].
  - simpl. now rewrite Z.div_1_r.
  - rewrite Nat.iter_succ, shr_1_m, IH.
    + rewrite Nat2Z.inj_succ, Z.pow_succ_r by lia.
      rewrite Z.div_div by (try apply Z.pow_pos_nonneg; lia).
      f_equal. lia.
    + rewrite IH. apply Z.div_pos; [lia | apply Z.pow_pos_nonneg; lia].
Qed.

Lemma shr_1_exact (m : Z) :
  0 <= m -> m mod 2 = 0 ->
  shr_1 (Build_shr_record m false false) = Build_shr_record (m / 2) false false.
Proof.
  intros P E.
  destruct m as [| [p | p |] | p]; try lia; simpl.
  - reflexivity.
  - exfalso. rewrite Pos2Z.inj_xI in E.
    rewrite Z.add_comm, Z.mul_comm, Z.mod_add in E by lia. discriminate.
  - f_equal. apply Z.div_unique with 0; lia.
  - discriminate.
Qed.

Lemma shr_iter_exact (n : nat) :
  forall m : Z,
    0 <= m -> m mod 2 ^ Z.of_nat n = 0 ->
    Nat.iter n shr_1 (Build_shr_record m false false)
    = Build_shr_record (m / 2 ^ Z.of_nat n) false false.
Proof.
  induction n as [| n IH]; intros m P E.
  - simpl. now rewrite Z.div_1_r.
  - rewrite Nat2Z.inj_succ, Z.pow_succ_r in * by lia.
    assert (P2 : 0 < 2 ^ Z.of_nat n) by (apply Z.pow_pos_nonneg; lia).
    apply Z.mod_divide in E; [| lia]. destruct E as [k ->].
    rewrite Nat.iter_succ_r, shr_1_exact.
    + replace (k * (2 * 2 ^ Z.of_nat n)) with (k * 2 ^ Z.of_nat n * 2) by lia.
      rewrite Z.div_mul by lia.
      rewrite IH.
      * f_equal. rewrite Z.div_mul by lia.
        replace (k * 2 ^ Z.of_nat n * 2) with (k * (2 * 2 ^ Z.of_nat n)) by lia.
        rewrite Z.div_mul by lia. reflexivity.
      * nia.
      * apply Z.mod_mul. lia.
    + assumption.
    + replace (k * (2 * 2 ^ Z.of_nat n)) with (k * 2 ^ Z.of_nat n * 2) by lia.
      apply Z.mod_mul. lia.
Qed.

Lemma round_nearest_even_cases (m : Z) (l : location) :
  round_nearest_even m l = m \/ round_nearest_even m l = m + 1.
Proof.
  destruct l as [| []]; simpl; auto. destruct (Z.even m); auto.
Qed.

Lemma shr_record_of_loc_m (m : Z) (l : location) :
  shr_m (shr_record_of_loc m l) = m.
Proof. destruct l as [| []]; reflexivity. Qed.

(** ** The rational value of a mantissa and an exponent *)

Lemma Qpow2_pos (e : Z) : (0 < 2 ^ e)%Q.
Proof. apply Qpower_0_lt. reflexivity. Qed.

Lemma Qpow2_add (a b : Z) : (2 ^ (a + b) == 2 ^ a * 2 ^ b)%Q.
Proof. apply Qpower_plus. discriminate. Qed.

Lemma Qpow2_Z (k : Z) : 0 <= k -> (2 ^ k == inject_Z (2 ^ k))%Q.
Proof. intros K. rewrite Zpower_Qpower by assumption. reflexivity. Qed.

Lemma Qpow2_le (a b : Z) : a <= b -> (2 ^ a <= 2 ^ b)%Q.
Proof.
  intros L. replace b with (a + (b - a)) by lia.
  rewrite Qpow2_add, (Qpow2_Z (b - a)) by lia.
  rewrite <- (Qmult_1_r (2 ^ a)) at 1.
  apply Qmult_le_l; [apply Qpow2_pos |].
  change 1%Q with (inject_Z 1). rewrite <- Zle_Qle.
  assert (0 < 2 ^ (b - a)) by (apply Z.pow_pos_nonneg; lia). lia.
Qed.

Lemma Qpow2_lt_inv (a b : Z) : (2 ^ a < 2 ^ b)%Q -> a < b.
Proof.
  intros L. destruct (Z_lt_le_dec a b) as [|G]; [assumption |].
  apply Qpow2_le in G. apply Qle_not_lt in G. contradiction.
Qed.

Lemma F2Q_shift (m e k : Z) : 0 <= k -> F2Q (m * 2 ^ k) e == F2Q m (e + k).
Proof.
  intros K. unfold F2Q.
  rewrite inject_Z_mult, Qpow2_add, (Qpow2_Z k) by assumption. ring.
Qed.

Lemma F2Q_le (a b e : Z) : a <= b <-> (F2Q a e <= F2Q b e)%Q.
Proof.
  unfold F2Q. rewrite Qmult_le_r by apply Qpow2_pos.
  rewrite <- Zle_Qle. reflexivity.
Qed.

Lemma F2Q_lt (a b e : Z) : a < b <-> (F2Q a e < F2Q b e)%Q.
Proof.
  unfold F2Q. rewrite Qmult_lt_r by apply Qpow2_pos.
  rewrite <- Zlt_Qlt. reflexivity.
Qed.

Lemma F2Q_plus (a b e : Z) : F2Q a e + F2Q b e == F2Q (a + b) e.
Proof. unfold F2Q. rewrite inject_Z_plus. ring. Qed.

Lemma F2Q_minus (a b e : Z) : F2Q a e - F2Q b e == F2Q (a - b) e.
Proof. unfold F2Q. unfold Z.sub. rewrite inject_Z_plus, inject_Z_opp. ring. Qed.

Lemma F2Q_mult (a b e e' : Z) : F2Q a e * F2Q b e' == F2Q (a * b) (e + e').
Proof. unfold F2Q. rewrite inject_Z_mult, Qpow2_add. ring. Qed.

Lemma F2Q_0 (e : Z) : F2Q 0 e == 0.
Proof. unfold F2Q. ring. Qed.

Lemma F2Q_Z (n : Z) : F2Q n 0 == inject_Z n.
Proof. unfold F2Q. simpl. ring. Qed.

Lemma F2Q_1 (e : Z) : F2Q 1 e == (2 ^ e)%Q.
Proof. unfold F2Q. ring. Qed.

Lemma F2Q_pos (m e : Z) : 0 < m -> (0 < F2Q m e)%Q.
Proof. intros P. rewrite <- (F2Q_0 e). now apply F2Q_lt. Qed.

Lemma F2Q_align (m e k : Z) : k <= e -> F2Q m e == F2Q (m * 2 ^ (e - k)) k.
Proof.
  intros L. rewrite F2Q_shift by lia. replace (k + (e - k)) with e by lia.
  reflexivity.
Qed.

(** A positive mantissa with [d] digits at exponent [e] lies in
    [[2^(d+e-1), 2^(d+e))]. *)
Lemma F2Q_digits_bounds (m e : Z) :
  0 < m ->
  (2 ^ (Zdigits2 m + e - 1) <= F2Q m e)%Q /\ (F2Q m e < 2 ^ (Zdigits2 m + e))%Q.
Proof.
  intros P. pose proof (Zdigits2_bounds m P) as [L U].
  pose proof (Zdigits2_gt_0 m P) as D.
  split.
  - replace (Zdigits2 m + e - 1) with (e + (Zdigits2 m - 1)) by lia.
    rewrite <- F2Q_1, <- F2Q_shift by lia. apply F2Q_le. lia.
  - replace (Zdigits2 m + e) with (e + Zdigits2 m) by lia.
    rewrite <- F2Q_1, <- F2Q_shift by lia. apply F2Q_lt. lia.
Qed.

Lemma F2Q_le_digits (m1 e1 m2 e2 : Z) :
  0 < m1 -> 0 < m2 -> (F2Q m1 e1 <= F2Q m2 e2)%Q ->
  Zdigits2 m1 + e1 <= Zdigits2 m2 + e2.
Proof.
  intros P1 P2 L.
  destruct (F2Q_digits_bounds m1 e1 P1) as [L1 _].
  destruct (F2Q_digits_bounds m2 e2 P2) as [_ U2].
  assert (H : (2 ^ (Zdigits2 m1 + e1 - 1) < 2 ^ (Zdigits2 m2 + e2))%Q).
  { eapply Qle_lt_trans; [exact L1 |]. eapply Qle_lt_trans; [exact L | exact U2]. }
  apply Qpow2_lt_inv in H. lia.
Qed.

Lemma Zpos_iter_xO (m d : positive) : Zpos (Pos.iter xO m d) = Zpos m * 2 ^ Zpos d.
Proof.
  induction d as [| d IH] using Pos.peano_ind.
  - simpl. lia.
  - rewrite Pos.iter_succ, Pos2Z.inj_succ, Z.pow_succ_r by lia.
    change (Zpos (Pos.iter xO m d)~0) with (2 * Zpos (Pos.iter xO m d)).
    rewrite IH. lia.
Qed.

Lemma Zdigits2_mul_pow2 (m k : Z) :
  0 < m -> 0 <= k -> Zdigits2 (m * 2 ^ k) = Zdigits2 m + k.
Proof.
  intros P K.
  pose proof (Zdigits2_bounds m P) as [L U].
  pose proof (Zdigits2_gt_0 m P) as D.
  assert (P2 : 0 < 2 ^ k) by (apply Z.pow_pos_nonneg; lia).
  apply Zdigits2_unique; [| nia].
  replace (Zdigits2 m + k - 1) with ((Zdigits2 m - 1) + k) by lia.
  rewrite !Z.pow_add_r by lia. nia.
Qed.

(** ** Rounding to a format *)

Section Rounding.

Variables prec emax : Z.
Hypothesis prec_range : 0 < prec < emax.


Lemma fexp_ge_emin (x : Z) : (emin prec emax) <= fexp prec emax x.
Proof. unfold fexp. lia. Qed.

Lemma fexp_ge (x : Z) : x - prec <= fexp prec emax x.
Proof. unfold fexp. lia. Qed.

Lemma fexp_mono (x y : Z) : x <= y -> fexp prec emax x <= fexp prec emax y.
Proof. unfold fexp. lia. Qed.

Lemma fexp_cases (x : Z) :
  (fexp prec emax x = x - prec /\ (emin prec emax) <= x - prec) \/ (fexp prec emax x = (emin prec emax) /\ x - prec < (emin prec emax)).
Proof. unfold fexp. lia. Qed.

Lemma binary_round_aux_unfold (s : bool) (mx ex : Z) (lx : location) :
  binary_round_aux prec emax s mx ex lx
  = round_finish prec emax s
      (round_nearest_even (shr_m (fst (shr_fexp prec emax mx ex lx)))
                          (loc_of_shr_record (fst (shr_fexp prec emax mx ex lx))))
      (snd (shr_fexp prec emax mx ex lx)).
Proof.
  unfold binary_round_aux, round_finish.
  destruct (shr_fexp prec emax mx ex lx) as [mrs' e']. reflexivity.
Qed.

Lemma shr_fexp_aligned (m e : Z) (l : location) :
  0 < m -> e <= fexp prec emax (Zdigits2 m + e) ->
  snd (shr_fexp prec emax m e l) = fexp prec emax (Zdigits2 m + e) /\
  shr_m (fst (shr_fexp prec emax m e l)) = m / 2 ^ (fexp prec emax (Zdigits2 m + e) - e) /\
  (l = loc_Exact -> m mod 2 ^ (fexp prec emax (Zdigits2 m + e) - e) = 0 ->
   fst (shr_fexp prec emax m e l)
   = Build_shr_record (m / 2 ^ (fexp prec emax (Zdigits2 m + e) - e)) false false).
Proof.
  intros P A. unfold shr_fexp, shr.
  destruct (fexp prec emax (Zdigits2 m + e) - e) as [| p | p] eqn:N; try lia; simpl fst; simpl snd.
  - rewrite shr_record_of_loc_m, Z.div_1_r. repeat split; try lia.
    intros -> _. reflexivity.
  - rewrite iter_pos_nat.
    rewrite shr_iter_m by (rewrite shr_record_of_loc_m; lia).
    rewrite shr_record_of_loc_m, positive_nat_Z. repeat split; try lia.
    intros -> D. simpl shr_record_of_loc.
    rewrite shr_iter_exact; rewrite ?positive_nat_Z; try lia. reflexivity.
Qed.

Lemma round_finish_zero (s : bool) (E : Z) :
  round_finish prec emax s 0 E = S754_zero s.
Proof.
  unfold round_finish, shr_fexp, shr.
  destruct (fexp prec emax (Zdigits2 0 + E) - E) as [| p | p]; simpl; try reflexivity.
  rewrite iter_pos_nat, shr_iter_m by (simpl; lia). simpl shr_m.
  rewrite Z.div_0_l; [reflexivity |].
  apply Z.pow_nonzero; lia.
Qed.

Lemma round_finish_canonical (s : bool) (r E : Z) :
  0 < r -> fexp prec emax (Zdigits2 r + E) = E ->
  round_finish prec emax s r E
  = if E <=? emax - prec then S754_finite s (Z.to_pos r) E else S754_infinity s.
Proof.
  intros P C. unfold round_finish, shr_fexp, shr. rewrite C, Z.sub_diag.
  simpl. destruct r; try lia. reflexivity.
Qed.

Lemma Zdigits2_pow2 (k : Z) : 0 <= k -> Zdigits2 (2 ^ k) = k + 1.
Proof.
  intros K. apply Zdigits2_unique.
  - replace (k + 1 - 1) with k by lia. split; [lia |].
    apply Z.pow_lt_mono_r; lia.
  - apply Z.pow_pos_nonneg; lia.
Qed.

Lemma round_finish_carry (s : bool) (E : Z) :
  (emin prec emax) <= E ->
  round_finish prec emax s (2 ^ prec) E
  = if E + 1 <=? emax - prec
    then S754_finite s (Z.to_pos (2 ^ (prec - 1))) (E + 1)
    else S754_infinity s.
Proof.
  intros L. unfold round_finish, shr_fexp, shr.
  rewrite Zdigits2_pow2 by lia.
  replace (fexp prec emax (prec + 1 + E) - E) with 1 by (unfold fexp; lia).
  cbn [iter_pos shr_record_of_loc fst snd].
  assert (H2 : 2 ^ prec = 2 ^ (prec - 1) * 2).
  { replace prec with (Z.succ (prec - 1)) at 1 by lia.
    rewrite Z.pow_succ_r by lia. lia. }
  assert (P : 0 < 2 ^ (prec - 1)) by (apply Z.pow_pos_nonneg; lia).
  rewrite shr_1_exact.
  - rewrite H2, Z.div_mul by lia. simpl shr_m.
    destruct (2 ^ (prec - 1)); try lia. reflexivity.
  - lia.
  - rewrite H2. apply Z.mod_mul. lia.
Qed.

Lemma round_finish_rounds (s : bool) (r E : Z) :
  r = 0 \/ (0 < r /\ fexp prec emax (Zdigits2 r + E) = E) \/ (r = 2 ^ prec /\ (emin prec emax) <= E) ->
  rounds_to prec emax s r E (round_finish prec emax s r E).
Proof.
  intros [-> | [[P C] | [-> L]]].
  - rewrite round_finish_zero. now constructor.
  - rewrite round_finish_canonical by assumption.
    assert (V : Zpos (Z.to_pos r) * 2 ^ (E - E) = r).
    { rewrite Z.sub_diag, Z2Pos.id by lia. simpl. lia. }
    assert (K : canonical_mantissa prec emax (Z.to_pos r) E = true).
    { unfold canonical_mantissa. apply Z.eqb_eq.
      rewrite <- C at 2. f_equal. f_equal. destruct r; try lia. reflexivity. }
    destruct (Z.leb_spec E (emax - prec)).
    + eapply RFin; eauto; lia.
    + eapply RInf; eauto; lia.
  - rewrite round_finish_carry by assumption.
    assert (P : 0 < 2 ^ (prec - 1)) by (apply Z.pow_pos_nonneg; lia).
    assert (P' : 0 < 2 ^ prec) by (apply Z.pow_pos_nonneg; lia).
    assert (V : Zpos (Z.to_pos (2 ^ (prec - 1))) * 2 ^ (E + 1 - E) = 2 ^ prec).
    { rewrite Z2Pos.id by lia. replace (E + 1 - E) with 1 by lia.
      rewrite <- Z.pow_add_r by lia. f_equal. lia. }
    assert (K : canonical_mantissa prec emax (Z.to_pos (2 ^ (prec - 1))) (E + 1) = true).
    { unfold canonical_mantissa. apply Z.eqb_eq.
      rewrite <- Zdigits2_pos, Z2Pos.id, Zdigits2_pow2 by lia.
      unfold fexp. lia. }
    destruct (Z.leb_spec (E + 1) (emax - prec)).
    + eapply RFin; eauto; lia.
    + eapply RInf; eauto; lia.
Qed.

Lemma rounded_mantissa_shape (M : positive) (e r : Z) :
  let E := fexp prec emax (Zpos (digits2_pos M) + e) in
  e <= E ->
  Zpos M / 2 ^ (E - e) <= r <= Zpos M / 2 ^ (E - e) + 1 ->
  r = 0 \/ (0 < r /\ fexp prec emax (Zdigits2 r + E) = E)
  \/ (r = 2 ^ prec /\ emin prec emax <= E).
Proof.
  intros E A R.
  pose proof (digits2_pos_bounds M) as [Lm Um].
  set (d := Zpos (digits2_pos M)) in *.
  set (n := E - e) in *.
  assert (N : 0 <= n) by (unfold n; lia).
  assert (P2 : 0 < 2 ^ n) by (apply Z.pow_pos_nonneg; lia).
  pose proof (fexp_ge_emin (d + e)) as Gm. fold E in Gm.
  pose proof (fexp_ge (d + e)) as Ge. fold E in Ge.
  destruct (Z_lt_le_dec n d) as [Lt | Ge'].
  - (* the shifted mantissa keeps d - n digits *)
    assert (Dq : Zdigits2 (Zpos M / 2 ^ n) = d - n).
    { apply Zdigits2_div_pow2; simpl; lia. }
    assert (Pq : 0 < Zpos M / 2 ^ n).
    { apply Z.div_str_pos. split; [lia |].
      apply Z.le_trans with (2 ^ (d - 1)); [| lia].
      apply Z.pow_le_mono_r; lia. }
    pose proof (Zdigits2_bounds _ Pq) as [Lq Uq]. rewrite Dq in Lq, Uq.
    assert (C0 : fexp prec emax (d - n + E) = E).
    { unfold E at 2. f_equal. unfold n. lia. }
    destruct (Z.eq_dec r (Zpos M / 2 ^ n)) as [-> | Ne].
    { right; left. split; [lia |]. now rewrite Dq. }
    assert (Er : r = Zpos M / 2 ^ n + 1) by lia.
    destruct (Z_lt_le_dec r (2 ^ (d - n))) as [Small | Big].
    { right; left. split; [lia |].
      replace (Zdigits2 r) with (d - n); [assumption |].
      symmetry. apply Zdigits2_unique; lia. }
    assert (Er' : r = 2 ^ (d - n)) by lia.
    destruct (Z.eq_dec (d - n) prec) as [Ep | Np].
    { right; right. rewrite Er', Ep. split; [reflexivity | assumption]. }
    right; left. split; [lia |].
    rewrite Er', Zdigits2_pow2 by lia.
    destruct (fexp_cases (d + e)) as [[F1 F2] | [F1 F2]]; fold E in F1.
    + exfalso. unfold n in *. lia.
    + unfold fexp. unfold n in *. lia.
  - assert (Q0 : Zpos M / 2 ^ n = 0).
    { apply Z.div_small. split; [lia |].
      apply Z.lt_le_trans with (2 ^ d); [lia |].
      apply Z.pow_le_mono_r; lia. }
    rewrite Q0 in R.
    destruct (Z.eq_dec r 0) as [-> | Nz]; [now left |].
    assert (r = 1) by lia. subst r.
    right; left. split; [lia |]. simpl Zdigits2.
    destruct (fexp_cases (d + e)) as [[F1 F2] | [F1 F2]]; fold E in F1.
    + exfalso. unfold n in *. lia.
    + unfold fexp. lia.
Qed.

(** The result of [binary_round_aux] on an aligned mantissa: the mantissa is
    shifted to the exponent of the format, rounded to one of its two
    neighbours (exactly when nothing is lost), and packed. *)
Lemma binary_round_aux_aligned (s : bool) (M : positive) (e : Z) (l : location) :
  let E := fexp prec emax (Zpos (digits2_pos M) + e) in
  e <= E ->
  exists r : Z,
    Zpos M / 2 ^ (E - e) <= r <= Zpos M / 2 ^ (E - e) + 1 /\
    (l = loc_Exact -> Zpos M mod 2 ^ (E - e) = 0 -> r = Zpos M / 2 ^ (E - e)) /\
    rounds_to prec emax s r E (binary_round_aux prec emax s (Zpos M) e l).
Proof.
  intros E A.
  rewrite binary_round_aux_unfold.
  destruct (shr_fexp_aligned (Zpos M) e l) as (H1 & H2 & H3);
    [lia | exact A |].
  simpl Zdigits2 in H1, H2, H3. fold E in H1, H2, H3.
  set (mrs := fst (shr_fexp prec emax (Zpos M) e l)) in *.
  exists (round_nearest_even (shr_m mrs) (loc_of_shr_record mrs)).
  rewrite H1.
  assert (R : Zpos M / 2 ^ (E - e)
              <= round_nearest_even (shr_m mrs) (loc_of_shr_record mrs)
              <= Zpos M / 2 ^ (E - e) + 1).
  { rewrite <- H2.
    destruct (round_nearest_even_cases (shr_m mrs) (loc_of_shr_record mrs)) as [-> | ->];
      lia. }
  split; [exact R |]. split.
  - intros Hl Hd. rewrite (H3 Hl Hd). reflexivity.
  - apply round_finish_rounds. now apply rounded_mantissa_shape.
Qed.

(** *** Canonical floats and the grid of the format *)

Lemma canonical_fexp (m : positive) (e : Z) :
  canonical_mantissa prec emax m e = true ->
  fexp prec emax (Zdigits2 (Zpos m) + e) = e.
Proof. unfold canonical_mantissa. intros H. now apply Z.eqb_eq in H. Qed.

Lemma canonical_exp_le (m1 : positive) (e1 : Z) (m2 : positive) (e2 : Z) :
  canonical_mantissa prec emax m1 e1 = true ->
  canonical_mantissa prec emax m2 e2 = true ->
  (F2Q (Zpos m1) e1 <= F2Q (Zpos m2) e2)%Q -> e1 <= e2.
Proof.
  intros C1 C2 L.
  apply canonical_fexp in C1. apply canonical_fexp in C2.
  rewrite <- C1, <- C2. apply fexp_mono.
  apply F2Q_le_digits; [lia | lia | exact L].
Qed.

(** A canonical float below the value [M * 2^e] is below its rounding down
    to the grid of exponent [E]. *)
Lemma grid_lower (my : positive) (ey : Z) (M : positive) (e : Z) :
  let E := fexp prec emax (Zpos (digits2_pos M) + e) in
  canonical_mantissa prec emax my ey = true ->
  e <= E ->
  (F2Q (Zpos my) ey <= F2Q (Zpos M) e)%Q ->
  (F2Q (Zpos my) ey <= F2Q (Zpos M / 2 ^ (E - e)) E)%Q.
Proof.
  intros E Cy A L.
  pose proof (canonical_fexp my ey Cy) as Fy.
  pose proof (F2Q_le_digits (Zpos my) ey (Zpos M) e ltac:(lia) ltac:(lia) L) as Dg.
  simpl Zdigits2 in *.
  set (d := Zpos (digits2_pos M)) in *.
  set (dy := Zpos (digits2_pos my)) in *.
  pose proof (digits2_pos_bounds M) as [Lm Um]. fold d in Lm, Um.
  set (n := E - e) in *.
  assert (N : 0 <= n) by (unfold n; lia).
  assert (P2 : 0 < 2 ^ n) by (apply Z.pow_pos_nonneg; lia).
  assert (Ey : ey <= E) by (rewrite <- Fy; apply fexp_mono; exact Dg).
  destruct (Z.eq_dec (dy + ey) (d + e)) as [Eq | Ne].
  - assert (ey = E) by (rewrite <- Fy; unfold E; f_equal; exact Eq). subst ey.
    apply F2Q_le. apply Z.div_le_lower_bound; [lia |].
    rewrite (F2Q_align (Zpos my) E e) in L by lia. fold n in L.
    apply F2Q_le in L. lia.
  - assert (Dn : 0 <= d - 1 - n).
    { pose proof (fexp_ge_emin (dy + ey)) as G. rewrite Fy in G.
      destruct (fexp_cases (d + e)) as [[F1 F2] | [F1 F2]]; fold E in F1;
        unfold n; lia. }
    apply Qle_trans with (2 ^ (d + e - 1))%Q.
    + apply Qle_trans with (2 ^ (dy + ey))%Q.
      * apply Qlt_le_weak.
        apply (proj2 (F2Q_digits_bounds (Zpos my) ey ltac:(lia))).
      * apply Qpow2_le. lia.
    + replace (d + e - 1) with (E + (d - 1 - n)) by (unfold n; lia).
      rewrite <- F2Q_1, <- F2Q_shift by lia. apply F2Q_le.
      rewrite Z.mul_1_l. apply Z.div_le_lower_bound; [lia |].
      rewrite Z.mul_comm, <- Z.pow_add_r by lia.
      replace (d - 1 - n + n) with (d - 1) by lia. exact Lm.
Qed.

(** A canonical float above the value [M * 2^e] is above its rounding up
    to the grid of exponent [E]. *)
Lemma grid_upper (my : positive) (ey : Z) (M : positive) (e r : Z) :
  let E := fexp prec emax (Zpos (digits2_pos M) + e) in
  canonical_mantissa prec emax my ey = true ->
  e <= E ->
  (F2Q (Zpos M) e <= F2Q (Zpos my) ey)%Q ->
  r <= Zpos M / 2 ^ (E - e) + 1 ->
  (Zpos M mod 2 ^ (E - e) = 0 -> r <= Zpos M / 2 ^ (E - e)) ->
  (F2Q r E <= F2Q (Zpos my) ey)%Q.
Proof.
  intros E Cy A L R Rx.
  pose proof (canonical_fexp my ey Cy) as Fy.
  pose proof (F2Q_le_digits (Zpos M) e (Zpos my) ey ltac:(lia) ltac:(lia) L) as Dg.
  simpl Zdigits2 in *.
  set (d := Zpos (digits2_pos M)) in *.
  set (dy := Zpos (digits2_pos my)) in *.
  pose proof (digits2_pos_bounds M) as [Lm Um]. fold d in Lm, Um.
  set (n := E - e) in *.
  assert (N : 0 <= n) by (unfold n; lia).
  assert (P2 : 0 < 2 ^ n) by (apply Z.pow_pos_nonneg; lia).
  assert (Ey : E <= ey) by (rewrite <- Fy; apply fexp_mono; exact Dg).
  pose proof (Z.div_mod (Zpos M) (2 ^ n) ltac:(lia)) as DM.
  pose proof (Z.mod_pos_bound (Zpos M) (2 ^ n) P2) as MB.
  destruct (Z.eq_dec (d + e) (dy + ey)) as [Eq | Ne].
  - assert (ey = E) by (rewrite <- Fy; unfold E; f_equal; lia). subst ey.
    apply F2Q_le.
    rewrite (F2Q_align (Zpos my) E e) in L by lia. fold n in L.
    apply F2Q_le in L.
    destruct (Z.eq_dec (Zpos M mod 2 ^ n) 0) as [Z0 | NZ].
    + specialize (Rx Z0). nia.
    + nia.
  - destruct (Z_le_gt_dec r 1) as [R1 | R1].
    + apply Qle_trans with (2 ^ ey)%Q.
      * apply Qle_trans with (F2Q 1 E); [now apply F2Q_le |].
        rewrite F2Q_1. now apply Qpow2_le.
      * rewrite <- F2Q_1. apply F2Q_le. lia.
    + assert (Dn : n < d).
      { destruct (Z_lt_le_dec n d) as [|G]; [assumption |].
        assert (Zpos M / 2 ^ n = 0); [| lia].
        apply Z.div_small. split; [lia |].
        apply Z.lt_le_trans with (2 ^ d); [lia |].
        apply Z.pow_le_mono_r; lia. }
      apply Qle_trans with (2 ^ (d + e))%Q.
      * replace (d + e) with (E + (d - n)) by (unfold n; lia).
        rewrite <- F2Q_1, <- F2Q_shift by lia. apply F2Q_le.
        rewrite Z.mul_1_l.
        assert (Zpos M / 2 ^ n < 2 ^ (d - n)); [| lia].
        apply Z.div_lt_upper_bound; [lia |].
        rewrite <- Z.pow_add_r by lia.
        replace (n + (d - n)) with d by lia. exact Um.
      * apply Qle_trans with (2 ^ (dy + ey - 1))%Q.
        -- apply Qpow2_le. lia.
        -- apply (proj1 (F2Q_digits_bounds (Zpos my) ey ltac:(lia))).
Qed.

(** *** Rounding a positive value *)

Lemma bounded_canonical (m : positive) (e : Z) :
  bounded prec emax m e = true ->
  canonical_mantissa prec emax m e = true /\ e <= emax - prec.
Proof.
  unfold bounded. intros H. apply andb_true_iff in H. destruct H as [C B].
  split; [exact C | now apply Z.leb_le].
Qed.

Lemma rounds_pos_Qeq (V V' : Q) (x : spec_float) :
  V == V' -> rounds_pos prec emax V x -> rounds_pos prec emax V' x.
Proof.
  intros E [C L U N]. constructor.
  - exact C.
  - intros my ey Cy H. apply (L my ey Cy). now rewrite E.
  - intros my ey By H. apply (U my ey By). now rewrite E.
  - intros k H. rewrite <- E. apply N. now rewrite E.
Qed.

Lemma binary_round_aux_rounds_pos (M : positive) (e : Z) :
  e <= fexp prec emax (Zpos (digits2_pos M) + e) ->
  rounds_pos prec emax (F2Q (Zpos M) e)
    (binary_round_aux prec emax false (Zpos M) e loc_Exact).
Proof.
  intros A.
  destruct (binary_round_aux_aligned false M e loc_Exact A) as (r & R & Rx & RT).
  specialize (Rx eq_refl).
  set (E := fexp prec emax (Zpos (digits2_pos M) + e)) in *.
  set (n := E - e) in *.
  assert (N : 0 <= n) by (unfold n; lia).
  assert (P2 : 0 < 2 ^ n) by (apply Z.pow_pos_nonneg; lia).
  pose proof (Z.div_mod (Zpos M) (2 ^ n) ltac:(lia)) as DM.
  pose proof (Z.mod_pos_bound (Zpos M) (2 ^ n) P2) as MB.
  set (q := Zpos M / 2 ^ n) in *.
  (* the value lies between the two grid points around it *)
  assert (VL : (F2Q q E <= F2Q (Zpos M) e)%Q).
  { rewrite (F2Q_align q E e) by lia. fold n. apply F2Q_le. nia. }
  assert (VU : (F2Q (Zpos M) e < F2Q (q + 1) E)%Q).
  { rewrite (F2Q_align (q + 1) E e) by lia. fold n. apply F2Q_lt. nia. }
  assert (RL : (F2Q q E <= F2Q r E)%Q) by (apply F2Q_le; lia).
  assert (RU : (F2Q r E <= F2Q (q + 1) E)%Q) by (apply F2Q_le; lia).
  assert (Step : F2Q (q + 1) E == F2Q q E + 2 ^ E).
  { rewrite <- F2Q_1, F2Q_plus. reflexivity. }
  assert (Near : forall k : Z, (F2Q (Zpos M) e < 2 ^ k)%Q ->
            (F2Q (Zpos M) e - 2 ^ fexp prec emax k <= F2Q r E /\
             F2Q r E <= F2Q (Zpos M) e + 2 ^ fexp prec emax k)%Q).
  { intros k Hk.
    assert (Ek : (2 ^ E <= 2 ^ fexp prec emax k)%Q).
    { apply Qpow2_le. apply fexp_mono.
      destruct (F2Q_digits_bounds (Zpos M) e ltac:(lia)) as [Lb _].
      assert (H : (2 ^ (Zdigits2 (Zpos M) + e - 1) < 2 ^ k)%Q)
        by (eapply Qle_lt_trans; eauto).
      apply Qpow2_lt_inv in H. simpl Zdigits2 in H. lia. }
    rewrite Step in VU, RU. split; lra. }
  assert (Lower : forall (my : positive) (ey : Z),
            canonical_mantissa prec emax my ey = true ->
            (F2Q (Zpos my) ey <= F2Q (Zpos M) e)%Q ->
            (F2Q (Zpos my) ey <= F2Q r E)%Q).
  { intros my ey Cy H. eapply Qle_trans; [| exact RL].
    now apply grid_lower. }
  assert (Upper : forall (my : positive) (ey : Z),
            canonical_mantissa prec emax my ey = true ->
            (F2Q (Zpos M) e <= F2Q (Zpos my) ey)%Q ->
            (F2Q r E <= F2Q (Zpos my) ey)%Q).
  { intros my ey Cy H. apply (grid_upper my ey M e r Cy A H).
    - exact (proj2 R).
    - intros D. rewrite (Rx D). apply Z.le_refl. }
  inversion RT as [Hr Hx | m e' Pr Hm He' Cm Be Hx | m e' Pr Hm He' Cm Be Hx].
  - (* rounded to zero *)
    constructor.
    + right. exact I.
    + intros my ey Cy H. right. simpl B2Q.
      rewrite <- (F2Q_0 E), <- Hr. now apply Lower.
    + intros my ey By H. split; [exact I |]. simpl B2Q.
      apply Qlt_le_weak. apply F2Q_pos. lia.
    + intros k Hk. right. simpl B2Q.
      rewrite <- (F2Q_0 E), <- Hr. now apply Near.
  - (* a finite float *)
    assert (Vx : F2Q (Zpos m) e' == F2Q r E).
    { rewrite (F2Q_align (Zpos m) e' E) by lia. now rewrite Hm. }
    constructor.
    + right. simpl. unfold bounded. rewrite Cm. simpl. now apply Z.leb_le.
    + intros my ey Cy H. right. simpl B2Q. rewrite Vx. now apply Lower.
    + intros my ey By H. apply bounded_canonical in By. destruct By as [Cy By].
      split.
      * simpl. unfold bounded. rewrite Cm. simpl. now apply Z.leb_le.
      * simpl B2Q. rewrite Vx. now apply Upper.
    + intros k Hk. right. simpl B2Q. rewrite Vx. now apply Near.
  - (* overflow *)
    assert (Vx : F2Q (Zpos m) e' == F2Q r E).
    { rewrite (F2Q_align (Zpos m) e' E) by lia. now rewrite Hm. }
    constructor.
    + now left.
    + intros my ey Cy H. now left.
    + intros my ey By H. exfalso.
      apply bounded_canonical in By. destruct By as [Cy By].
      assert (e' <= ey); [| lia].
      apply (canonical_exp_le m e' my ey Cm Cy). rewrite Vx. now apply Upper.
    + intros k Hk. now left.
Qed.

Lemma shl_align_spec (mx : positive) (ex ex' : Z) :
  snd (shl_align mx ex ex') = Z.min ex ex' /\
  Zpos (fst (shl_align mx ex ex')) = Zpos mx * 2 ^ (ex - Z.min ex ex').
Proof.
  unfold shl_align. destruct (ex' - ex) as [| d | d] eqn:D; simpl fst; simpl snd.
  - replace (Z.min ex ex') with ex by lia. rewrite Z.sub_diag. simpl. lia.
  - replace (Z.min ex ex') with ex by lia. rewrite Z.sub_diag. simpl. lia.
  - replace (Z.min ex ex') with ex' by lia. split; [reflexivity |].
    rewrite Zpos_iter_xO. f_equal. f_equal. lia.
Qed.

Lemma shl_align_value (mx : positive) (ex ex' : Z) :
  F2Q (Zpos (fst (shl_align mx ex ex'))) (snd (shl_align mx ex ex'))
  == F2Q (Zpos mx) ex.
Proof.
  destruct (shl_align_spec mx ex ex') as [-> ->].
  rewrite <- F2Q_align by lia. reflexivity.
Qed.

Lemma binary_round_rounds_pos (M : positive) (e : Z) :
  rounds_pos prec emax (F2Q (Zpos M) e) (binary_round prec emax false M e).
Proof.
  unfold binary_round.
  pose proof (shl_align_spec M e (fexp prec emax (Zpos (digits2_pos M) + e))) as [S1 S2].
  pose proof (shl_align_value M e (fexp prec emax (Zpos (digits2_pos M) + e))) as SV.
  destruct (shl_align M e (fexp prec emax (Zpos (digits2_pos M) + e))) as [mz ez].
  simpl fst in *; simpl snd in *.
  apply (rounds_pos_Qeq (F2Q (Zpos mz) ez)); [exact SV |].
  apply binary_round_aux_rounds_pos.
  assert (D : Zpos (digits2_pos mz) + ez = Zpos (digits2_pos M) + e).
  { change (Zpos (digits2_pos mz)) with (Zdigits2 (Zpos mz)).
    rewrite S2, Zdigits2_mul_pow2 by lia. simpl Zdigits2. lia. }
  rewrite D. lia.
Qed.

(** Rounding leaves a value of the format unchanged. *)
Lemma rounds_pos_exact (V : Q) (x : spec_float) (my : positive) (ey : Z) :
  rounds_pos prec emax V x ->
  bounded prec emax my ey = true -> F2Q (Zpos my) ey == V ->
  nonneg_float prec emax x /\ B2Q x == V.
Proof.
  intros [C L U N] By Ey.
  destruct (U my ey By) as [Fx Ux]; [rewrite Ey; apply Qle_refl |].
  split; [exact Fx |].
  destruct (bounded_canonical my ey By) as [Cy _].
  destruct (L my ey Cy) as [-> | Lx]; [rewrite Ey; apply Qle_refl | contradiction |].
  rewrite <- Ey. now apply Qle_antisym.
Qed.

(** Every [N * 2^G] with [N] of at most [prec] digits and [G] in the
    exponent range is the value of a float of the format. *)
Lemma representable_bounded (N G : Z) :
  0 < N < 2 ^ prec -> emin prec emax <= G <= emax - prec ->
  exists (my : positive) (ey : Z),
    bounded prec emax my ey = true /\ F2Q (Zpos my) ey == F2Q N G.
Proof.
  intros [Pn Un] [Lg Ug].
  set (ey := fexp prec emax (Zdigits2 N + G)).
  assert (Dn : Zdigits2 N <= prec).
  { destruct (Z_le_gt_dec (Zdigits2 N) prec) as [|Gt]; [assumption |].
    pose proof (Zdigits2_bounds N Pn) as [Ln _].
    assert (2 ^ prec <= 2 ^ (Zdigits2 N - 1)) by (apply Z.pow_le_mono_r; lia). lia. }
  assert (Le : ey <= G) by (unfold ey, fexp; lia).
  assert (P2 : 0 < 2 ^ (G - ey)) by (apply Z.pow_pos_nonneg; lia).
  exists (Z.to_pos (N * 2 ^ (G - ey))), ey.
  assert (Id : Zpos (Z.to_pos (N * 2 ^ (G - ey))) = N * 2 ^ (G - ey))
    by (apply Z2Pos.id; nia).
  split.
  - unfold bounded, canonical_mantissa. apply andb_true_iff. split.
    + apply Z.eqb_eq. change (Zpos (digits2_pos ?p)) with (Zdigits2 (Zpos p)).
      rewrite Id, Zdigits2_mul_pow2 by lia.
      replace (Zdigits2 N + (G - ey) + ey) with (Zdigits2 N + G) by lia.
      reflexivity.
    + apply Z.leb_le. lia.
  - rewrite Id. symmetry. apply F2Q_align. exact Le.
Qed.

Lemma rounds_pos_representable (V : Q) (x : spec_float) (N G : Z) :
  rounds_pos prec emax V x ->
  V == F2Q N G -> 0 < N < 2 ^ prec -> emin prec emax <= G <= emax - prec ->
  nonneg_float prec emax x /\ B2Q x == V.
Proof.
  intros R EV HN HG.
  destruct (representable_bounded N G HN HG) as (my & ey & By & Ey).
  apply (rounds_pos_exact V x my ey R By). now rewrite Ey.
Qed.

(** *** The operations on nonnegative floats *)

Lemma emin_le_0 : emin prec emax <= 0.
Proof. unfold emin. lia. Qed.

Lemma nonneg_float_B2Q (x : spec_float) :
  nonneg_float prec emax x -> (0 <= B2Q x)%Q.
Proof.
  destruct x as [s | s | | [|] m e]; simpl; try contradiction; intros _.
  - apply Qle_refl.
  - apply Qlt_le_weak. apply F2Q_pos. lia.
Qed.

Lemma nonneg_float_cases (x : spec_float) :
  nonneg_float prec emax x ->
  (exists s, x = S754_zero s) \/
  (exists m e, x = S754_finite false m e /\ bounded prec emax m e = true).
Proof.
  destruct x as [s | s | | [|] m e]; simpl; try contradiction; intros H; eauto.
Qed.

Lemma nonneg_float_pos (x : spec_float) :
  nonneg_float prec emax x -> (0 < B2Q x)%Q ->
  exists m e, x = S754_finite false m e /\ bounded prec emax m e = true.
Proof.
  intros N P. destruct (nonneg_float_cases x N) as [[s ->] | H]; [| exact H].
  simpl in P. exfalso. revert P. apply Qlt_irrefl.
Qed.

Lemma binary_round_as_aux (s : bool) (M : positive) (e : Z) :
  exists (mz : positive) (ez : Z),
    binary_round prec emax s M e
    = binary_round_aux prec emax s (Zpos mz) ez loc_Exact /\
    ez <= fexp prec emax (Zpos (digits2_pos mz) + ez) /\
    F2Q (Zpos mz) ez == F2Q (Zpos M) e.
Proof.
  unfold binary_round.
  pose proof (shl_align_spec M e (fexp prec emax (Zpos (digits2_pos M) + e))) as [S1 S2].
  pose proof (shl_align_value M e (fexp prec emax (Zpos (digits2_pos M) + e))) as SV.
  destruct (shl_align M e (fexp prec emax (Zpos (digits2_pos M) + e))) as [mz ez].
  simpl fst in *; simpl snd in *.
  exists mz, ez. split; [reflexivity |]. split; [| exact SV].
  assert (D : Zpos (digits2_pos mz) + ez = Zpos (digits2_pos M) + e).
  { change (Zpos (digits2_pos mz)) with (Zdigits2 (Zpos mz)).
    rewrite S2, Zdigits2_mul_pow2 by lia. simpl Zdigits2. lia. }
  rewrite D. lia.
Qed.

(** Rounding keeps the sign and never produces NaN. *)
Lemma binary_round_class (s : bool) (M : positive) (e : Z) :
  match binary_round prec emax s M e with
  | S754_zero s' | S754_infinity s' => s' = s
  | S754_finite s' m' e' => s' = s /\ bounded prec emax m' e' = true
  | S754_nan => False
  end.
Proof.
  destruct (binary_round_as_aux s M e) as (mz & ez & -> & A & _).
  destruct (binary_round_aux_aligned s mz ez loc_Exact A) as (r & _ & _ & RT).
  inversion RT as [Hr Hx | m e' Pr Hm He' Cm Be Hx | m e' Pr Hm He' Cm Be Hx];
    try reflexivity.
  split; [reflexivity |]. unfold bounded. rewrite Cm. now apply Z.leb_le.
Qed.

Lemma binary_normalize_pos (M : positive) (e : Z) (sz : bool) :
  rounds_pos prec emax (F2Q (Zpos M) e) (binary_normalize prec emax (Zpos M) e sz).
Proof. apply binary_round_rounds_pos. Qed.

(** Conversion of an integer. *)
Lemma of_Z_rounds_pos (n : Z) :
  0 < n -> rounds_pos prec emax (inject_Z n) (binary_normalize prec emax n 0 false).
Proof.
  intros P. destruct n as [| p | p]; try lia.
  apply (rounds_pos_Qeq (F2Q (Zpos p) 0)); [apply F2Q_Z |].
  apply binary_normalize_pos.
Qed.

Lemma of_Z_exact (n : Z) :
  0 <= n < 2 ^ prec ->
  nonneg_float prec emax (binary_normalize prec emax n 0 false) /\
  B2Q (binary_normalize prec emax n 0 false) == inject_Z n.
Proof.
  intros [L U]. destruct (Z.eq_dec n 0) as [-> | Nz].
  - simpl. split; [exact I | reflexivity].
  - apply (rounds_pos_representable _ _ n 0).
    + apply of_Z_rounds_pos. lia.
    + symmetry. apply F2Q_Z.
    + lia.
    + pose proof emin_le_0. lia.
Qed.

(** Addition. *)
Lemma SFadd_finite_rounds_pos (mx : positive) (ex : Z) (my : positive) (ey : Z) :
  rounds_pos prec emax (F2Q (Zpos mx) ex + F2Q (Zpos my) ey)
    (SFadd prec emax (S754_finite false mx ex) (S754_finite false my ey)).
Proof.
  unfold SFadd. simpl cond_Zopp.
  set (ez := Z.min ex ey).
  pose proof (shl_align_spec mx ex ez) as [X1 X2].
  pose proof (shl_align_spec my ey ez) as [Y1 Y2].
  pose proof (shl_align_value mx ex ez) as XV.
  pose proof (shl_align_value my ey ez) as YV.
  replace (Z.min ex ez) with ez in * by (unfold ez; lia).
  replace (Z.min ey ez) with ez in * by (unfold ez; lia).
  rewrite X1 in XV. rewrite Y1 in YV.
  apply (rounds_pos_Qeq
           (F2Q (Zpos (fst (shl_align mx ex ez)) + Zpos (fst (shl_align my ey ez))) ez)).
  - rewrite <- F2Q_plus, XV, YV. reflexivity.
  - rewrite <- Pos2Z.inj_add. apply binary_normalize_pos.
Qed.

(** Subtraction. *)
Lemma SFsub_finite (mx : positive) (ex : Z) (my : positive) (ey : Z) :
  let x := S754_finite false mx ex in
  let y := S754_finite false my ey in
  ((B2Q y < B2Q x)%Q /\ rounds_pos prec emax (B2Q x - B2Q y) (SFsub prec emax x y)) \/
  (B2Q y == B2Q x /\ SFsub prec emax x y = S754_zero false) \/
  ((B2Q x < B2Q y)%Q /\ nonpos_float (SFsub prec emax x y)).
Proof.
  intros x y. unfold x, y, SFsub. simpl cond_Zopp. simpl B2Q.
  set (ez := Z.min ex ey).
  pose proof (shl_align_spec mx ex ez) as [X1 X2].
  pose proof (shl_align_spec my ey ez) as [Y1 Y2].
  pose proof (shl_align_value mx ex ez) as XV.
  pose proof (shl_align_value my ey ez) as YV.
  replace (Z.min ex ez) with ez in * by (unfold ez; lia).
  replace (Z.min ey ez) with ez in * by (unfold ez; lia).
  rewrite X1 in XV. rewrite Y1 in YV.
  set (a := Zpos (fst (shl_align mx ex ez))) in *.
  set (b := Zpos (fst (shl_align my ey ez))) in *.
  assert (V : F2Q (a - b) ez == F2Q (Zpos mx) ex - F2Q (Zpos my) ey).
  { rewrite <- F2Q_minus, XV, YV. reflexivity. }
  destruct (a - b) as [| p | p] eqn:D.
  - right; left. split; [| reflexivity].
    rewrite F2Q_0 in V. lra.
  - left. split.
    + pose proof (F2Q_pos (Zpos p) ez ltac:(lia)). lra.
    + apply (rounds_pos_Qeq (F2Q (Zpos p) ez)); [exact V |].
      apply binary_normalize_pos.
  - right; right. split.
    + assert (H : (F2Q (Zneg p) ez < F2Q 0 ez)%Q) by (apply F2Q_lt; lia).
      rewrite F2Q_0 in H. lra.
    + simpl binary_normalize.
      pose proof (binary_round_class true p ez) as C.
      destruct (binary_round prec emax true p ez) as [s | s | | s m e];
        simpl; try exact I; try contradiction.
      * now subst s.
      * destruct C as [-> _]. exact I.
Qed.

(** Multiplication of canonical floats needs no alignment. *)
Lemma mul_aligned (mx : positive) (ex : Z) (my : positive) (ey : Z) :
  canonical_mantissa prec emax mx ex = true ->
  canonical_mantissa prec emax my ey = true ->
  ex + ey <= fexp prec emax (Zpos (digits2_pos (mx * my)) + (ex + ey)).
Proof.
  intros Cx Cy.
  apply canonical_fexp in Cx. apply canonical_fexp in Cy. simpl Zdigits2 in *.
  pose proof (digits2_pos_bounds mx) as [Lx Ux].
  pose proof (digits2_pos_bounds my) as [Ly Uy].
  pose proof (digits2_pos_bounds (mx * my)) as [Lp Up].
  set (dx := Zpos (digits2_pos mx)) in *.
  set (dy := Zpos (digits2_pos my)) in *.
  set (d := Zpos (digits2_pos (mx * my))) in *.
  assert (D : dx + dy - 1 <= d).
  { destruct (Z_le_gt_dec (dx + dy - 1) d) as [|G]; [assumption | exfalso].
    assert (H : 2 ^ d <= 2 ^ (dx + dy - 2)) by (apply Z.pow_le_mono_r; lia).
    replace (dx + dy - 2) with ((dx - 1) + (dy - 1)) in H by lia.
    rewrite Z.pow_add_r in H by (unfold dx, dy; lia).
    rewrite Pos2Z.inj_mul in Up.
    assert (0 < 2 ^ (dx - 1)) by (apply Z.pow_pos_nonneg; unfold dx; lia).
    assert (0 < 2 ^ (dy - 1)) by (apply Z.pow_pos_nonneg; unfold dy; lia).
    nia. }
  pose proof emin_le_0 as E0.
  destruct (fexp_cases (dx + ex)) as [[F1 F2] | [F1 F2]];
    destruct (fexp_cases (dy + ey)) as [[F3 F4] | [F3 F4]];
    unfold fexp; unfold dx, dy, d in *; lia.
Qed.

Lemma SFmul_finite_rounds_pos (mx : positive) (ex : Z) (my : positive) (ey : Z) :
  canonical_mantissa prec emax mx ex = true ->
  canonical_mantissa prec emax my ey = true ->
  rounds_pos prec emax (F2Q (Zpos mx) ex * F2Q (Zpos my) ey)
    (SFmul prec emax (S754_finite false mx ex) (S754_finite false my ey)).
Proof.
  intros Cx Cy. unfold SFmul. simpl xorb.
  apply (rounds_pos_Qeq (F2Q (Zpos (mx * my)) (ex + ey))).
  - rewrite Pos2Z.inj_mul. symmetry. apply F2Q_mult.
  - apply binary_round_aux_rounds_pos. now apply mul_aligned.
Qed.

(** *** Comparison *)

Lemma canonical_lt_of_exp (m1 : positive) (e1 : Z) (m2 : positive) (e2 : Z) :
  canonical_mantissa prec emax m1 e1 = true ->
  canonical_mantissa prec emax m2 e2 = true ->
  e1 < e2 -> (F2Q (Zpos m1) e1 < F2Q (Zpos m2) e2)%Q.
Proof.
  intros C1 C2 L. apply Qnot_le_lt. intros H.
  pose proof (canonical_exp_le m2 e2 m1 e1 C2 C1 H). lia.
Qed.

Lemma SFltb_finite (m1 : positive) (e1 : Z) (m2 : positive) (e2 : Z) :
  canonical_mantissa prec emax m1 e1 = true ->
  canonical_mantissa prec emax m2 e2 = true ->
  SFltb (S754_finite false m1 e1) (S754_finite false m2 e2) = true
  <-> (F2Q (Zpos m1) e1 < F2Q (Zpos m2) e2)%Q.
Proof.
  intros C1 C2. unfold SFltb, SFcompare.
  destruct (Z.compare_spec e1 e2) as [E | L | G].
  - subst e2. rewrite <- F2Q_lt.
    change (Pos.compare_cont Eq m1 m2) with (Pos.compare m1 m2).
    destruct (Pos.compare_spec m1 m2) as [E | L | G]; split; intros H;
      try discriminate; try reflexivity; lia.
  - split; [intros _ | reflexivity]. now apply canonical_lt_of_exp.
  - split; [discriminate |]. intros H. exfalso.
    pose proof (canonical_lt_of_exp m2 e2 m1 e1 C2 C1 G). lra.
Qed.

Lemma SFltb_nonneg (x y : spec_float) :
  nonneg_float prec emax x -> nonneg_float prec emax y ->
  SFltb x y = true <-> (B2Q x < B2Q y)%Q.
Proof.
  intros Nx Ny.
  destruct (nonneg_float_cases x Nx) as [[sx ->] | (mx & ex & -> & Bx)];
    destruct (nonneg_float_cases y Ny) as [[sy ->] | (my & ey & -> & By)].
  - simpl. split; [discriminate | intros H; exfalso; revert H; apply Qlt_irrefl].
  - simpl. split; [intros _ | reflexivity]. apply F2Q_pos. lia.
  - simpl. split; [discriminate |]. intros H. exfalso.
    pose proof (F2Q_pos (Zpos mx) ex ltac:(lia)). lra.
  - apply bounded_canonical in Bx. apply bounded_canonical in By.
    apply SFltb_finite; tauto.
Qed.

(** *** Rounding error of one operation *)

(** A power of two inside the range of the format is a float of the format. *)
Lemma pow2_bounded (k : Z) :
  emin prec emax + prec - 1 <= k < emax ->
  exists (my : positive) (ey : Z),
    bounded prec emax my ey = true /\ F2Q (Zpos my) ey == (2 ^ k)%Q.
Proof.
  intros R.
  destruct (representable_bounded (2 ^ (prec - 1)) (k - prec + 1)) as (my & ey & B & V).
  - split; [apply Z.pow_pos_nonneg; lia | apply Z.pow_lt_mono_r; lia].
  - lia.
  - exists my, ey. split; [exact B |].
    rewrite V, <- (Z.mul_1_l (2 ^ (prec - 1))), F2Q_shift, F2Q_1 by lia.
    replace (k - prec + 1 + (prec - 1)) with k by lia.
    reflexivity.
Qed.

(** A value below [2^k] rounds to a finite float at distance at most
    [2^(k - prec)]. *)
Lemma rounds_pos_near (V : Q) (x : spec_float) (k : Z) :
  rounds_pos prec emax V x -> (V < 2 ^ k)%Q ->
  emin prec emax + prec <= k < emax ->
  nonneg_float prec emax x /\
  (V - 2 ^ (k - prec) <= B2Q x)%Q /\ (B2Q x <= V + 2 ^ (k - prec))%Q.
Proof.
  intros RP Hk R.
  destruct (pow2_bounded k ltac:(lia)) as (my & ey & B & Vy).
  destruct (rp_upper _ _ _ _ RP my ey B) as [N _]; [rewrite Vy; lra |].
  split; [exact N |].
  destruct (rp_near _ _ _ _ RP k Hk) as [Inf | Near].
  - rewrite Inf in N. contradiction.
  - replace (fexp prec emax k) with (k - prec) in Near by (unfold fexp; lia).
    exact Near.
Qed.

Lemma SFadd_nonneg_near (x y : spec_float) (k : Z) :
  nonneg_float prec emax x -> nonneg_float prec emax y ->
  (B2Q x + B2Q y < 2 ^ k)%Q ->
  emin prec emax + prec <= k < emax ->
  nonneg_float prec emax (SFadd prec emax x y) /\
  (B2Q x + B2Q y - 2 ^ (k - prec) <= B2Q (SFadd prec emax x y))%Q /\
  (B2Q (SFadd prec emax x y) <= B2Q x + B2Q y + 2 ^ (k - prec))%Q.
Proof.
  intros Nx Ny Hk R.
  pose proof (Qpow2_pos (k - prec)) as P.
  destruct (nonneg_float_cases x Nx) as [[sx ->] | (mx & ex & -> & Bx)];
    destruct (nonneg_float_cases y Ny) as [[sy ->] | (my & ey & -> & By)].
  - destruct sx, sy; simpl; (split; [exact I | split; lra]).
  - simpl SFadd. split; [exact Ny |]. simpl B2Q. split; lra.
  - simpl SFadd. split; [exact Nx |]. simpl B2Q. split; lra.
  - apply rounds_pos_near; [apply SFadd_finite_rounds_pos | exact Hk | exact R].
Qed.

Lemma SFsub_nonneg_near (x y : spec_float) (k : Z) :
  nonneg_float prec emax x -> nonneg_float prec emax y ->
  (B2Q y <= B2Q x)%Q -> (B2Q x - B2Q y < 2 ^ k)%Q ->
  emin prec emax + prec <= k < emax ->
  nonneg_float prec emax (SFsub prec emax x y) /\
  (B2Q x - B2Q y - 2 ^ (k - prec) <= B2Q (SFsub prec emax x y))%Q /\
  (B2Q (SFsub prec emax x y) <= B2Q x - B2Q y + 2 ^ (k - prec))%Q.
Proof.
  intros Nx Ny L Hk R.
  pose proof (Qpow2_pos (k - prec)) as P.
  destruct (nonneg_float_cases x Nx) as [[sx ->] | (mx & ex & -> & Bx)];
    destruct (nonneg_float_cases y Ny) as [[sy ->] | (my & ey & -> & By)].
  - destruct sx, sy; simpl; (split; [exact I | split; lra]).
  - exfalso. simpl in L. pose proof (F2Q_pos (Zpos my) ey ltac:(lia)). lra.
  - simpl SFsub. split; [exact Nx |]. simpl B2Q. split; lra.
  - destruct (SFsub_finite mx ex my ey) as [[Lt RP] | [[Eq ->] | [Gt _]]].
    + apply rounds_pos_near; [exact RP | exact Hk | exact R].
    + split; [exact I |]. simpl B2Q in *. split; lra.
    + exfalso. lra.
Qed.

Lemma SFmul_nonneg_near (x y : spec_float) (k : Z) :
  nonneg_float prec emax x -> nonneg_float prec emax y ->
  (B2Q x * B2Q y < 2 ^ k)%Q ->
  emin prec emax + prec <= k < emax ->
  nonneg_float prec emax (SFmul prec emax x y) /\
  (B2Q x * B2Q y - 2 ^ (k - prec) <= B2Q (SFmul prec emax x y))%Q /\
  (B2Q (SFmul prec emax x y) <= B2Q x * B2Q y + 2 ^ (k - prec))%Q.
Proof.
  intros Nx Ny Hk R.
  pose proof (Qpow2_pos (k - prec)) as P.
  destruct (nonneg_float_cases x Nx) as [[sx ->] | (mx & ex & -> & Bx)];
    destruct (nonneg_float_cases y Ny) as [[sy ->] | (my & ey & -> & By)];
    try (simpl; split; [exact I | split; lra]).
  apply bounded_canonical in Bx. apply bounded_canonical in By.
  apply rounds_pos_near;
    [apply SFmul_finite_rounds_pos; tauto | exact Hk | exact R].
Qed.

End Rounding.

(** * Properties of the sketches *)

(** ** Mode selection *)

Lemma live_checkMode_mode (h now : Z) (st : Live.state) :
  Live.currentMode (Live.checkMode h now st) = fst (Live.selectMode h).
Proof.
  unfold Live.checkMode.
  destruct (Live.selectMode h) as [mode color]; simpl.
  destruct (String.eqb mode (Live.currentMode st)) eqn:E; simpl.
  - symmetry. now apply String.eqb_eq.
  - reflexivity.
Qed.

Lemma live_selectMode_cases (h : Z) :
  (7 <= h < 17 /\ Live.selectMode h = ("DAYTIME"%string, Live.COLOR_DAYTIME)) \/
  (17 <= h < 21 /\ Live.selectMode h = ("AFTERNOON"%string, Live.COLOR_AFTERNOON)) \/
  (~ 7 <= h < 21 /\ Live.selectMode h = ("NIGHT"%string, Live.COLOR_NIGHT)).
Proof.
  unfold Live.selectMode, Live.HOUR_DAY_START, Live.HOUR_AFTERNOON_START,
    Live.HOUR_NIGHT_START.
  destruct (h >=? 7) eqn:E1; destruct (h <? 17) eqn:E2;
    destruct (h >=? 17) eqn:E3; destruct (h <? 21) eqn:E4; simpl;
    rewrite ?Z.geb_le, ?Z.ltb_lt, ?Z.ltb_ge in *;
    try rewrite Z.geb_leb in *; rewrite ?Z.leb_le, ?Z.leb_gt in *;
    (left; split; [lia | reflexivity]) ||
    (right; left; split; [lia | reflexivity]) ||
    (right; right; split; [lia | reflexivity]).
Qed.

(** C5.  In the live sketch the mode stored after [checkMode] depends on the
    hour alone, through half-open intervals: [7,17) is DAYTIME, [17,21) is
    AFTERNOON, every other hour is NIGHT; in particular 8, 18 and 22 give
    DAYTIME, AFTERNOON and NIGHT. *)
Theorem live_mode_is_function_of_hour (h now : Z) (st : Live.state) :
  (7 <= h < 17 -> Live.currentMode (Live.checkMode h now st) = "DAYTIME"%string) /\
  (17 <= h < 21 -> Live.currentMode (Live.checkMode h now st) = "AFTERNOON"%string) /\
  (~ 7 <= h < 21 -> Live.currentMode (Live.checkMode h now st) = "NIGHT"%string) /\
  Live.currentMode (Live.checkMode 8 now st) = "DAYTIME"%string /\
  Live.currentMode (Live.checkMode 18 now st) = "AFTERNOON"%string /\
  Live.currentMode (Live.checkMode 22 now st) = "NIGHT"%string.
Proof.
  rewrite !live_checkMode_mode.
  repeat split; try reflexivity; intros H;
    destruct (live_selectMode_cases h) as [[R E] | [[R E] | [R E]]];
    rewrite E; simpl; (reflexivity || lia).
Qed.

Lemma live_mode_is_function_of_hour_witness :
  Live.currentMode (Live.checkMode 9 0 Live.init) = "DAYTIME"%string /\
  Live.currentMode (Live.checkMode 20 0 Live.init) = "AFTERNOON"%string /\
  Live.currentMode (Live.checkMode 3 0 Live.init) = "NIGHT"%string.
Proof.
  split; [| split].
  - apply (proj1 (live_mode_is_function_of_hour 9 0 Live.init)); lia.
  - apply (proj1 (proj2 (live_mode_is_function_of_hour 20 0 Live.init))); lia.
  - apply (proj1 (proj2 (proj2 (live_mode_is_function_of_hour 3 0 Live.init)))); lia.
Defined.

(** C7.  Calling [checkMode] again with the same hour changes nothing: the
    whole state, and so [startColor], [endColor] and [fadeStartTime], is the
    one the first call left, whatever [millis()] returns the second time. *)
Theorem live_checkMode_idempotent (h t1 t2 : Z) (st : Live.state) :
  Live.checkMode h t2 (Live.checkMode h t1 st) = Live.checkMode h t1 st /\
  Live.startColor (Live.checkMode h t2 (Live.checkMode h t1 st))
    = Live.startColor (Live.checkMode h t1 st) /\
  Live.endColor (Live.checkMode h t2 (Live.checkMode h t1 st))
    = Live.endColor (Live.checkMode h t1 st) /\
  Live.fadeStartTime (Live.checkMode h t2 (Live.checkMode h t1 st))
    = Live.fadeStartTime (Live.checkMode h t1 st).
Proof.
  assert (E : Live.checkMode h t2 (Live.checkMode h t1 st) = Live.checkMode h t1 st).
  { pose proof (live_checkMode_mode h t1 st) as M.
    unfold Live.checkMode at 1.
    destruct (Live.selectMode h) as [mode color]; simpl in M |- *.
    rewrite M, String.eqb_refl. reflexivity. }
  rewrite E. repeat split.
Qed.

(** ** Completed fades *)

(** C6.  In both sketches, once the elapsed time has reached
    [FADE_DURATION_MS], [fade] makes [currentColor] equal to [endColor],
    channel for channel. *)
Theorem fade_complete_is_endColor :
  (forall now st,
      Demo.FADE_DURATION_MS <= CInt.u32 (now - Demo.fadeStartTime st) ->
      Demo.currentColor (Demo.fade now st) = Demo.endColor st) /\
  (forall now st,
      Live.FADE_DURATION_MS <= CInt.u32 (now - Live.fadeStartTime st) ->
      Live.currentColor (Live.fade now st) = Live.endColor st).
Proof.
  split; intros now st H; simpl; unfold fade_color;
    match goal with |- context [?a <? ?d] => destruct (Z.ltb_spec a d) as [L | L] end;
    (reflexivity || lia).
Qed.

Lemma fade_complete_is_endColor_witness :
  Demo.currentColor (Demo.fade 3000 Demo.init) = Demo.endColor Demo.init /\
  Live.currentColor (Live.fade 1800000 Live.init) = Live.endColor Live.init.
Proof.
  split.
  - apply (proj1 fade_complete_is_endColor). vm_compute. discriminate.
  - apply (proj2 fade_complete_is_endColor). vm_compute. discriminate.
Defined.

(** ** The demo cycle *)

Lemma demo_cycleMode_mode (c now : Z) (st : Demo.state) :
  Demo.currentMode (Demo.cycleMode c now st) = fst (fst (Demo.selectMode c)).
Proof.
  unfold Demo.cycleMode.
  destruct (Demo.selectMode c) as [[mode hour] color]; simpl.
  destruct (String.eqb (Demo.currentMode st) mode) eqn:E; simpl.
  - now apply String.eqb_eq.
  - reflexivity.
Qed.

Lemma demo_readSensor_mode (dist : Z) (st : Demo.state) :
  Demo.currentMode (Demo.readSensor dist st) = Demo.currentMode st.
Proof. unfold Demo.readSensor. destruct (dist <? Demo.DIST_MAX); reflexivity. Qed.

Lemma demo_loop_mode (tk : Demo.ticks) (echo : Z) (st : Demo.state) :
  Demo.currentMode (Demo.loop tk echo st)
  = fst (fst (Demo.selectMode (Demo.t_loop tk mod 30000))).
Proof.
  unfold Demo.loop. simpl.
  rewrite demo_readSensor_mode. apply demo_cycleMode_mode.
Qed.

(** C8.  In the demo sketch the mode after one [loop()] is a function of
    [cycleTime = millis() mod 30000]: DAYTIME on [0,10000), AFTERNOON on
    [10000,20000), NIGHT on [20000,30000); so it switches at 0, 10000 and
    20000 and is DAYTIME again when the cycle wraps at 30000. *)
Theorem demo_mode_is_function_of_cycleTime (tk : Demo.ticks) (echo : Z) (st : Demo.state) :
  let cycleTime := Demo.t_loop tk mod 30000 in
  (0 <= cycleTime < 10000 ->
     Demo.currentMode (Demo.loop tk echo st) = "DAYTIME"%string) /\
  (10000 <= cycleTime < 20000 ->
     Demo.currentMode (Demo.loop tk echo st) = "AFTERNOON"%string) /\
  (20000 <= cycleTime < 30000 ->
     Demo.currentMode (Demo.loop tk echo st) = "NIGHT"%string) /\
  0 <= cycleTime < 30000.
Proof.
  intros cycleTime. rewrite demo_loop_mode. fold cycleTime.
  assert (R : 0 <= cycleTime < 30000) by (apply Z.mod_pos_bound; lia).
  unfold Demo.selectMode, Demo.HOLD_MODE.
  repeat split; try lia; intros H;
    destruct (Z.ltb_spec cycleTime 10000); destruct (Z.ltb_spec cycleTime (10000 * 2));
    simpl; (reflexivity || lia).
Qed.

Lemma demo_mode_is_function_of_cycleTime_witness :
  Demo.currentMode (Demo.loop (Demo.mkTicks 0 0 0 0) 0 Demo.init) = "DAYTIME"%string /\
  Demo.currentMode (Demo.loop (Demo.mkTicks 10000 10000 10000 10000) 0 Demo.init)
    = "AFTERNOON"%string /\
  Demo.currentMode (Demo.loop (Demo.mkTicks 20000 20000 20000 20000) 0 Demo.init)
    = "NIGHT"%string /\
  Demo.currentMode (Demo.loop (Demo.mkTicks 30000 30000 30000 30000) 0 Demo.init)
    = "DAYTIME"%string.
Proof.
  split; [| split; [| split]].
  - apply (proj1 (demo_mode_is_function_of_cycleTime (Demo.mkTicks 0 0 0 0) 0 Demo.init)).
    vm_compute. split; [discriminate | reflexivity].
  - apply (proj1 (proj2 (demo_mode_is_function_of_cycleTime
                           (Demo.mkTicks 10000 10000 10000 10000) 0 Demo.init))).
    vm_compute. split; [discriminate | reflexivity].
  - apply (proj1 (proj2 (proj2 (demo_mode_is_function_of_cycleTime
                                  (Demo.mkTicks 20000 20000 20000 20000) 0 Demo.init)))).
    vm_compute. split; [discriminate | reflexivity].
  - apply (proj1 (demo_mode_is_function_of_cycleTime
                    (Demo.mkTicks 30000 30000 30000 30000) 0 Demo.init)).
    vm_compute. split; [discriminate | reflexivity].
Defined.

(** ** Sensor timeout *)

(** C9.  When [pulseIn] times out (returns 0), [getDistance] returns 999,
    which is not below [DIST_MAX]; the proximity branch of [loop()] is then
    skipped and [targetBrightness] keeps its value. *)
Theorem demo_timeout_keeps_targetBrightness :
  Demo.getDistance 0 = 999 /\
  (Demo.getDistance 0 <? Demo.DIST_MAX) = false /\
  (forall st, Demo.readSensor (Demo.getDistance 0) st = st) /\
  (forall tk st,
      Demo.targetBrightness (Demo.loop tk 0 st) = Demo.targetBrightness st).
Proof.
  repeat split.
  intros tk st. unfold Demo.loop. simpl.
  unfold Demo.cycleMode.
  destruct (Demo.selectMode (Demo.t_loop tk mod 30000)) as [[mode hour] color].
  destruct (negb (String.eqb (Demo.currentMode st) mode)); reflexivity.
Qed.

(** ** The colours of the modes *)





(** ** Brightness and the strip *)

Lemma setPixelColor_app (pre : list RGBColor) (p c : RGBColor) (post : list RGBColor) :
  setPixelColor (List.length pre) c (pre ++ p :: post) = pre ++ c :: post.
Proof. induction pre as [| q pre IH]; simpl; congruence. Qed.

Lemma fill_strip_from (c : RGBColor) (post : list RGBColor) :
  forall pre : list RGBColor,
    fold_left (fun acc i => setPixelColor i c acc)
              (seq (List.length pre) (List.length post)) (pre ++ post)
    = pre ++ repeat c (List.length post).
Proof.
  induction post as [| p post IH]; intros pre; simpl.
  - reflexivity.
  - rewrite setPixelColor_app.
    replace (pre ++ c :: post) with ((pre ++ [c]) ++ post)
      by (rewrite <- app_assoc; reflexivity).
    replace (S (List.length pre)) with (List.length (pre ++ [c]))
      by (rewrite length_app; simpl; lia).
    rewrite IH, <- app_assoc. reflexivity.
Qed.

(** Filling a strip of [n] pixels leaves every pixel equal to [c]. *)
Lemma fill_strip_all (n : nat) (c : RGBColor) (buf : list RGBColor) :
  List.length buf = n -> fill_strip n c buf = repeat c n.
Proof.
  intros <-. unfold fill_strip. apply (fill_strip_from c buf []).
Qed.

(** ** Brightness smoothing *)

(** [uint8_t] values convert to [float] exactly. *)
Lemma B32_of_uint8 (n : Z) :
  0 <= n <= 255 ->
  nonneg_float 24 128 (B32.of_Z n) /\ B2Q (B32.of_Z n) == inject_Z n.
Proof.
  intros R. apply (of_Z_exact 24 128); [lia |].
  change (2 ^ 24) with 16777216. lia.
Qed.

(** The step is a finite [float]: [0.1275 * dt] stays far below the largest
    [float] for every 32-bit [dt]. *)
Lemma brightness_step_finite (dt : Z) :
  0 <= dt < 2 ^ 32 -> nonneg_float 24 128 (Demo.brightness_step dt).
Proof.
  intros R. unfold Demo.brightness_step.
  destruct (of_Z_exact 53 1024 ltac:(lia) dt) as [Nd Vd].
  { change (2 ^ 53) with 9007199254740992. change (2 ^ 32) with 4294967296 in R. lia. }
  change (B64.of_Z dt) with (binary_normalize 53 1024 dt 0 false).
  unfold B64.mul. change B64.prec with 53. change B64.emax with 1024.
  set (c := B64.div (B64.of_Z 255) Demo.BRIGHTNESS_FADE_DURATION).
  assert (Ec : c = S754_finite false 4593671619917906 (-55)) by (vm_compute; reflexivity).
  assert (Nc : nonneg_float 53 1024 c) by (rewrite Ec; vm_compute; reflexivity).
  assert (Uc : (B2Q c < 1 # 4)%Q) by (rewrite Ec; vm_compute; reflexivity).
  pose proof (nonneg_float_B2Q 53 1024 c Nc) as Pc.
  clear Ec. clearbody c.
  assert (Ud : (0 <= inject_Z dt)%Q /\ (inject_Z dt < 4294967296)%Q).
  { change 0%Q with (inject_Z 0). change 4294967296%Q with (inject_Z 4294967296).
    rewrite <- Zle_Qle, <- Zlt_Qlt. change (2 ^ 32) with 4294967296 in R. lia. }
  destruct (SFmul_nonneg_near 53 1024 ltac:(lia) c
              (binary_normalize 53 1024 dt 0 false) 30 Nc Nd) as (Np & _ & Up).
  { rewrite Vd. change (2 ^ 30)%Q with 1073741824%Q.
    assert (H : (B2Q c * inject_Z dt <= (1 # 4) * inject_Z dt)%Q)
      by (apply Qmult_le_compat_r; [apply Qlt_le_weak; exact Uc | tauto]).
    lra. }
  { unfold emin. lia. }
  rewrite Vd in Up. change (2 ^ (30 - 53))%Q with (2 ^ (-23))%Q in Up.
  assert (E23 : (2 ^ (-23) == 1 # 8388608)%Q) by reflexivity.
  rewrite E23 in Up.
  destruct (nonneg_float_cases 53 1024 _ Np) as [[s Ez] | (m & e & Ef & B)].
  - rewrite Ez. exact I.
  - rewrite Ef in *. unfold float_of_double. simpl cond_Zopp. simpl B2Q in Up.
    apply (rounds_pos_near 24 128 ltac:(lia) (F2Q (Zpos m) e) _ 31).
    + apply binary_normalize_pos. unfold B32.prec, B32.emax. lia.
    + change (2 ^ 31)%Q with 2147483648%Q.
      assert (H : (B2Q c * inject_Z dt <= (1 # 4) * inject_Z dt)%Q)
        by (apply Qmult_le_compat_r; [apply Qlt_le_weak; exact Uc | tauto]).
      lra.
    + unfold emin. lia.
Qed.

Lemma SFltb_inf_r (x : spec_float) :
  nonneg_float 24 128 x -> SFltb x (S754_infinity false) = true.
Proof. destruct x as [s | s | | [|] m e]; simpl; try contradiction; reflexivity. Qed.

Lemma SFltb_nonpos_l (x y : spec_float) :
  nonpos_float x -> nonneg_float 24 128 y ->
  (SFltb x y = true) \/ (exists s, x = S754_zero s).
Proof.
  destruct x as [s | [|] | | [|] m e]; simpl; try contradiction; intros _ Ny.
  - right. eauto.
  - left. destruct y as [s | s | | [|] m e]; simpl in *; try contradiction; reflexivity.
  - left. destruct y as [s | s | | [|] m' e']; simpl in *; try contradiction; reflexivity.
Qed.

(** One clamped move never leaves the interval between the old value and
    the target. *)
Lemma smooth_between (cur : spec_float) (target : Z) (step : spec_float) :
  nonneg_float 24 128 cur -> 0 <= target <= 255 ->
  step = S754_infinity false \/ nonneg_float 24 128 step ->
  nonneg_float 24 128 (Demo.smooth cur target step) /\
  (((B2Q cur <= inject_Z target)%Q /\
    (B2Q cur <= B2Q (Demo.smooth cur target step))%Q /\
    (B2Q (Demo.smooth cur target step) <= inject_Z target)%Q) \/
   ((inject_Z target <= B2Q cur)%Q /\
    (inject_Z target <= B2Q (Demo.smooth cur target step))%Q /\
    (B2Q (Demo.smooth cur target step) <= B2Q cur)%Q)).
Proof.
  intros Nc Rt Cs.
  destruct (B32_of_uint8 target Rt) as [Nt Vt].
  unfold Demo.smooth, B32.ltb, B32.add, B32.sub, B32.prec, B32.emax.
  set (tgt := B32.of_Z target) in *.
  pose proof (SFltb_nonneg 24 128 ltac:(lia) cur tgt Nc Nt) as Lct.
  pose proof (SFltb_nonneg 24 128 ltac:(lia) tgt cur Nt Nc) as Ltc.
  destruct (SFltb cur tgt) eqn:E1.
  - (* moving up *)
    assert (Lt : (B2Q cur < B2Q tgt)%Q) by (now apply Lct).
    assert (Done : nonneg_float 24 128 tgt /\
              ((B2Q cur <= inject_Z target)%Q /\ (B2Q cur <= B2Q tgt)%Q /\
               (B2Q tgt <= inject_Z target)%Q \/
               (inject_Z target <= B2Q cur)%Q /\ (inject_Z target <= B2Q tgt)%Q /\
               (B2Q tgt <= B2Q cur)%Q)).
    { split; [exact Nt |]. left. rewrite Vt in *. repeat split; lra. }
    assert (Keep : forall x, nonneg_float 24 128 x -> (B2Q cur <= B2Q x)%Q ->
              nonneg_float 24 128 (if SFltb tgt x then tgt else x) /\
              ((B2Q cur <= inject_Z target)%Q /\
               (B2Q cur <= B2Q (if SFltb tgt x then tgt else x))%Q /\
               (B2Q (if SFltb tgt x then tgt else x) <= inject_Z target)%Q \/
               (inject_Z target <= B2Q cur)%Q /\
               (inject_Z target <= B2Q (if SFltb tgt x then tgt else x))%Q /\
               (B2Q (if SFltb tgt x then tgt else x) <= B2Q cur)%Q)).
    { intros x Nx Lx.
      pose proof (SFltb_nonneg 24 128 ltac:(lia) tgt x Nt Nx) as Ltx.
      destruct (SFltb tgt x) eqn:E2; [exact Done |].
      split; [exact Nx |]. left.
      assert (~ (B2Q tgt < B2Q x)%Q) by (intros H; apply Ltx in H; discriminate).
      rewrite Vt in *. repeat split; lra. }
    destruct Cs as [-> | Ns].
    + replace (SFadd 24 128 cur (S754_infinity false)) with (S754_infinity false)
        by (destruct cur as [s | s | | [|] m e]; simpl in *; try contradiction; reflexivity).
      rewrite (SFltb_inf_r tgt Nt). exact Done.
    + destruct (nonneg_float_cases 24 128 cur Nc) as [[sc Ec] | (mc & ec & Ec & Bc)];
        destruct (nonneg_float_cases 24 128 step Ns) as [[ss Es] | (ms & es & Es & Bs)].
      * subst cur step. apply Keep.
        -- destruct sc, ss; exact I.
        -- destruct sc, ss; simpl; apply Qle_refl.
      * subst cur step. simpl SFadd. apply Keep; [exact Ns |].
        simpl B2Q. apply Qlt_le_weak. apply F2Q_pos. lia.
      * subst cur step. simpl SFadd. apply Keep; [exact Nc | apply Qle_refl].
      * subst cur step.
        pose proof (SFadd_finite_rounds_pos 24 128 ltac:(lia) mc ec ms es) as RP.
        destruct (bounded_canonical 24 128 mc ec Bc) as [Cc _].
        destruct (rp_class _ _ _ _ RP) as [Inf | Nx].
        -- rewrite Inf, (SFltb_inf_r tgt Nt). exact Done.
        -- apply Keep; [exact Nx |].
           destruct (rp_lower _ _ _ _ RP mc ec Cc) as [Inf | Lx].
           ++ pose proof (F2Q_pos (Zpos ms) es ltac:(lia)). lra.
           ++ rewrite Inf in Nx. contradiction.
           ++ exact Lx.
  - destruct (SFltb tgt cur) eqn:E2.
    + (* moving down *)
      assert (Gt : (B2Q tgt < B2Q cur)%Q) by (now apply Ltc).
      assert (Done : nonneg_float 24 128 tgt /\
                ((B2Q cur <= inject_Z target)%Q /\ (B2Q cur <= B2Q tgt)%Q /\
                 (B2Q tgt <= inject_Z target)%Q \/
                 (inject_Z target <= B2Q cur)%Q /\ (inject_Z target <= B2Q tgt)%Q /\
                 (B2Q tgt <= B2Q cur)%Q)).
      { split; [exact Nt |]. right. rewrite Vt in *. repeat split; lra. }
      assert (Keep : forall x, nonneg_float 24 128 x -> (B2Q x <= B2Q cur)%Q ->
                nonneg_float 24 128 (if SFltb x tgt then tgt else x) /\
                ((B2Q cur <= inject_Z target)%Q /\
                 (B2Q cur <= B2Q (if SFltb x tgt then tgt else x))%Q /\
                 (B2Q (if SFltb x tgt then tgt else x) <= inject_Z target)%Q \/
                 (inject_Z target <= B2Q cur)%Q /\
                 (inject_Z target <= B2Q (if SFltb x tgt then tgt else x))%Q /\
                 (B2Q (if SFltb x tgt then tgt else x) <= B2Q cur)%Q)).
      { intros x Nx Lx.
        pose proof (SFltb_nonneg 24 128 ltac:(lia) x tgt Nx Nt) as Lxt.
        destruct (SFltb x tgt) eqn:E3; [exact Done |].
        split; [exact Nx |]. right.
        assert (~ (B2Q x < B2Q tgt)%Q) by (intros H; apply Lxt in H; discriminate).
        rewrite Vt in *. repeat split; lra. }
      pose proof (nonneg_float_B2Q 24 128 tgt Nt) as T0.
      destruct (nonneg_float_pos 24 128 cur Nc ltac:(lra)) as (mc & ec & Ec & Bc).
      destruct Cs as [-> | Ns].
      * subst cur. simpl SFsub.
        destruct tgt as [s | s | | [|] m e]; simpl in Nt |- *; try contradiction;
          exact Done.
      * destruct (nonneg_float_cases 24 128 step Ns) as [[ss Es] | (ms & es & Es & Bs)].
        -- subst cur step. simpl SFsub. apply Keep; [exact Nc | apply Qle_refl].
        -- subst cur step.
           destruct (SFsub_finite 24 128 ltac:(lia) mc ec ms es)
             as [[Lt RP] | [[Eq Ez] | [Lt Np]]].
           ++ destruct (rp_upper _ _ _ _ RP mc ec Bc) as [Nx Ux].
              { simpl B2Q. pose proof (F2Q_pos (Zpos ms) es ltac:(lia)). lra. }
              apply Keep; [exact Nx | exact Ux].
           ++ rewrite Ez. apply Keep; [exact I |]. simpl B2Q at 1. lra.
           ++ destruct (SFltb_nonpos_l _ tgt Np Nt) as [Hlt | [s Hz]].
              ** rewrite Hlt. exact Done.
              ** rewrite Hz. apply Keep; [exact I |]. simpl B2Q at 1. lra.
    + (* already at the target *)
      split; [exact Nc |].
      assert (A1 : ~ (B2Q cur < B2Q tgt)%Q) by (intros H; apply Lct in H; discriminate).
      assert (A2 : ~ (B2Q tgt < B2Q cur)%Q) by (intros H; apply Ltc in H; discriminate).
      left. rewrite Vt in *. repeat split; lra.
Qed.

(** When the exact move would reach or pass the target, the clamp lands
    exactly on it. *)
Lemma smooth_reaches (cur : spec_float) (target : Z) (step : spec_float) :
  nonneg_float 24 128 cur -> 0 <= target <= 255 -> nonneg_float 24 128 step ->
  ((B2Q cur <= inject_Z target)%Q /\ (inject_Z target <= B2Q cur + B2Q step)%Q) \/
  ((inject_Z target <= B2Q cur)%Q /\ (B2Q cur - B2Q step <= inject_Z target)%Q) ->
  B2Q (Demo.smooth cur target step) == inject_Z target.
Proof.
  intros Nc Rt Ns Reach.
  destruct (B32_of_uint8 target Rt) as [Nt Vt].
  unfold Demo.smooth, B32.ltb, B32.add, B32.sub, B32.prec, B32.emax.
  set (tgt := B32.of_Z target) in *.
  pose proof (SFltb_nonneg 24 128 ltac:(lia) cur tgt Nc Nt) as Lct.
  pose proof (SFltb_nonneg 24 128 ltac:(lia) tgt cur Nt Nc) as Ltc.
  pose proof (nonneg_float_B2Q 24 128 tgt Nt) as T0.
  pose proof (nonneg_float_B2Q 24 128 cur Nc) as C0.
  pose proof (nonneg_float_B2Q 24 128 step Ns) as S0.
  destruct (SFltb cur tgt) eqn:E1.
  - (* moving up *)
    assert (Lt : (B2Q cur < B2Q tgt)%Q) by (now apply Lct).
    assert (Up : (B2Q tgt <= B2Q cur + B2Q step)%Q)
      by (rewrite Vt in *; destruct Reach as [[_ H] | [H _]]; lra).
    assert (Clamp : forall x, nonneg_float 24 128 x -> (B2Q tgt <= B2Q x)%Q ->
              B2Q (if SFltb tgt x then tgt else x) == inject_Z target).
    { intros x Nx Lx.
      pose proof (SFltb_nonneg 24 128 ltac:(lia) tgt x Nt Nx) as Ltx.
      destruct (SFltb tgt x) eqn:E2; [exact Vt |].
      assert (~ (B2Q tgt < B2Q x)%Q) by (intros H; apply Ltx in H; discriminate).
      rewrite <- Vt. lra. }
    destruct (nonneg_float_pos 24 128 tgt Nt ltac:(lra)) as (mt & et & Et & Bt).
    destruct (nonneg_float_cases 24 128 cur Nc) as [[sc Ec] | (mc & ec & Ec & Bc)];
      destruct (nonneg_float_cases 24 128 step Ns) as [[ss Es] | (ms & es & Es & Bs)].
    + subst cur step. simpl B2Q in *. lra.
    + subst cur step. simpl SFadd. apply Clamp; [exact Ns |]. simpl B2Q in *. lra.
    + subst cur step. simpl B2Q in *. lra.
    + subst cur step.
      pose proof (SFadd_finite_rounds_pos 24 128 ltac:(lia) mc ec ms es) as RP.
      destruct (bounded_canonical 24 128 mt et Bt) as [Ct _].
      destruct (rp_class _ _ _ _ RP) as [Inf | Nx].
      * rewrite Inf, (SFltb_inf_r tgt Nt). exact Vt.
      * apply Clamp; [exact Nx |].
        destruct (rp_lower _ _ _ _ RP mt et Ct) as [Inf | Lx].
        -- rewrite Et in Up. simpl B2Q in Up |- *. exact Up.
        -- rewrite Inf in Nx. contradiction.
        -- rewrite Et. exact Lx.
  - destruct (SFltb tgt cur) eqn:E2.
    + (* moving down *)
      assert (Gt : (B2Q tgt < B2Q cur)%Q) by (now apply Ltc).
      assert (Dn : (B2Q cur - B2Q step <= B2Q tgt)%Q)
        by (rewrite Vt in *; destruct Reach as [[H _] | [_ H]]; lra).
      assert (Clamp : forall x, nonneg_float 24 128 x -> (B2Q x <= B2Q tgt)%Q ->
                B2Q (if SFltb x tgt then tgt else x) == inject_Z target).
      { intros x Nx Lx.
        pose proof (SFltb_nonneg 24 128 ltac:(lia) x tgt Nx Nt) as Lxt.
        destruct (SFltb x tgt) eqn:E3; [exact Vt |].
        assert (~ (B2Q x < B2Q tgt)%Q) by (intros H; apply Lxt in H; discriminate).
        rewrite <- Vt. lra. }
      destruct (nonneg_float_pos 24 128 cur Nc ltac:(lra)) as (mc & ec & Ec & Bc).
      destruct (nonneg_float_cases 24 128 step Ns) as [[ss Es] | (ms & es & Es & Bs)].
      * subst cur step. simpl B2Q in *. lra.
      * subst cur step.
        destruct (SFsub_finite 24 128 ltac:(lia) mc ec ms es)
          as [[Lt RP] | [[Eq Ez] | [Lt Np]]].
        -- assert (Tp : (0 < B2Q tgt)%Q) by lra.
           destruct (nonneg_float_pos 24 128 tgt Nt Tp) as (mt & et & Et & Bt).
           destruct (rp_upper _ _ _ _ RP mt et Bt) as [Nx Ux].
           { rewrite Et in Dn. simpl B2Q in Dn |- *. exact Dn. }
           apply Clamp; [exact Nx |]. rewrite Et. exact Ux.
        -- rewrite Ez. apply Clamp; [exact I |]. simpl B2Q at 1. lra.
        -- destruct (SFltb_nonpos_l _ tgt Np Nt) as [Hlt | [s Hz]].
           ++ rewrite Hlt. exact Vt.
           ++ rewrite Hz. apply Clamp; [exact I |]. simpl B2Q at 1. lra.
    + (* already at the target *)
      assert (A1 : ~ (B2Q cur < B2Q tgt)%Q) by (intros H; apply Lct in H; discriminate).
      assert (A2 : ~ (B2Q tgt < B2Q cur)%Q) by (intros H; apply Ltc in H; discriminate).
      rewrite <- Vt. lra.
Qed.

Lemma Qabs_diff_le (a b t : Q) :
  ((a <= t /\ a <= b /\ b <= t) \/ (t <= a /\ t <= b /\ b <= a))%Q ->
  (Qabs (b - t) <= Qabs (a - t))%Q.
Proof.
  intros [(H1 & H2 & H3) | (H1 & H2 & H3)].
  - rewrite (Qabs_neg (b - t)), (Qabs_neg (a - t)) by lra. lra.
  - rewrite (Qabs_pos (b - t)), (Qabs_pos (a - t)) by lra. lra.
Qed.

(** C4.  One call of [updateBrightnessSmoothly], whatever time has elapsed,
    moves [currentBrightnessPrecise] no farther from [targetBrightness] than
    it was: the new value lies between the old one and the target, so it
    never passes the target; a value equal to the target stays there, and
    whenever the step is large enough to reach or pass the target the new
    value is exactly the target. *)
Theorem demo_brightness_never_overshoots (now : Z) (st : Demo.state) :
  nonneg_float 24 128 (Demo.currentBrightnessPrecise st) ->
  (B2Q (Demo.currentBrightnessPrecise st) <= 255)%Q ->
  0 <= Demo.targetBrightness st <= 255 ->
  let step := Demo.brightness_step (CInt.u32 (now - Demo.lastBrightUpdate st)) in
  let before := B2Q (Demo.currentBrightnessPrecise st) in
  let after :=
    B2Q (Demo.currentBrightnessPrecise (Demo.updateBrightnessSmoothly now st)) in
  let target := inject_Z (Demo.targetBrightness st) in
  (Qabs (after - target) <= Qabs (before - target))%Q /\
  ((before <= target -> before <= after /\ after <= target)%Q) /\
  ((target <= before -> target <= after /\ after <= before)%Q) /\
  (before == target -> after == target) /\
  nonneg_float 24 128
    (Demo.currentBrightnessPrecise (Demo.updateBrightnessSmoothly now st)) /\
  (0 <= after /\ after <= 255)%Q /\
  nonneg_float 24 128 step /\
  ((before <= target /\ target <= before + B2Q step)%Q -> after == target) /\
  ((target <= before /\ before - B2Q step <= target)%Q -> after == target).
Proof.
  intros Nc Uc Rt step before after target.
  assert (Rdt : 0 <= CInt.u32 (now - Demo.lastBrightUpdate st) < 2 ^ 32)
    by (apply Z.mod_pos_bound; lia).
  pose proof (brightness_step_finite _ Rdt) as Ns. fold step in Ns.
  pose proof (smooth_reaches _ _ _ Nc Rt Ns) as Reach.
  destruct (smooth_between _ _ _ Nc Rt (or_intror Ns)) as [Na B].
  unfold step in Reach, Na, B.
  change (Demo.smooth (Demo.currentBrightnessPrecise st) (Demo.targetBrightness st)
            (Demo.brightness_step (CInt.u32 (now - Demo.lastBrightUpdate st))))
    with (Demo.currentBrightnessPrecise (Demo.updateBrightnessSmoothly now st)) in Reach.
  fold step before after target in Reach.
  change (Demo.smooth (Demo.currentBrightnessPrecise st) (Demo.targetBrightness st)
            (Demo.brightness_step (CInt.u32 (now - Demo.lastBrightUpdate st))))
    with (Demo.currentBrightnessPrecise (Demo.updateBrightnessSmoothly now st)) in Na, B.
  fold before after target in B.
  pose proof (nonneg_float_B2Q 24 128 _ Na) as A0. fold after in A0.
  assert (T255 : (target <= 255)%Q).
  { unfold target. change 255%Q with (inject_Z 255). rewrite <- Zle_Qle. lia. }
  fold before in Uc.
  split; [apply Qabs_diff_le; exact B |].
  split; [intros H; destruct B as [B | B]; split; lra |].
  split; [intros H; destruct B as [B | B]; split; lra |].
  split; [intros H; destruct B as [B | B]; lra |].
  split; [exact Na |].
  split; [destruct B as [B | B]; split; lra |].
  split; [exact Ns |].
  split; intros H; apply Reach; [left | right]; exact H.
Qed.

Lemma demo_brightness_never_overshoots_witness :
  let st := Demo.mkState 0 0 0 Demo.COLOR_NIGHT Demo.COLOR_NIGHT Demo.COLOR_NIGHT
              "NIGHT" 100 (B32.of_Z 255) 255 (repeat (mkRGB 0 0 0) Demo.LED_COUNT) in
  (Qabs (B2Q (Demo.currentBrightnessPrecise (Demo.updateBrightnessSmoothly 50 st))
         - inject_Z 100)
   <= Qabs (B2Q (Demo.currentBrightnessPrecise st) - inject_Z 100))%Q.
Proof.
  intros st.
  assert (N : nonneg_float 24 128 (Demo.currentBrightnessPrecise st))
    by (vm_compute; reflexivity).
  assert (U : (B2Q (Demo.currentBrightnessPrecise st) <= 255)%Q)
    by (vm_compute; discriminate).
  assert (R : 0 <= Demo.targetBrightness st <= 255) by (simpl; lia).
  exact (proj1 (demo_brightness_never_overshoots 50 st N U R)).
Defined.

(** ** The fade *)

Lemma bounded32_mantissa (m : positive) (e : Z) :
  bounded 24 128 m e = true -> Zpos m < 2 ^ 24 /\ -149 <= e <= 104.
Proof.
  intros B. destruct (bounded_canonical 24 128 m e B) as [C U].
  apply canonical_fexp in C. simpl Zdigits2 in C.
  pose proof (digits2_pos_bounds m) as [_ Um].
  assert (D : Zpos (digits2_pos m) <= 24) by (unfold fexp, emin in C; lia).
  assert (2 ^ Zpos (digits2_pos m) <= 2 ^ 24) by (apply Z.pow_le_mono_r; lia).
  unfold fexp, emin in C. lia.
Qed.

(** Every [float] is a [double]: the conversion is exact. *)
Lemma double_of_float_exact (x : spec_float) :
  nonneg_float 24 128 x ->
  nonneg_float 53 1024 (double_of_float x) /\ B2Q (double_of_float x) == B2Q x.
Proof.
  intros N.
  destruct (nonneg_float_cases 24 128 x N) as [[s ->] | (m & e & -> & B)].
  - simpl. split; [exact I | reflexivity].
  - destruct (bounded32_mantissa m e B) as [Um Re].
    unfold double_of_float. simpl cond_Zopp. simpl B2Q at 2.
    apply (rounds_pos_representable 53 1024 ltac:(lia) _ _ (Zpos m) e).
    + apply (binary_normalize_pos 53 1024 ltac:(lia)).
    + reflexivity.
    + split; [lia |]. apply Z.lt_trans with (2 ^ 24); [exact Um | reflexivity].
    + unfold emin. lia.
Qed.

(** Truncation of a nonnegative float is the floor of its value. *)
Lemma SFtrunc_floor (prec emax : Z) (x : spec_float) :
  nonneg_float prec emax x -> SFtrunc x = Qfloor (B2Q x).
Proof.
  intros N.
  destruct (nonneg_float_cases prec emax x N) as [[s ->] | (m & e & -> & B)].
  - reflexivity.
  - simpl SFtrunc. simpl B2Q.
    set (z := Z.shiftl (Zpos m) e).
    assert (H : (inject_Z z <= F2Q (Zpos m) e)%Q /\ (F2Q (Zpos m) e < inject_Z (z + 1))%Q).
    { rewrite <- !F2Q_Z. unfold z.
      destruct (Z_le_gt_dec 0 e) as [P | Ng].
      - rewrite Z.shiftl_mul_pow2 by lia.
        rewrite (F2Q_align (Zpos m) e 0) by lia. rewrite Z.sub_0_r.
        split; [apply F2Q_le | apply F2Q_lt]; lia.
      - rewrite Z.shiftl_div_pow2 by lia.
        assert (P2 : 0 < 2 ^ (- e)) by (apply Z.pow_pos_nonneg; lia).
        pose proof (Z.div_mod (Zpos m) (2 ^ (- e)) ltac:(lia)) as DM.
        pose proof (Z.mod_pos_bound (Zpos m) (2 ^ (- e)) P2) as MB.
        rewrite (F2Q_align (Zpos m / 2 ^ (- e)) 0 e) by lia.
        rewrite (F2Q_align (Zpos m / 2 ^ (- e) + 1) 0 e) by lia.
        change (0 - e) with (- e).
        split; [apply F2Q_le | apply F2Q_lt]; nia. }
    destruct H as [L U].
    pose proof (Qfloor_le (F2Q (Zpos m) e)) as FL.
    pose proof (Qlt_floor (F2Q (Zpos m) e)) as FU.
    assert (A : z < Qfloor (F2Q (Zpos m) e) + 1).
    { rewrite Zlt_Qlt. eapply Qle_lt_trans; [exact L | exact FU]. }
    assert (A' : Qfloor (F2Q (Zpos m) e) < z + 1).
    { rewrite Zlt_Qlt. eapply Qle_lt_trans; [exact FL | exact U]. }
    lia.
Qed.

Lemma to_uint8_floor (prec emax : Z) (x : spec_float) :
  nonneg_float prec emax x -> (B2Q x < 256)%Q ->
  to_uint8 x = Qfloor (B2Q x) /\ SFtrunc x = to_uint8 x /\ 0 <= to_uint8 x <= 255.
Proof.
  intros N U. unfold to_uint8, CInt.u8.
  rewrite (SFtrunc_floor prec emax x N).
  pose proof (nonneg_float_B2Q prec emax x N) as P.
  assert (L : 0 <= Qfloor (B2Q x)).
  { change 0 with (Qfloor (inject_Z 0)). apply Qfloor_resp_le. exact P. }
  assert (H : Qfloor (B2Q x) < 256).
  { rewrite Zlt_Qlt. eapply Qle_lt_trans; [apply Qfloor_le | exact U]. }
  change (2 ^ 8) with 256. rewrite Z.mod_small by lia. lia.
Qed.

(** The floating-point interpolation is within [2^-15] of the exact
    interpolation at the same factor.  The error comes from the four
    roundings; the largest is the single-precision product. *)
Lemma fade_value_error (s e : Z) (f : spec_float) :
  0 <= s <= 255 -> 0 <= e <= 255 ->
  nonneg_float 24 128 f -> (B2Q f <= 1)%Q ->
  nonneg_float 53 1024 (fade_value s e f) /\
  (inject_Z s * (1 - B2Q f) + inject_Z e * B2Q f - (1 # 32768)
   <= B2Q (fade_value s e f))%Q /\
  (B2Q (fade_value s e f)
   <= inject_Z s * (1 - B2Q f) + inject_Z e * B2Q f + (1 # 32768))%Q.
Proof.
  intros Rs Re Nf Uf.
  pose proof (nonneg_float_B2Q 24 128 f Nf) as Pf.
  assert (Rs' : (0 <= inject_Z s <= 255)%Q).
  { change 0%Q with (inject_Z 0). change 255%Q with (inject_Z 255).
    rewrite <- !Zle_Qle. lia. }
  assert (Re' : (0 <= inject_Z e <= 255)%Q).
  { change 0%Q with (inject_Z 0). change 255%Q with (inject_Z 255).
    rewrite <- !Zle_Qle. lia. }
  unfold fade_value, B64.add, B64.mul, B64.sub, B64.of_Z, B32.mul, B32.of_Z,
    B64.prec, B64.emax, B32.prec, B32.emax.
  (* the operands *)
  destruct (of_Z_exact 53 1024 ltac:(lia) 1 ltac:(split; [lia | reflexivity]))
    as [N1 V1].
  destruct (of_Z_exact 53 1024 ltac:(lia) s) as [Ns Vs].
  { split; [lia |]. apply Z.le_lt_trans with 255; [lia | reflexivity]. }
  destruct (of_Z_exact 24 128 ltac:(lia) e) as [Ne Ve].
  { split; [lia |]. apply Z.le_lt_trans with 255; [lia | reflexivity]. }
  change (inject_Z 1) with 1%Q in V1.
  destruct (double_of_float_exact f Nf) as [Nf64 Vf64].
  set (one := binary_normalize 53 1024 1 0 false) in *.
  set (s64 := binary_normalize 53 1024 s 0 false) in *.
  set (e32 := binary_normalize 24 128 e 0 false) in *.
  set (f64 := double_of_float f) in *.
  (* 1.0 - factor *)
  destruct (SFsub_nonneg_near 53 1024 ltac:(lia) one f64 1 N1 Nf64) as (Ng & Lg & Ug).
  { rewrite V1, Vf64. exact Uf. }
  { rewrite V1, Vf64. change (2 ^ 1)%Q with 2%Q. lra. }
  { unfold emin. lia. }
  set (g := SFsub 53 1024 one f64) in *.
  change (2 ^ (1 - 53))%Q with (2 ^ (-52))%Q in Lg, Ug.
  assert (E52 : (2 ^ (-52) == 1 # 4503599627370496)%Q) by reflexivity.
  rewrite E52, V1, Vf64 in Lg, Ug.
  pose proof (nonneg_float_B2Q 53 1024 g Ng) as Pg.
  (* startColor.c * (1.0 - factor) *)
  destruct (SFmul_nonneg_near 53 1024 ltac:(lia) s64 g 8 Ns Ng) as (Na & La & Ua).
  { rewrite Vs. change (2 ^ 8)%Q with 256%Q. nra. }
  { unfold emin. lia. }
  set (a := SFmul 53 1024 s64 g) in *.
  change (2 ^ (8 - 53))%Q with (2 ^ (-45))%Q in La, Ua.
  assert (E45 : (2 ^ (-45) == 1 # 35184372088832)%Q) by reflexivity.
  rewrite E45, Vs in La, Ua.
  (* endColor.c * factor, in single precision *)
  destruct (SFmul_nonneg_near 24 128 ltac:(lia) e32 f 8 Ne Nf) as (Nb & Lb & Ub).
  { rewrite Ve. change (2 ^ 8)%Q with 256%Q. nra. }
  { unfold emin. lia. }
  set (bf := SFmul 24 128 e32 f) in *.
  change (2 ^ (8 - 24))%Q with (2 ^ (-16))%Q in Lb, Ub.
  assert (E16 : (2 ^ (-16) == 1 # 65536)%Q) by reflexivity.
  rewrite E16, Ve in Lb, Ub.
  destruct (double_of_float_exact bf Nb) as [Nb64 Vb64].
  set (b64 := double_of_float bf) in *.
  (* the sum *)
  destruct (SFadd_nonneg_near 53 1024 ltac:(lia) a b64 9 Na Nb64) as (Nv & Lv & Uv).
  { rewrite Vb64. change (2 ^ 9)%Q with 512%Q. nra. }
  { unfold emin. lia. }
  change (2 ^ (9 - 53))%Q with (2 ^ (-44))%Q in Lv, Uv.
  assert (E44 : (2 ^ (-44) == 1 # 17592186044416)%Q) by reflexivity.
  rewrite E44, Vb64 in Lv, Uv.
  split; [exact Nv |]. split; nra.
Qed.

(** A [float] of value at least 1 is normal. *)
Lemma normal32 (m : positive) (e : Z) :
  bounded 24 128 m e = true -> (1 <= F2Q (Zpos m) e)%Q ->
  Zpos (digits2_pos m) = 24 /\ -23 <= e.
Proof.
  intros B L. destruct (bounded_canonical 24 128 m e B) as [C _].
  apply canonical_fexp in C. simpl Zdigits2 in C.
  destruct (F2Q_digits_bounds (Zpos m) e ltac:(lia)) as [_ U]. simpl Zdigits2 in U.
  assert (H : (2 ^ 0 < 2 ^ (Zpos (digits2_pos m) + e))%Q).
  { change (2 ^ 0)%Q with 1%Q. eapply Qle_lt_trans; eauto. }
  apply Qpow2_lt_inv in H. unfold fexp, emin in C. lia.
Qed.

Lemma SFdiv_core_normal32 (m1 : positive) (e1 : Z) (m2 : positive) (e2 : Z) :
  Zpos (digits2_pos m1) = 24 -> Zpos (digits2_pos m2) = 24 ->
  -149 <= e1 - e2 - 24 ->
  SFdiv_core_binary 24 128 (Zpos m1) e1 (Zpos m2) e2
  = (Zpos m1 * 2 ^ 24 / Zpos m2, e1 - e2 - 24,
     new_location (Zpos m2) ((Zpos m1 * 2 ^ 24) mod Zpos m2)).
Proof.
  intros D1 D2 L. unfold SFdiv_core_binary. simpl Zdigits2. rewrite D1, D2.
  replace (Z.min (fexp 24 128 (24 + e1 - (24 + e2))) (e1 - e2)) with (e1 - e2 - 24)
    by (unfold fexp, emin; lia).
  replace (e1 - e2 - (e1 - e2 - 24)) with 24 by lia.
  rewrite Z.shiftl_mul_pow2 by lia.
  unfold Z.div, Z.modulo.
  destruct (Z.div_eucl (Zpos m1 * 2 ^ 24) (Zpos m2)) as [q r]. reflexivity.
Qed.

(** The integer inequalities behind the accuracy of a rounded quotient. *)
Lemma quotient_bounds (m1 m2 qp rem pn q0 rq r : Z) :
  0 < m2 -> 0 < pn ->
  m1 * 16777216 = m2 * qp + rem -> 0 <= rem < m2 ->
  qp = pn * q0 + rq -> 0 <= rq < pn ->
  q0 <= r <= q0 + 1 ->
  m1 * 16777216 - m2 * pn <= r * m2 * pn /\
  r * m2 * pn <= m1 * 16777216 + m2 * pn.
Proof.
  intros P2 Pn DM MB DMq MBq R.
  assert (A1 : q0 * (m2 * pn) <= r * (m2 * pn)) by (apply Z.mul_le_mono_nonneg_r; nia).
  assert (A2 : r * (m2 * pn) <= (q0 + 1) * (m2 * pn)) by (apply Z.mul_le_mono_nonneg_r; nia).
  assert (A3 : m2 * rq <= m2 * (pn - 1)) by (apply Z.mul_le_mono_nonneg_l; lia).
  assert (A4 : 0 <= m2 * rq) by (apply Z.mul_nonneg_nonneg; lia).
  subst qp. split; lia.
Qed.

(** [factor = (float)timeElapsed / FADE_DURATION_MS] is a float in [[0,1]]
    within [2^-24] of the exact quotient. *)
Lemma fade_factor_spec (el D : Z) :
  0 <= el < D -> D < 2 ^ 24 ->
  nonneg_float 24 128 (fade_factor el D) /\
  (B2Q (fade_factor el D) <= 1)%Q /\
  (inject_Z el - inject_Z D * (1 # 16777216)
   <= B2Q (fade_factor el D) * inject_Z D)%Q /\
  (B2Q (fade_factor el D) * inject_Z D
   <= inject_Z el + inject_Z D * (1 # 16777216))%Q.
Proof.
  intros [L0 LD] UD.
  unfold fade_factor, B32.div, B32.of_Z, B32.prec, B32.emax.
  destruct (of_Z_exact 24 128 ltac:(lia) D ltac:(lia)) as [Ny Vy].
  destruct (of_Z_exact 24 128 ltac:(lia) el ltac:(lia)) as [Nx Vx].
  assert (PD : (0 < inject_Z D)%Q).
  { change 0%Q with (inject_Z 0). rewrite <- Zlt_Qlt. lia. }
  destruct (nonneg_float_pos 24 128 _ Ny) as (m2 & e2 & Ey & B2);
    [rewrite Vy; exact PD |].
  rewrite Ey in *. simpl B2Q in Vy.
  destruct (Z.eq_dec el 0) as [-> | Nz].
  - simpl. split; [exact I |]. split; [lra |].
    change (inject_Z 0) with 0%Q. split; lra.
  - assert (Pel : (1 <= inject_Z el)%Q).
    { change 1%Q with (inject_Z 1). rewrite <- Zle_Qle. lia. }
    assert (PelD : (inject_Z el < inject_Z D)%Q) by (rewrite <- Zlt_Qlt; lia).
    destruct (nonneg_float_pos 24 128 _ Nx) as (m1 & e1 & Ex & B1);
      [rewrite Vx; lra |].
    rewrite Ex in *. simpl B2Q in Vx.
    destruct (normal32 m1 e1 B1) as [D1 L1]; [rewrite Vx; exact Pel |].
    destruct (normal32 m2 e2 B2) as [D2 L2]; [rewrite Vy; lra |].
    destruct (bounded_canonical 24 128 m1 e1 B1) as [C1 _].
    destruct (bounded_canonical 24 128 m2 e2 B2) as [C2 _].
    assert (E12 : e1 <= e2).
    { apply (canonical_exp_le 24 128 m1 e1 m2 e2 C1 C2). rewrite Vx, Vy. lra. }
    assert (E20 : e2 <= 0).
    { destruct (F2Q_digits_bounds (Zpos m2) e2 ltac:(lia)) as [Lb _].
      simpl Zdigits2 in Lb. rewrite D2 in Lb.
      assert (H : (2 ^ (24 + e2 - 1) < 2 ^ 24)%Q).
      { eapply Qle_lt_trans; [exact Lb |]. rewrite Vy.
        rewrite (Qpow2_Z 24) by lia. rewrite <- Zlt_Qlt. exact UD. }
      apply Qpow2_lt_inv in H. lia. }
    pose proof (digits2_pos_bounds m1) as [Lm1 Um1]. rewrite D1 in Lm1, Um1.
    pose proof (digits2_pos_bounds m2) as [Lm2 Um2]. rewrite D2 in Lm2, Um2.
    change (2 ^ (24 - 1)) with 8388608 in Lm1, Lm2.
    change (2 ^ 24) with 16777216 in Um1, Um2.
    assert (M12 : Zpos m1 < Zpos m2 * 2 ^ (e2 - e1)).
    { apply (F2Q_lt _ _ e1). rewrite <- F2Q_align by lia. rewrite Vx, Vy. exact PelD. }
    unfold SFdiv. rewrite SFdiv_core_normal32 by lia. simpl xorb.
    set (e' := e1 - e2 - 24).
    set (loc := new_location (Zpos m2) ((Zpos m1 * 2 ^ 24) mod Zpos m2)).
    pose proof (Z.div_mod (Zpos m1 * 2 ^ 24) (Zpos m2) ltac:(lia)) as DM.
    pose proof (Z.mod_pos_bound (Zpos m1 * 2 ^ 24) (Zpos m2) ltac:(lia)) as MB.
    remember (Zpos m1 * 2 ^ 24 / Zpos m2) as q eqn:Eq.
    change (2 ^ 24) with 16777216 in DM, MB.
    assert (Q1 : 8388608 <= q) by nia.
    assert (Q2 : q < 33554432) by nia.
    assert (P21 : 0 < 2 ^ (e2 - e1)) by (apply Z.pow_pos_nonneg; lia).
    assert (Q3 : q < 2 ^ (- e')).
    { unfold e'. replace (- (e1 - e2 - 24)) with ((e2 - e1) + 24) by lia.
      rewrite Z.pow_add_r by lia. change (2 ^ 24) with 16777216. nia. }
    destruct q as [| qp | qp]; try lia.
    pose proof (digits2_pos_bounds qp) as [Lq Uq].
    set (dq := Zpos (digits2_pos qp)) in *.
    assert (Dq1 : 24 <= dq).
    { destruct (Z_le_gt_dec 24 dq) as [|G]; [assumption | exfalso].
      assert (2 ^ dq <= 2 ^ 23) by (apply Z.pow_le_mono_r; unfold dq; lia).
      change (2 ^ 23) with 8388608 in *. lia. }
    assert (Dq2 : dq <= 25).
    { destruct (Z_le_gt_dec dq 25) as [|G]; [assumption | exfalso].
      assert (2 ^ 25 <= 2 ^ (dq - 1)) by (apply Z.pow_le_mono_r; lia).
      change (2 ^ 25) with 33554432 in *. lia. }
    assert (Dq3 : dq <= - e').
    { destruct (Z_le_gt_dec dq (- e')) as [|G]; [assumption | exfalso].
      assert (2 ^ (- e') <= 2 ^ (dq - 1)) by (apply Z.pow_le_mono_r; unfold e'; lia).
      lia. }
    assert (EE : fexp 24 128 (dq + e') = dq + e' - 24)
      by (unfold fexp, emin, e'; lia).
    destruct (binary_round_aux_aligned 24 128 ltac:(lia) false qp e' loc)
      as (r & R & _ & RT).
    { fold dq. rewrite EE. lia. }
    fold dq in R, RT. rewrite EE in R, RT.
    replace (dq + e' - 24 - e') with (dq - 24) in R by lia.
    set (E := dq + e' - 24) in *.
    set (n := dq - 24) in *.
    assert (Pn : 0 < 2 ^ n) by (apply Z.pow_pos_nonneg; unfold n; lia).
    assert (Un : 2 ^ n <= 2).
    { change 2 with (2 ^ 1) at 2. apply Z.pow_le_mono_r; unfold n; lia. }
    pose proof (Z.div_mod (Zpos qp) (2 ^ n) ltac:(lia)) as DMq.
    pose proof (Z.mod_pos_bound (Zpos qp) (2 ^ n) Pn) as MBq.
    set (q0 := Zpos qp / 2 ^ n) in *.
    assert (Q0 : 1 <= q0) by nia.
    assert (Q0' : q0 + 1 <= 2 ^ (- E)).
    { assert (H : q0 < 2 ^ (- E)); [| lia].
      apply Z.div_lt_upper_bound; [lia |].
      rewrite <- Z.pow_add_r by (unfold n, E; lia).
      replace (n + - E) with (- e') by (unfold n, E; lia). exact Q3. }
    (* the two integer bounds behind the accuracy of the quotient *)
    destruct (quotient_bounds (Zpos m1) (Zpos m2) (Zpos qp)
                ((Zpos m1 * 16777216) mod Zpos m2) (2 ^ n) q0 (Zpos qp mod 2 ^ n) r)
      as [Zlo Zhi]; try assumption; try lia.
    assert (Vr : forall (m : positive) (e : Z),
               Zpos m * 2 ^ (e - E) = r -> E <= e ->
               F2Q (Zpos m) e == F2Q r E).
    { intros m e Hm He. rewrite (F2Q_align (Zpos m) e E) by lia. now rewrite Hm. }
    inversion RT as [Hr Hx | m e Pr Hm He Cm Be Hx | m e Pr Hm He Cm Be Hx].
    + exfalso. lia.
    + assert (Vf : F2Q (Zpos m) e == F2Q r E) by (now apply Vr).
      split; [simpl; unfold bounded; rewrite Cm; now apply Z.leb_le |].
      simpl B2Q. rewrite Vf.
      assert (F1 : (F2Q r E <= 1)%Q).
      { apply Qle_trans with (F2Q (2 ^ (- E)) E); [apply F2Q_le; lia |].
        rewrite <- (Z.mul_1_l (2 ^ (- E))), F2Q_shift by (unfold E; lia).
        replace (E + - E) with 0 by lia. rewrite F2Q_1. apply Qle_refl. }
      split; [exact F1 |].
      assert (VD : F2Q r E * inject_Z D == F2Q (r * Zpos m2 * 2 ^ n) (e' + e2)).
      { rewrite <- Vy, F2Q_mult, (F2Q_align (r * Zpos m2) (E + e2) (e' + e2))
          by (unfold E; lia).
        replace (E + e2 - (e' + e2)) with n by (unfold E, n; lia). reflexivity. }
      assert (Vel : inject_Z el == F2Q (Zpos m1 * 16777216) (e' + e2)).
      { rewrite <- Vx, (F2Q_align (Zpos m1) e1 (e' + e2)) by (unfold e'; lia).
        replace (e1 - (e' + e2)) with 24 by (unfold e'; lia). reflexivity. }
      assert (Vulp : (F2Q (Zpos m2 * 2 ^ n) (e' + e2)
                      <= inject_Z D * (1 # 16777216))%Q).
      { rewrite F2Q_shift by (unfold n; lia).
        replace (e' + e2 + n) with (e2 + E) by (unfold E, n; lia).
        rewrite <- (Z.mul_1_r (Zpos m2)), <- F2Q_mult, Vy, F2Q_1.
        apply Qmult_le_l; [exact PD |].
        apply Qle_trans with (2 ^ (-24))%Q; [apply Qpow2_le; unfold E; lia |].
        apply Qle_refl. }
      rewrite VD, Vel.
      assert (Wlo : (F2Q (Zpos m1 * 16777216 - Zpos m2 * 2 ^ n) (e' + e2)
                     <= F2Q (r * Zpos m2 * 2 ^ n) (e' + e2))%Q) by (now apply F2Q_le).
      assert (Whi : (F2Q (r * Zpos m2 * 2 ^ n) (e' + e2)
                     <= F2Q (Zpos m1 * 16777216 + Zpos m2 * 2 ^ n) (e' + e2))%Q)
        by (now apply F2Q_le).
      rewrite <- F2Q_minus in Wlo. rewrite <- F2Q_plus in Whi.
      split; lra.
    + exfalso.
      assert (H : e - E <= 25).
      { destruct (Z_le_gt_dec (e - E) 25) as [|G]; [assumption | exfalso].
        assert (H26 : 2 ^ 26 <= 2 ^ (e - E)) by (apply Z.pow_le_mono_r; lia).
        change (2 ^ 26) with 67108864 in H26.
        assert (Hr : 2 ^ (e - E) <= r).
        { rewrite <- Hm. rewrite <- (Z.mul_1_l (2 ^ (e - E))) at 1.
          apply Z.mul_le_mono_nonneg_r; lia. }
        assert (Hq : q0 <= Zpos qp).
        { unfold q0. apply Z.div_le_upper_bound; [lia |].
          rewrite <- (Z.mul_1_l (Zpos qp)) at 1.
          apply Z.mul_le_mono_nonneg_r; lia. }
        lia. }
      unfold E, e' in *. lia.
Qed.

Lemma inject_Z_range (n lo hi : Z) :
  lo <= n <= hi -> (inject_Z lo <= inject_Z n <= inject_Z hi)%Q.
Proof. intros [L U]. rewrite <- !Zle_Qle. split; assumption. Qed.

(** A convex combination of two channels stays between them. *)
Lemma interp_between (s e : Z) (F : Q) :
  (0 <= F <= 1)%Q ->
  (inject_Z (Z.min s e) <= inject_Z s * (1 - F) + inject_Z e * F)%Q /\
  (inject_Z s * (1 - F) + inject_Z e * F <= inject_Z (Z.max s e))%Q.
Proof.
  intros [F0 F1].
  pose proof (inject_Z_range (Z.min s e) (Z.min s e) s ltac:(lia)) as [_ A1].
  pose proof (inject_Z_range (Z.min s e) (Z.min s e) e ltac:(lia)) as [_ A2].
  pose proof (inject_Z_range s s (Z.max s e) ltac:(lia)) as [_ A3].
  pose proof (inject_Z_range e e (Z.max s e) ltac:(lia)) as [_ A4].
  revert A1 A2 A3 A4.
  generalize (inject_Z (Z.min s e)) (inject_Z (Z.max s e)) (inject_Z s) (inject_Z e).
  intros lo hi S E A1 A2 A3 A4. split; nra.
Qed.

(** The value [fade] computes for a channel is finite, within [2^-15] of the
    interval between the two channel values, and below 256: the conversion to
    [uint8_t] takes its integer part and cannot wrap. *)
Lemma fade_value_range (s e : Z) (f : spec_float) :
  0 <= s <= 255 -> 0 <= e <= 255 ->
  nonneg_float 24 128 f -> (B2Q f <= 1)%Q ->
  nonneg_float 53 1024 (fade_value s e f) /\
  (inject_Z (Z.min s e) - (1 # 32768) <= B2Q (fade_value s e f))%Q /\
  (B2Q (fade_value s e f) <= inject_Z (Z.max s e) + (1 # 32768))%Q /\
  (B2Q (fade_value s e f) < 256)%Q.
Proof.
  intros Rs Re Nf Uf.
  pose proof (nonneg_float_B2Q 24 128 f Nf) as Pf.
  destruct (fade_value_error s e f Rs Re Nf Uf) as (Nv & Lv & Uv).
  destruct (interp_between s e (B2Q f) (conj Pf Uf)) as [Lw Uw].
  pose proof (inject_Z_range (Z.max s e) 0 255 ltac:(lia)) as [_ M255].
  change (inject_Z 255) with 255%Q in M255.
  split; [exact Nv |]. repeat split; lra.
Qed.

(** C10, as stated, fails.  With both channels equal to 255 and the factor
    of 7 ms into the demo's 3000 ms fade (a float between 0 and 1), the
    interpolated value is below 255 = min(start,end), and the channel
    becomes 254. *)
Lemma fade_value_below_min :
  let factor := fade_factor 7 3000 in
  nonneg_float 24 128 factor /\ (0 <= B2Q factor)%Q /\ (B2Q factor <= 1)%Q /\
  ~ (inject_Z (Z.min 255 255) <= B2Q (fade_value 255 255 factor))%Q /\
  fade_channel 255 255 factor = 254.
Proof.
  vm_compute. repeat split; try discriminate. intros H. apply H. reflexivity.
Qed.

(** C10, amended.  For all channel values in 0..255 and every [float]
    factor in [[0,1]], the value [fade] computes is finite, lies within
    [2^-15] of the interval between the two channel values, and so is at
    least 0 and below 256: the conversion to [uint8_t] never wraps, it
    gives the integer part, which is at least [min(start,end) - 1] and at
    most [max(start,end)]. *)
Theorem fade_cast_never_wraps (s e : Z) (factor : spec_float) :
  0 <= s <= 255 -> 0 <= e <= 255 ->
  nonneg_float 24 128 factor -> (B2Q factor <= 1)%Q ->
  let v := fade_value s e factor in
  nonneg_float 53 1024 v /\
  (inject_Z (Z.min s e) - (1 # 32768) <= B2Q v)%Q /\
  (B2Q v <= inject_Z (Z.max s e) + (1 # 32768))%Q /\
  (0 <= B2Q v)%Q /\ (B2Q v < 256)%Q /\
  fade_channel s e factor = SFtrunc v /\
  fade_channel s e factor = Qfloor (B2Q v) /\
  Z.min s e - 1 <= fade_channel s e factor <= Z.max s e.
Proof.
  intros Rs Re Nf Uf v.
  destruct (fade_value_range s e factor Rs Re Nf Uf) as (Nv & Lv & Uv & U256).
  fold v in Nv, Lv, Uv, U256.
  destruct (to_uint8_floor 53 1024 v Nv U256) as (Fl & Tr & Rg).
  change (to_uint8 v) with (fade_channel s e factor) in Fl, Tr, Rg.
  split; [exact Nv |]. split; [exact Lv |]. split; [exact Uv |].
  split; [now apply (nonneg_float_B2Q 53 1024) |]. split; [exact U256 |].
  split; [now symmetry |]. split; [exact Fl |].
  rewrite Fl. split.
  - replace (Z.min s e - 1) with (Qfloor (inject_Z (Z.min s e - 1)))
      by apply Qfloor_Z.
    apply Qfloor_resp_le.
    unfold Z.sub. rewrite inject_Z_plus, inject_Z_opp.
    change (inject_Z 1) with 1%Q. lra.
  - assert (H : Qfloor (B2Q v) < Z.max s e + 1); [| lia].
    rewrite Zlt_Qlt. eapply Qle_lt_trans; [apply Qfloor_le |].
    rewrite inject_Z_plus. change (inject_Z 1) with 1%Q. lra.
Qed.

Lemma fade_cast_never_wraps_witness :
  fade_channel 255 255 (fade_factor 7 3000)
  = SFtrunc (fade_value 255 255 (fade_factor 7 3000)) /\
  Z.min 255 255 - 1 <= fade_channel 255 255 (fade_factor 7 3000) <= Z.max 255 255.
Proof.
  assert (H := fade_cast_never_wraps 255 255 (fade_factor 7 3000)).
  destruct H as (_ & _ & _ & _ & _ & H1 & _ & H2).
  - lia.
  - lia.
  - vm_compute. reflexivity.
  - vm_compute. discriminate.
  - split; assumption.
Defined.

(** One channel during a fade in progress. *)
Lemma fade_channel_spec (D el s e : Z) :
  0 <= el < D -> D < 2 ^ 24 -> 0 <= s <= 255 -> 0 <= e <= 255 ->
  fade_channel_truncates D el s e (fade_channel s e (fade_factor el D)).
Proof.
  intros Rel UD Rs Re. unfold fade_channel_truncates.
  destruct (fade_factor_spec el D Rel UD) as (Nf & Uf & Lacc & Uacc).
  set (f := fade_factor el D) in *.
  pose proof (nonneg_float_B2Q 24 128 f Nf) as Pf.
  destruct (fade_value_error s e f Rs Re Nf Uf) as (Nv & Lv & Uv).
  destruct (fade_value_range s e f Rs Re Nf Uf) as (_ & _ & _ & U256).
  destruct (to_uint8_floor 53 1024 _ Nv U256) as (Fl & _ & Rg).
  change (to_uint8 (fade_value s e f)) with (fade_channel s e f) in Fl, Rg.
  split; [exact Nv |]. split; [exact Fl |]. split; [| exact Rg].
  (* distance to the exact interpolation *)
  assert (PD : (0 < inject_Z D)%Q).
  { change 0%Q with (inject_Z 0). rewrite <- Zlt_Qlt. lia. }
  assert (X : spec_interp s e el D * inject_Z D
              == inject_Z s * (inject_Z D - inject_Z el) + inject_Z e * inject_Z el).
  { unfold spec_interp.
    rewrite Qmult_comm, Qmult_div_r by (intros H; rewrite H in PD; revert PD; apply Qlt_irrefl).
    rewrite inject_Z_plus, !inject_Z_mult. unfold Z.sub.
    rewrite inject_Z_plus, inject_Z_opp. ring. }
  pose proof (inject_Z_range s 0 255 Rs) as [S0 S255].
  pose proof (inject_Z_range e 0 255 Re) as [E0 E255].
  change (inject_Z 0) with 0%Q in S0, E0.
  change (inject_Z 255) with 255%Q in S255, E255.
  revert X Lacc Uacc Lv Uv PD S0 S255 E0 E255 Pf Uf.
  generalize (B2Q (fade_value s e f)) (B2Q f) (spec_interp s e el D)
    (inject_Z s) (inject_Z e) (inject_Z el) (inject_Z D).
  intros V F X S E EL DD HX Lacc Uacc Lv Uv PD S0 S255 E0 E255 Pf Uf.
  (* the exact interpolation at the rounded factor *)
  set (W := (S * (1 - F) + E * F)%Q).
  assert (K : ((W - X) * DD == (E - S) * (F * DD - EL))%Q).
  { unfold W. transitivity ((S * (1 - F) + E * F) * DD - X * DD)%Q; [ring |].
    rewrite HX. ring. }
  assert (K1 : ((E - S) * (F * DD - EL) <= 255 * (DD * (1 # 16777216)))%Q) by nra.
  assert (K2 : (- (255 * (DD * (1 # 16777216))) <= (E - S) * (F * DD - EL))%Q) by nra.
  rewrite <- K in K1, K2.
  assert (B1 : (W - X <= 1 # 32768)%Q).
  { apply (Qmult_le_r _ _ DD PD). lra. }
  assert (B2 : (- (1 # 32768) <= W - X)%Q).
  { apply (Qmult_le_r _ _ DD PD). lra. }
  apply Qabs_Qle_condition. fold W in Lv, Uv. split; lra.
Qed.

Lemma fade_color_in_progress (D el : Z) (startColor endColor : RGBColor) :
  0 <= el < D -> D < 2 ^ 24 ->
  RGBColor_ok startColor -> RGBColor_ok endColor ->
  fade_channel_truncates D el (r startColor) (r endColor)
    (r (fade_color D el startColor endColor)) /\
  fade_channel_truncates D el (g startColor) (g endColor)
    (g (fade_color D el startColor endColor)) /\
  fade_channel_truncates D el (b startColor) (b endColor)
    (b (fade_color D el startColor endColor)).
Proof.
  intros Rel UD (Sr & Sg & Sb) (Er & Eg & Eb). unfold fade_color.
  destruct (Z.ltb_spec el D) as [_ | Ge]; [| lia]. simpl r; simpl g; simpl b.
  repeat split; apply fade_channel_spec; assumption.
Qed.

(** C1, as stated, fails: a third of the way from 0 to 1 in the demo (2000 ms
    of 3000 ms) the exact interpolation is 2/3, which rounds to 1, and [fade]
    stores 0. *)
Lemma fade_does_not_round :
  let st := Demo.mkState 0 0 0 (mkRGB 0 0 0) (mkRGB 0 0 0) (mkRGB 1 1 1)
              "DAYTIME" 255 (B32.of_Z 255) 255 [] in
  CInt.u32 (2000 - Demo.fadeStartTime st) = 2000 /\
  2000 < Demo.FADE_DURATION_MS /\
  spec_round (spec_interp 0 1 2000 3000) = 1 /\
  r (Demo.currentColor (Demo.fade 2000 st)) = 0 /\
  r (Demo.currentColor (Demo.fade 2000 st)) <> spec_round (spec_interp 0 1 2000 3000).
Proof. vm_compute. repeat split; discriminate. Qed.

(** C1, amended.  While a fade is in progress ([elapsed < FADE_DURATION_MS]),
    [fade] sets each channel of [currentColor], independently of the other
    two, to the integer part (not the rounding) of the floating-point value
    of [start*(1-f) + end*f]; that value is within [2^-14] of the exact
    interpolation at [elapsed/duration]. *)
Theorem fade_in_progress_truncates :
  (forall now st,
      RGBColor_ok (Demo.startColor st) -> RGBColor_ok (Demo.endColor st) ->
      CInt.u32 (now - Demo.fadeStartTime st) < Demo.FADE_DURATION_MS ->
      let elapsed := CInt.u32 (now - Demo.fadeStartTime st) in
      let c := Demo.currentColor (Demo.fade now st) in
      fade_channel_truncates Demo.FADE_DURATION_MS elapsed
        (r (Demo.startColor st)) (r (Demo.endColor st)) (r c) /\
      fade_channel_truncates Demo.FADE_DURATION_MS elapsed
        (g (Demo.startColor st)) (g (Demo.endColor st)) (g c) /\
      fade_channel_truncates Demo.FADE_DURATION_MS elapsed
        (b (Demo.startColor st)) (b (Demo.endColor st)) (b c)) /\
  (forall now st,
      RGBColor_ok (Live.startColor st) -> RGBColor_ok (Live.endColor st) ->
      CInt.u32 (now - Live.fadeStartTime st) < Live.FADE_DURATION_MS ->
      let elapsed := CInt.u32 (now - Live.fadeStartTime st) in
      let c := Live.currentColor (Live.fade now st) in
      fade_channel_truncates Live.FADE_DURATION_MS elapsed
        (r (Live.startColor st)) (r (Live.endColor st)) (r c) /\
      fade_channel_truncates Live.FADE_DURATION_MS elapsed
        (g (Live.startColor st)) (g (Live.endColor st)) (g c) /\
      fade_channel_truncates Live.FADE_DURATION_MS elapsed
        (b (Live.startColor st)) (b (Live.endColor st)) (b c)).
Proof.
  split; intros now st Hs He Hel elapsed c; unfold c; simpl;
    apply fade_color_in_progress; trivial.
  - split; [apply Z.mod_pos_bound; lia | exact Hel].
  - reflexivity.
  - split; [apply Z.mod_pos_bound; lia | exact Hel].
  - reflexivity.
Qed.

Lemma fade_in_progress_truncates_witness :
  let st := Demo.mkState 0 0 0 (mkRGB 0 0 0) (mkRGB 0 0 0) (mkRGB 1 1 1)
              "DAYTIME" 255 (B32.of_Z 255) 255 [] in
  fade_channel_truncates 3000 2000 0 1 (r (Demo.currentColor (Demo.fade 2000 st))).
Proof.
  intros st.
  apply (proj1 fade_in_progress_truncates 2000 st).
  - unfold RGBColor_ok. simpl. lia.
  - unfold RGBColor_ok. simpl. lia.
  - vm_compute. reflexivity.
Defined.

(** ** Applying the brightness to the strip *)

(** The mode and sensor parts of the demo [loop()] leave the smoothed
    brightness and the pixel buffer alone, and keep the target a [uint8_t]. *)
Lemma demo_cycleMode_frame (cycleTime now : Z) (st : Demo.state) :
  Demo.currentBrightnessPrecise (Demo.cycleMode cycleTime now st)
    = Demo.currentBrightnessPrecise st /\
  Demo.targetBrightness (Demo.cycleMode cycleTime now st) = Demo.targetBrightness st /\
  Demo.strip (Demo.cycleMode cycleTime now st) = Demo.strip st.
Proof.
  unfold Demo.cycleMode. destruct (Demo.selectMode cycleTime) as [[mode hour] color].
  destruct (negb (Demo.currentMode st =? mode)%string); repeat split.
Qed.

Lemma constrain_range (amt low high : Z) :
  low <= high -> low <= Arduino.constrain amt low high <= high.
Proof.
  intros H. unfold Arduino.constrain.
  destruct (amt <? low) eqn:E1; [lia |].
  apply Z.ltb_ge in E1.
  destruct (amt >? high) eqn:E2; [lia |].
  rewrite Z.gtb_ltb in E2. apply Z.ltb_ge in E2. lia.
Qed.






(** * Further properties of the sketches *)

(** ** Division *)

Section Division.

Variables prec emax : Z.
Hypothesis prec_range : 0 < prec < emax.

(** No float of the format lies strictly between two neighbours of a grid
    at least as fine as the format's around them. *)
Lemma canonical_above (my : positive) (ey : Z) (M : positive) (e : Z) :
  canonical_mantissa prec emax my ey = true ->
  e <= fexp prec emax (Zpos (digits2_pos M) + e) ->
  (F2Q (Zpos M) e < F2Q (Zpos my) ey)%Q ->
  (F2Q (Zpos M + 1) e <= F2Q (Zpos my) ey)%Q.
Proof.
  intros Cy A L.
  pose proof (canonical_fexp prec emax my ey Cy) as Fy.
  pose proof (F2Q_le_digits (Zpos M) e (Zpos my) ey ltac:(lia) ltac:(lia)
                (Qlt_le_weak _ _ L)) as Dg.
  simpl Zdigits2 in *.
  assert (Ey : e <= ey).
  { rewrite <- Fy. eapply Z.le_trans; [exact A |]. apply fexp_mono. exact Dg. }
  rewrite (F2Q_align (Zpos my) ey e) in L |- * by lia.
  apply F2Q_lt in L. apply F2Q_le. lia.
Qed.

Lemma canonical_below (my : positive) (ey : Z) (M : positive) (e : Z) :
  canonical_mantissa prec emax my ey = true ->
  e <= fexp prec emax (Zpos (digits2_pos M) + e) ->
  (F2Q (Zpos my) ey < F2Q (Zpos M + 1) e)%Q ->
  (F2Q (Zpos my) ey <= F2Q (Zpos M) e)%Q.
Proof.
  intros Cy A L.
  destruct (Qlt_le_dec (F2Q (Zpos M) e) (F2Q (Zpos my) ey)) as [G | G]; [| exact G].
  pose proof (canonical_above my ey M e Cy A G). lra.
Qed.

(** Packing a rounded mantissa [r] gives a rounding of [V] as soon as
    [r * 2^E] is one of the two grid neighbours of [V]. *)
Lemma rounds_to_rounds_pos (V : Q) (r E : Z) (x : spec_float) :
  rounds_to prec emax false r E x ->
  (forall (my : positive) (ey : Z),
      canonical_mantissa prec emax my ey = true ->
      (F2Q (Zpos my) ey <= V)%Q -> (F2Q (Zpos my) ey <= F2Q r E)%Q) ->
  (forall (my : positive) (ey : Z),
      canonical_mantissa prec emax my ey = true ->
      (V <= F2Q (Zpos my) ey)%Q -> (F2Q r E <= F2Q (Zpos my) ey)%Q) ->
  (forall k : Z, (V < 2 ^ k)%Q ->
      (V - 2 ^ fexp prec emax k <= F2Q r E /\
       F2Q r E <= V + 2 ^ fexp prec emax k)%Q) ->
  rounds_pos prec emax V x.
Proof.
  intros RT Lower Upper Near.
  inversion RT as [Hr Hx | m e' Pr Hm He' Cm Be Hx | m e' Pr Hm He' Cm Be Hx].
  - constructor.
    + right. exact I.
    + intros my ey Cy H. right. simpl B2Q.
      rewrite <- (F2Q_0 E), <- Hr. now apply Lower.
    + intros my ey By H. split; [exact I |]. simpl B2Q.
      apply Qlt_le_weak. apply F2Q_pos. lia.
    + intros k Hk. right. simpl B2Q.
      rewrite <- (F2Q_0 E), <- Hr. now apply Near.
  - assert (Vx : F2Q (Zpos m) e' == F2Q r E).
    { rewrite (F2Q_align (Zpos m) e' E) by lia. now rewrite Hm. }
    constructor.
    + right. simpl. unfold bounded. rewrite Cm. simpl. now apply Z.leb_le.
    + intros my ey Cy H. right. simpl B2Q. rewrite Vx. now apply Lower.
    + intros my ey By H. apply bounded_canonical in By. destruct By as [Cy By].
      split.
      * simpl. unfold bounded. rewrite Cm. simpl. now apply Z.leb_le.
      * simpl B2Q. rewrite Vx. now apply Upper.
    + intros k Hk. right. simpl B2Q. rewrite Vx. now apply Near.
  - assert (Vx : F2Q (Zpos m) e' == F2Q r E).
    { rewrite (F2Q_align (Zpos m) e' E) by lia. now rewrite Hm. }
    constructor.
    + now left.
    + intros my ey Cy H. now left.
    + intros my ey By H. exfalso.
      apply bounded_canonical in By. destruct By as [Cy By].
      assert (e' <= ey); [| lia].
      apply (canonical_exp_le prec emax m e' my ey Cm Cy). rewrite Vx. now apply Upper.
    + intros k Hk. now left.
Qed.

(** Rounding an inexact result: the mantissa [M] at exponent [e] is the
    truncation of a value [V] strictly between [M * 2^e] and
    [(M+1) * 2^e]. *)
Lemma binary_round_aux_between (M : positive) (e : Z) (l : location) (V : Q) :
  e <= fexp prec emax (Zpos (digits2_pos M) + e) ->
  (F2Q (Zpos M) e < V)%Q -> (V < F2Q (Zpos M + 1) e)%Q ->
  rounds_pos prec emax V (binary_round_aux prec emax false (Zpos M) e l).
Proof.
  intros A VL0 VU0.
  destruct (binary_round_aux_aligned prec emax prec_range false M e l A)
    as (r & R & _ & RT).
  set (E := fexp prec emax (Zpos (digits2_pos M) + e)) in *.
  set (n := E - e) in *.
  assert (N : 0 <= n) by (unfold n; lia).
  assert (P2 : 0 < 2 ^ n) by (apply Z.pow_pos_nonneg; lia).
  pose proof (Z.div_mod (Zpos M) (2 ^ n) ltac:(lia)) as DM.
  pose proof (Z.mod_pos_bound (Zpos M) (2 ^ n) P2) as MB.
  set (q := Zpos M / 2 ^ n) in *.
  assert (VL : (F2Q q E <= F2Q (Zpos M) e)%Q).
  { rewrite (F2Q_align q E e) by lia. fold n. apply F2Q_le. nia. }
  assert (VU : (F2Q (Zpos M + 1) e <= F2Q (q + 1) E)%Q).
  { rewrite (F2Q_align (q + 1) E e) by lia. fold n. apply F2Q_le. nia. }
  assert (RL : (F2Q q E <= F2Q r E)%Q) by (apply F2Q_le; lia).
  assert (RU : (F2Q r E <= F2Q (q + 1) E)%Q) by (apply F2Q_le; lia).
  assert (Step : F2Q (q + 1) E == F2Q q E + 2 ^ E).
  { rewrite <- F2Q_1, F2Q_plus. reflexivity. }
  apply (rounds_to_rounds_pos V r E _ RT).
  - intros my ey Cy H. eapply Qle_trans; [| exact RL].
    apply (grid_lower prec emax prec_range my ey M e Cy A).
    apply (canonical_below my ey M e Cy A). lra.
  - intros my ey Cy H.
    assert (H1 : (F2Q (Zpos M + 1) e <= F2Q (Zpos my) ey)%Q)
      by (apply (canonical_above my ey M e Cy A); lra).
    assert (EE : fexp prec emax (Zpos (digits2_pos M~1) + (e - 1)) = E).
    { unfold E. f_equal. simpl digits2_pos. rewrite Pos2Z.inj_succ. lia. }
    pose proof (grid_upper prec emax my ey (M~1) (e - 1) r Cy) as G.
    cbv zeta in G. rewrite EE in G.
    replace (E - (e - 1)) with (n + 1) in G by (unfold n; lia).
    assert (P21 : 2 ^ (n + 1) = 2 * 2 ^ n) by (rewrite Z.pow_add_r by lia; lia).
    assert (Q2 : Zpos M~1 / 2 ^ (n + 1) = q).
    { rewrite P21, <- Z.div_div by lia.
      replace (Zpos M~1 / 2) with (Zpos M); [reflexivity |].
      change (Zpos M~1) with (2 * Zpos M + 1).
      apply (Z.div_unique _ 2 _ 1); lia. }
    apply G.
    + lia.
    + eapply Qle_trans; [| exact H1].
      rewrite (F2Q_align (Zpos M + 1) e (e - 1)) by lia.
      replace (e - (e - 1)) with 1 by lia. apply F2Q_le.
      change (Zpos M~1) with (2 * Zpos M + 1). change (2 ^ 1) with 2. lia.
    + rewrite Q2. lia.
    + intros D. exfalso.
      pose proof (Z.div_mod (Zpos M~1) (2 ^ (n + 1)) ltac:(lia)) as DM2.
      rewrite D, P21 in DM2.
      change (Zpos M~1) with (2 * Zpos M + 1) in DM2.
      set (t := Z.pos M~1 / (2 * 2 ^ n)) in *.
      assert (2 * Zpos M + 1 = 2 * (2 ^ n * t)) by lia. lia.
  - intros k Hk.
    assert (Ek : (2 ^ E <= 2 ^ fexp prec emax k)%Q).
    { apply Qpow2_le. apply fexp_mono.
      destruct (F2Q_digits_bounds (Zpos M) e ltac:(lia)) as [Lb _].
      assert (H : (2 ^ (Zdigits2 (Zpos M) + e - 1) < 2 ^ k)%Q) by lra.
      apply Qpow2_lt_inv in H. simpl Zdigits2 in H. lia. }
    rewrite Step in VU, RU. split; lra.
Qed.

Lemma new_location_exact (nb_steps : Z) : new_location nb_steps 0 = loc_Exact.
Proof.
  unfold new_location, new_location_even, new_location_odd.
  destruct (Z.even nb_steps); reflexivity.
Qed.

(** The quotient of two positive floats, when it is in the normal range of
    the format, is a rounding of the exact quotient. *)
Lemma SFdiv_finite_rounds_pos (mx : positive) (ex : Z) (my : positive) (ey : Z) :
  emin prec emax + prec
    <= Zpos (digits2_pos mx) + ex - (Zpos (digits2_pos my) + ey) ->
  rounds_pos prec emax (F2Q (Zpos mx) ex / F2Q (Zpos my) ey)
    (SFdiv prec emax (S754_finite false mx ex) (S754_finite false my ey)).
Proof.
  intros Nrm.
  unfold SFdiv, SFdiv_core_binary. simpl Zdigits2. simpl xorb.
  set (dx := Zpos (digits2_pos mx)) in *.
  set (dy := Zpos (digits2_pos my)) in *.
  assert (Fd : fexp prec emax (dx + ex - (dy + ey)) = dx + ex - (dy + ey) - prec)
    by (unfold fexp; lia).
  rewrite Fd.
  set (e' := Z.min (dx + ex - (dy + ey) - prec) (ex - ey)).
  set (s := ex - ey - e').
  assert (S0 : 0 <= s) by (unfold s, e'; lia).
  assert (S1 : prec - dx + dy <= s) by (unfold s, e'; lia).
  assert (Em : forall t, 0 <= t ->
               match t with
               | 0 => Zpos mx
               | Zpos _ => Z.shiftl (Zpos mx) t
               | Zneg _ => 0
               end = Zpos mx * 2 ^ t).
  { intros [| p | p] Ht; [simpl; lia | apply Z.shiftl_mul_pow2; lia | lia]. }
  rewrite (Em s S0). clear Em.
  set (m' := Zpos mx * 2 ^ s).
  pose proof (digits2_pos_bounds mx) as [Lx Ux]. fold dx in Lx, Ux.
  pose proof (digits2_pos_bounds my) as [Ly Uy]. fold dy in Ly, Uy.
  assert (Dx : 0 < dx) by (unfold dx; lia).
  assert (Dy : 0 < dy) by (unfold dy; lia).
  pose proof (Z.div_mod m' (Zpos my) ltac:(lia)) as DM.
  pose proof (Z.mod_pos_bound m' (Zpos my) ltac:(lia)) as MB.
  assert (ED : Z.div_eucl m' (Zpos my) = (m' / Zpos my, m' mod Zpos my)).
  { unfold Z.div, Z.modulo. destruct (Z.div_eucl m' (Zpos my)). reflexivity. }
  rewrite ED. clear ED.
  set (q := m' / Zpos my) in *.
  set (rem := m' mod Zpos my) in *.
  (* the quotient has at least [prec] digits *)
  assert (Pp : 0 < 2 ^ (prec - 1)) by (apply Z.pow_pos_nonneg; lia).
  assert (Ps : 0 < 2 ^ s) by (apply Z.pow_pos_nonneg; lia).
  assert (Q1 : 2 ^ (prec - 1) <= q).
  { apply Z.div_le_lower_bound; [lia |].
    apply Z.le_trans with (2 ^ dy * 2 ^ (prec - 1)).
    - apply Z.mul_le_mono_nonneg_r; lia.
    - rewrite <- Z.pow_add_r by lia.
      apply Z.le_trans with (2 ^ (dx - 1) * 2 ^ s).
      + rewrite <- Z.pow_add_r by lia. apply Z.pow_le_mono_r; lia.
      + unfold m'. apply Z.mul_le_mono_nonneg_r; lia. }
  destruct q as [| qp | qp] eqn:Eq; try lia.
  pose proof (digits2_pos_bounds qp) as [Lq Uq].
  set (dq := Zpos (digits2_pos qp)) in *.
  assert (Dq : prec <= dq).
  { destruct (Z_le_gt_dec prec dq) as [| G]; [assumption | exfalso].
    assert (2 ^ dq <= 2 ^ (prec - 1)) by (apply Z.pow_le_mono_r; unfold dq; lia).
    lia. }
  assert (A : e' <= fexp prec emax (dq + e')).
  { pose proof (fexp_ge prec emax (dq + e')). lia. }
  (* the exact quotient against the truncated one *)
  assert (PY : (0 < F2Q (Zpos my) ey)%Q) by (apply F2Q_pos; lia).
  assert (VX : F2Q (Zpos mx) ex == F2Q (Zpos my * Zpos qp + rem) (e' + ey)).
  { rewrite (F2Q_align (Zpos mx) ex (e' + ey)) by (unfold s in S0; lia).
    replace (ex - (e' + ey)) with s by (unfold s; lia).
    fold m'. rewrite DM. reflexivity. }
  assert (VQ : forall k, F2Q k e' * F2Q (Zpos my) ey == F2Q (Zpos my * k) (e' + ey)).
  { intros k. rewrite F2Q_mult. rewrite (Z.mul_comm k). reflexivity. }
  destruct (Z.eq_dec rem 0) as [R0 | Rn].
  - rewrite R0, new_location_exact.
    apply (rounds_pos_Qeq prec emax (F2Q (Zpos qp) e')).
    + rewrite VX, R0, Z.add_0_r, <- VQ. field.
      intros H. rewrite H in PY. revert PY. apply Qlt_irrefl.
    + apply (binary_round_aux_rounds_pos prec emax prec_range). exact A.
  - apply binary_round_aux_between; [exact A | |].
    + apply Qlt_shift_div_l; [exact PY |].
      rewrite VQ, VX. apply F2Q_lt. lia.
    + apply Qlt_shift_div_r; [exact PY |].
      rewrite VQ, VX. apply F2Q_lt. lia.
Qed.

(** The same for positive floats given by their values. *)
Lemma SFdiv_pos_rounds_pos (x y : spec_float) :
  nonneg_float prec emax x -> nonneg_float prec emax y ->
  (0 < B2Q x)%Q -> (0 < B2Q y)%Q ->
  (2 ^ (emin prec emax + prec) <= B2Q x / B2Q y)%Q ->
  rounds_pos prec emax (B2Q x / B2Q y) (SFdiv prec emax x y).
Proof.
  intros Nx Ny Px Py Nrm.
  destruct (nonneg_float_pos prec emax x Nx Px) as (mx & ex & -> & Bx).
  destruct (nonneg_float_pos prec emax y Ny Py) as (my & ey & -> & By).
  simpl B2Q in *.
  apply SFdiv_finite_rounds_pos.
  destruct (F2Q_digits_bounds (Zpos mx) ex ltac:(lia)) as [_ Ux].
  destruct (F2Q_digits_bounds (Zpos my) ey ltac:(lia)) as [Ly _].
  simpl Zdigits2 in Ux, Ly.
  set (dx := Zpos (digits2_pos mx)) in *.
  set (dy := Zpos (digits2_pos my)) in *.
  assert (H : (2 ^ (emin prec emax + prec) < 2 ^ (dx + ex - (dy + ey) + 1))%Q).
  { eapply Qle_lt_trans; [exact Nrm |].
    apply Qlt_shift_div_r; [exact Py |].
    eapply Qlt_le_trans; [exact Ux |].
    replace (dx + ex) with ((dx + ex - (dy + ey) + 1) + (dy + ey - 1)) at 1 by lia.
    rewrite Qpow2_add.
    apply Qmult_le_l; [apply Qpow2_pos | exact Ly]. }
  apply Qpow2_lt_inv in H. lia.
Qed.

(** The product of two positive floats is a rounding of the exact product. *)
Lemma SFmul_pos_rounds_pos (x y : spec_float) :
  nonneg_float prec emax x -> nonneg_float prec emax y ->
  (0 < B2Q x)%Q -> (0 < B2Q y)%Q ->
  rounds_pos prec emax (B2Q x * B2Q y) (SFmul prec emax x y).
Proof.
  intros Nx Ny Px Py.
  destruct (nonneg_float_pos prec emax x Nx Px) as (mx & ex & -> & Bx).
  destruct (nonneg_float_pos prec emax y Ny Py) as (my & ey & -> & By).
  apply bounded_canonical in Bx. apply bounded_canonical in By.
  apply (SFmul_finite_rounds_pos prec emax prec_range); tauto.
Qed.

(** Rounding is monotone against the integers of the format. *)
Lemma rounds_pos_ge_Z (V : Q) (x : spec_float) (n : Z) :
  rounds_pos prec emax V x -> 0 <= n < 2 ^ prec -> (inject_Z n <= V)%Q ->
  x = S754_infinity false \/ (inject_Z n <= B2Q x)%Q.
Proof.
  intros RP Hn L.
  destruct (Z.eq_dec n 0) as [-> | Nz].
  - destruct (rp_class _ _ _ _ RP) as [Inf | N]; [now left | right].
    apply (nonneg_float_B2Q prec emax x N).
  - destruct (of_Z_exact prec emax prec_range n Hn) as [N Vn].
    destruct (nonneg_float_pos prec emax _ N) as (m & e & E & B).
    { rewrite Vn. change 0%Q with (inject_Z 0). rewrite <- Zlt_Qlt. lia. }
    rewrite E in Vn. simpl B2Q in Vn.
    destruct (bounded_canonical prec emax m e B) as [C _].
    destruct (rp_lower _ _ _ _ RP m e C) as [Inf | G].
    + rewrite Vn. exact L.
    + now left.
    + right. rewrite <- Vn. exact G.
Qed.

Lemma rounds_pos_le_Z (V : Q) (x : spec_float) (n : Z) :
  rounds_pos prec emax V x -> 0 < n < 2 ^ prec -> (V <= inject_Z n)%Q ->
  nonneg_float prec emax x /\ (B2Q x <= inject_Z n)%Q.
Proof.
  intros RP Hn L.
  destruct (of_Z_exact prec emax prec_range n ltac:(lia)) as [N Vn].
  destruct (nonneg_float_pos prec emax _ N) as (m & e & E & B).
  { rewrite Vn. change 0%Q with (inject_Z 0). rewrite <- Zlt_Qlt. lia. }
  rewrite E in Vn. simpl B2Q in Vn.
  destruct (rp_upper _ _ _ _ RP m e B) as [Nx G].
  - rewrite Vn. exact L.
  - split; [exact Nx |]. rewrite <- Vn. exact G.
Qed.

End Division.

(** ** The distance sensor *)

Lemma Qfloor_unique (x : Q) (n : Z) :
  (inject_Z n <= x)%Q -> (x < inject_Z (n + 1))%Q -> Qfloor x = n.
Proof.
  intros L U.
  pose proof (Qfloor_le x) as Fl. pose proof (Qlt_floor x) as Fu.
  assert (A : (inject_Z n < inject_Z (Qfloor x + 1))%Q) by lra.
  assert (B : (inject_Z (Qfloor x) < inject_Z (n + 1))%Q) by lra.
  rewrite <- Zlt_Qlt in A, B. lia.
Qed.

(** [getDistance] returns the whole centimetres of [0.017 * duration]: the
    floating-point product and quotient never fall across an integer. *)
Lemma getDistance_value (duration : Z) :
  0 < duration < 2 ^ 31 ->
  Demo.getDistance duration = 17 * duration / 1000.
Proof.
  intros [D0 D1]. unfold Demo.getDistance.
  destruct (Z.eqb_spec duration 0) as [-> | _]; [lia |].
  change (2 ^ 31) with 2147483648 in D1.
  set (n := 17 * duration / 1000).
  pose proof (Z.div_mod (17 * duration) 1000 ltac:(lia)) as DM.
  pose proof (Z.mod_pos_bound (17 * duration) 1000 ltac:(lia)) as MB.
  fold n in DM. set (rho := (17 * duration) mod 1000) in *.
  assert (N0 : 0 <= n) by (apply Z.div_pos; lia).
  (* the same facts over the rationals *)
  assert (QD : (17 * inject_Z duration == 1000 * inject_Z n + inject_Z rho)%Q).
  { change 17%Q with (inject_Z 17). change 1000%Q with (inject_Z 1000).
    rewrite <- !inject_Z_mult, <- inject_Z_plus, DM. reflexivity. }
  assert (Qrho : (inject_Z rho <= 999)%Q).
  { change 999%Q with (inject_Z 999). rewrite <- Zle_Qle. lia. }
  assert (Qrho0 : (0 <= inject_Z rho)%Q).
  { change 0%Q with (inject_Z 0). rewrite <- Zle_Qle. lia. }
  assert (Qd0 : (1 <= inject_Z duration)%Q).
  { change 1%Q with (inject_Z 1). rewrite <- Zle_Qle. lia. }
  assert (Qd1 : (inject_Z duration <= 2147483648)%Q).
  { change 2147483648%Q with (inject_Z 2147483648). rewrite <- Zle_Qle. lia. }
  assert (Qn0 : (0 <= inject_Z n)%Q).
  { change 0%Q with (inject_Z 0). rewrite <- Zle_Qle. lia. }
  (* the operands *)
  unfold to_long, B64.div, B64.mul, B64.of_Z, B64.prec, B64.emax.
  set (c := Demo.lit_0_034).
  assert (Nc : nonneg_float 53 1024 c) by (vm_compute; reflexivity).
  assert (Lc : (34 # 1000 <= B2Q c)%Q) by (vm_compute; discriminate).
  assert (Uc : (B2Q c <= (34 # 1000) + (1 # 288230376151711744))%Q)
    by (vm_compute; discriminate).
  clearbody c.
  destruct (of_Z_exact 53 1024 ltac:(lia) 2) as [N2 V2];
    [vm_compute; split; [discriminate | reflexivity] |].
  set (two := binary_normalize 53 1024 2 0 false) in *. clearbody two.
  destruct (of_Z_exact 53 1024 ltac:(lia) duration) as [Nx Vx].
  { change (2 ^ 53) with 9007199254740992. lia. }
  set (x := binary_normalize 53 1024 duration 0 false) in *. clearbody x.
  (* the product *)
  assert (RPp : rounds_pos 53 1024 (B2Q x * B2Q c) (SFmul 53 1024 x c)).
  { apply SFmul_pos_rounds_pos; try assumption; [lia | rewrite Vx; lra | lra]. }
  set (p := SFmul 53 1024 x c) in *. clearbody p.
  assert (V1l : (inject_Z duration * (34 # 1000) <= B2Q x * B2Q c)%Q).
  { rewrite Vx. apply Qmult_le_l; [lra | exact Lc]. }
  assert (V1u : (B2Q x * B2Q c
                 <= inject_Z duration * ((34 # 1000) + (1 # 288230376151711744)))%Q).
  { rewrite Vx. apply Qmult_le_l; [lra | exact Uc]. }
  assert (E26 : (2 ^ (27 - 53) == 1 # 67108864)%Q) by reflexivity.
  assert (E27 : (2 ^ (26 - 53) == 1 # 134217728)%Q) by reflexivity.
  destruct (rounds_pos_near 53 1024 ltac:(lia) _ p 27 RPp) as (Np & Lp & Up).
  { change (2 ^ 27)%Q with 134217728%Q. lra. }
  { unfold emin. lia. }
  rewrite E26 in Lp, Up.
  (* the quotient *)
  assert (RPv : rounds_pos 53 1024 (B2Q p * (1 # 2)) (SFdiv 53 1024 p two)).
  { apply (rounds_pos_Qeq 53 1024 (B2Q p / B2Q two)).
    - rewrite V2. change (inject_Z 2) with 2%Q. field.
    - apply SFdiv_pos_rounds_pos; try assumption; try lia.
      + lra.
      + rewrite V2. reflexivity.
      + rewrite V2. change (inject_Z 2) with 2%Q.
        apply Qle_trans with (2 ^ (-7))%Q; [apply Qpow2_le; unfold emin; lia |].
        change (2 ^ (-7))%Q with (1 # 128)%Q.
        apply Qle_shift_div_l; lra. }
  set (v := SFdiv 53 1024 p two) in *. clearbody v.
  destruct (rounds_pos_near 53 1024 ltac:(lia) _ v 26 RPv) as (Nv & Lv & Uv).
  { change (2 ^ 26)%Q with 67108864%Q. lra. }
  { unfold emin. lia. }
  rewrite E27 in Lv, Uv.
  rewrite (SFtrunc_floor 53 1024 v Nv).
  apply Qfloor_unique.
  - (* no integer is crossed from above *)
    assert (H2n : (inject_Z (2 * n) <= B2Q p)%Q).
    { destruct (rounds_pos_ge_Z 53 1024 ltac:(lia) _ p (2 * n) RPp) as [Inf | G].
      - change (2 ^ 53) with 9007199254740992. lia.
      - rewrite inject_Z_mult. change (inject_Z 2) with 2%Q. lra.
      - rewrite Inf in Np. contradiction.
      - exact G. }
    destruct (rounds_pos_ge_Z 53 1024 ltac:(lia) _ v n RPv) as [Inf | G].
    + change (2 ^ 53) with 9007199254740992. lia.
    + rewrite inject_Z_mult in H2n. change (inject_Z 2) with 2%Q in H2n. lra.
    + rewrite Inf in Nv. contradiction.
    + exact G.
  - rewrite inject_Z_plus. change (inject_Z 1) with 1%Q. lra.
Qed.

(** ** The scaling of a pixel *)

Lemma zrange_In (n : nat) (lo x : Z) :
  lo <= x < lo + Z.of_nat n -> In x (zrange lo n).
Proof.
  revert lo. induction n as [| k IH]; intros lo H; [simpl in H; lia |].
  simpl. destruct (Z.eq_dec lo x) as [-> | Ne]; [now left | right].
  apply IH. lia.
Qed.

Lemma forallb_zrange (f : Z -> bool) (lo : Z) (n : nat) :
  forallb f (zrange lo n) = true ->
  forall x, lo <= x < lo + Z.of_nat n -> f x = true.
Proof.
  intros H x R. rewrite forallb_forall in H. apply H. now apply zrange_In.
Qed.

(** Conversion of a positive [double] to [float] is a rounding. *)
Lemma float_of_double_rounds (x : spec_float) :
  nonneg_float 53 1024 x -> (0 < B2Q x)%Q ->
  rounds_pos 24 128 (B2Q x) (float_of_double x).
Proof.
  intros N P.
  destruct (nonneg_float_pos 53 1024 x N P) as (m & e & -> & B).
  unfold float_of_double. simpl cond_Zopp. simpl B2Q.
  apply binary_normalize_pos. unfold B32.prec, B32.emax. lia.
Qed.

(** [scale = (float) globalBrightness / 255.0] is within [2^-23] of the
    exact ratio. *)
Lemma brightness_scale_near (gb : Z) :
  0 <= gb <= 255 ->
  nonneg_float 24 128 (Demo.brightness_scale gb) /\
  (inject_Z gb / 255 - (1 # 4194304) <= B2Q (Demo.brightness_scale gb))%Q /\
  (B2Q (Demo.brightness_scale gb) <= inject_Z gb / 255 + (1 # 4194304))%Q.
Proof.
  intros R.
  destruct (Z.eq_dec gb 0) as [-> | Nz].
  { vm_compute. repeat split; discriminate. }
  assert (Q1 : (1 <= inject_Z gb)%Q).
  { change 1%Q with (inject_Z 1). rewrite <- Zle_Qle. lia. }
  assert (Q2 : (inject_Z gb <= 255)%Q).
  { change 255%Q with (inject_Z 255). rewrite <- Zle_Qle. lia. }
  unfold Demo.brightness_scale.
  destruct (B32_of_uint8 gb R) as [Ng Vg].
  destruct (double_of_float_exact _ Ng) as [Ng' Vg']. rewrite Vg in Vg'.
  set (g64 := double_of_float (B32.of_Z gb)) in *. clearbody g64.
  destruct (of_Z_exact 53 1024 ltac:(lia) 255) as [N255 V255];
    [vm_compute; split; [discriminate | reflexivity] |].
  unfold B64.div, B64.of_Z, B64.prec, B64.emax.
  set (d := binary_normalize 53 1024 255 0 false) in *. clearbody d.
  change (inject_Z 255) with 255%Q in V255.
  assert (RPq : rounds_pos 53 1024 (inject_Z gb / 255) (SFdiv 53 1024 g64 d)).
  { apply (rounds_pos_Qeq 53 1024 (B2Q g64 / B2Q d)).
    - rewrite Vg', V255. reflexivity.
    - apply SFdiv_pos_rounds_pos; try assumption; try lia.
      + rewrite Vg'. lra.
      + rewrite V255. reflexivity.
      + rewrite Vg', V255.
        apply Qle_trans with (2 ^ (-8))%Q; [apply Qpow2_le; unfold emin; lia |].
        change (2 ^ (-8))%Q with (1 # 256)%Q.
        apply Qle_shift_div_l; lra. }
  set (q := SFdiv 53 1024 g64 d) in *. clearbody q.
  assert (VU : (inject_Z gb / 255 <= 1)%Q) by (apply Qle_shift_div_r; lra).
  assert (VL : (1 # 255 <= inject_Z gb / 255)%Q) by (apply Qle_shift_div_l; lra).
  destruct (rounds_pos_le_Z 53 1024 ltac:(lia) _ q 1 RPq) as [Nq Uq];
    [vm_compute; split; reflexivity | exact VU |].
  change (inject_Z 1) with 1%Q in Uq.
  destruct (rounds_pos_near 53 1024 ltac:(lia) _ q 1 RPq) as (_ & Lq & Uq').
  { change (2 ^ 1)%Q with 2%Q. lra. }
  { unfold emin. lia. }
  assert (E52 : (2 ^ (1 - 53) == 1 # 4503599627370496)%Q) by reflexivity.
  rewrite E52 in Lq, Uq'.
  assert (Pq : (0 < B2Q q)%Q) by lra.
  pose proof (float_of_double_rounds q Nq Pq) as RPs.
  set (s := float_of_double q) in *. clearbody s.
  destruct (rounds_pos_le_Z 24 128 ltac:(lia) _ s 1 RPs) as [Ns Us];
    [vm_compute; split; reflexivity | exact Uq |].
  destruct (rounds_pos_near 24 128 ltac:(lia) _ s 1 RPs) as (_ & Ls & Us').
  { change (2 ^ 1)%Q with 2%Q. lra. }
  { unfold emin. lia. }
  assert (E23 : (2 ^ (1 - 24) == 1 # 8388608)%Q) by reflexivity.
  rewrite E23 in Ls, Us'.
  split; [exact Ns |]. split; lra.
Qed.

Lemma scaled_channel_integral :
  forallb (fun c => forallb (scaled_channel_check c) (zrange 0 256)) (zrange 0 256) = true.
Proof. vm_compute. reflexivity. Qed.

(** Each channel [applyCurrentColor] writes is the whole part of
    [channel * globalBrightness / 255]. *)
Lemma scaled_channel_value (c gb : Z) :
  0 <= c <= 255 -> 0 <= gb <= 255 ->
  scaled_channel c gb = c * gb / 255.
Proof.
  intros Rc Rg.
  destruct (Z.eq_dec ((c * gb) mod 255) 0) as [Int | Frac].
  - pose proof (forallb_zrange _ 0 256 scaled_channel_integral c ltac:(simpl; lia)) as H.
    cbv beta in H.
    pose proof (forallb_zrange _ 0 256 H gb ltac:(simpl; lia)) as H'.
    unfold scaled_channel_check in H'. rewrite Int in H'. simpl in H'.
    now apply Z.eqb_eq.
  - set (n := c * gb / 255).
    pose proof (Z.div_mod (c * gb) 255 ltac:(lia)) as DM.
    pose proof (Z.mod_pos_bound (c * gb) 255 ltac:(lia)) as MB.
    fold n in DM. set (rho := (c * gb) mod 255) in *.
    assert (N0 : 0 <= n) by (apply Z.div_pos; nia).
    assert (QD : (inject_Z c * inject_Z gb == 255 * inject_Z n + inject_Z rho)%Q).
    { change 255%Q with (inject_Z 255).
      rewrite <- !inject_Z_mult, <- inject_Z_plus, DM. reflexivity. }
    assert (Qr0 : (1 <= inject_Z rho)%Q).
    { change 1%Q with (inject_Z 1). rewrite <- Zle_Qle. lia. }
    assert (Qr1 : (inject_Z rho <= 254)%Q).
    { change 254%Q with (inject_Z 254). rewrite <- Zle_Qle. lia. }
    assert (Qc0 : (0 <= inject_Z c)%Q).
    { change 0%Q with (inject_Z 0). rewrite <- Zle_Qle. lia. }
    assert (Qc1 : (inject_Z c <= 255)%Q).
    { change 255%Q with (inject_Z 255). rewrite <- Zle_Qle. lia. }
    destruct (brightness_scale_near gb Rg) as (Ns & Ls & Us).
    destruct (B32_of_uint8 c Rc) as [Nc Vc].
    unfold scaled_channel, B32.mul, B32.prec, B32.emax.
    set (s := Demo.brightness_scale gb) in *. clearbody s.
    set (x := B32.of_Z c) in *. clearbody x.
    pose proof (nonneg_float_B2Q 24 128 s Ns) as Ps.
    assert (Ex : (inject_Z c * (inject_Z gb / 255)
                  == inject_Z n + inject_Z rho / 255)%Q).
    { field_simplify_eq. rewrite QD. ring. }
    assert (C1 : 1 <= c).
    { destruct (Z.eq_dec c 0) as [-> | Nc0]; [| lia].
      exfalso. apply Frac. reflexivity. }
    assert (N254 : n <= 254) by nia.
    assert (Qc2 : (0 < inject_Z c)%Q).
    { change 0%Q with (inject_Z 0). rewrite <- Zlt_Qlt. lia. }
    assert (Qn : (inject_Z n <= 254)%Q).
    { change 254%Q with (inject_Z 254). rewrite <- Zle_Qle. lia. }
    assert (A1 : (inject_Z c * (inject_Z gb / 255 - (1 # 4194304))
                  <= B2Q x * B2Q s)%Q).
    { rewrite Vc. apply Qmult_le_l; [exact Qc2 | exact Ls]. }
    assert (A2 : (B2Q x * B2Q s
                  <= inject_Z c * (inject_Z gb / 255 + (1 # 4194304)))%Q).
    { rewrite Vc. apply Qmult_le_l; [exact Qc2 | exact Us]. }
    assert (Er : (inject_Z rho / 255 == inject_Z rho * (1 # 255))%Q) by (field).
    rewrite Er in Ex.
    destruct (SFmul_nonneg_near 24 128 ltac:(lia) x s 8 Nc Ns) as (Nt & Lt & Ut).
    { change (2 ^ 8)%Q with 256%Q. lra. }
    { unfold emin. lia. }
    assert (E16 : (2 ^ (8 - 24) == 1 # 65536)%Q) by reflexivity.
    rewrite E16 in Lt, Ut.
    destruct (to_uint8_floor 24 128 _ Nt) as (Fl & _ & _); [lra |].
    rewrite Fl. apply Qfloor_unique.
    + lra.
    + rewrite inject_Z_plus. change (inject_Z 1) with 1%Q. lra.
Qed.

(** ** The rate of the brightness smoothing *)

(** A float of the format is its own rounding. *)
Lemma rounds_pos_self (prec emax : Z) (m : positive) (e : Z) :
  bounded prec emax m e = true ->
  rounds_pos prec emax (F2Q (Zpos m) e) (S754_finite false m e).
Proof.
  intros B. constructor.
  - right. exact B.
  - intros my ey _ H. right. exact H.
  - intros my ey _ H. split; [exact B | exact H].
  - intros k _. right. simpl B2Q.
    pose proof (Qpow2_pos (fexp prec emax k)). split; lra.
Qed.

(** The sum of two non-negative floats is a rounding of the exact sum. *)
Lemma SFadd_nonneg_rounds (prec emax : Z) (x y : spec_float) :
  0 < prec < emax ->
  nonneg_float prec emax x -> nonneg_float prec emax y ->
  (0 < B2Q x + B2Q y)%Q ->
  rounds_pos prec emax (B2Q x + B2Q y) (SFadd prec emax x y).
Proof.
  intros Hp Nx Ny P.
  destruct (nonneg_float_cases prec emax x Nx) as [[sx ->] | (mx & ex & -> & Bx)];
    destruct (nonneg_float_cases prec emax y Ny) as [[sy ->] | (my & ey & -> & By)].
  - simpl in P. lra.
  - simpl SFadd. apply (rounds_pos_Qeq prec emax (F2Q (Zpos my) ey)).
    + simpl. ring.
    + now apply rounds_pos_self.
  - simpl SFadd. apply (rounds_pos_Qeq prec emax (F2Q (Zpos mx) ex)).
    + simpl. ring.
    + now apply rounds_pos_self.
  - apply (SFadd_finite_rounds_pos prec emax Hp).
Qed.

(** [step = (255.0 / BRIGHTNESS_FADE_DURATION) * dt]: at least 255 from two
    seconds on, and within [2^-15] of [0.1275 * dt] while below 256. *)
Lemma brightness_step_spec (dt : Z) :
  0 <= dt < 2 ^ 32 ->
  nonneg_float 24 128 (Demo.brightness_step dt) /\
  (2000 <= dt -> (255 <= B2Q (Demo.brightness_step dt))%Q) /\
  ((B2Q (Demo.brightness_step dt) < 256)%Q ->
   ((1275 # 10000) * inject_Z dt - (1 # 32768) <= B2Q (Demo.brightness_step dt) /\
    B2Q (Demo.brightness_step dt) <= (1275 # 10000) * inject_Z dt + (1 # 32768))%Q).
Proof.
  intros R.
  pose proof (brightness_step_finite dt R) as Ns.
  split; [exact Ns |].
  destruct (Z.eq_dec dt 0) as [-> | Nz].
  { split; [lia |]. intros _. vm_compute. split; discriminate. }
  revert Ns. unfold Demo.brightness_step.
  destruct (of_Z_exact 53 1024 ltac:(lia) dt) as [Nd Vd].
  { change (2 ^ 53) with 9007199254740992. change (2 ^ 32) with 4294967296 in R. lia. }
  unfold B64.mul, B64.prec, B64.emax.
  change (B64.of_Z dt) with (binary_normalize 53 1024 dt 0 false).
  set (x := binary_normalize 53 1024 dt 0 false) in *. clearbody x.
  set (c := B64.div (B64.of_Z 255) Demo.BRIGHTNESS_FADE_DURATION).
  assert (Nc : nonneg_float 53 1024 c) by (vm_compute; reflexivity).
  assert (Lc : (1275 # 10000 <= B2Q c)%Q) by (vm_compute; discriminate).
  assert (Uc : (B2Q c <= (1275 # 10000) + (1 # 72057594037927936))%Q)
    by (vm_compute; discriminate).
  clearbody c.
  assert (Q1 : (1 <= inject_Z dt)%Q).
  { change 1%Q with (inject_Z 1). rewrite <- Zle_Qle. lia. }
  assert (Q2 : (inject_Z dt <= 4294967296)%Q).
  { change 4294967296%Q with (inject_Z 4294967296). rewrite <- Zle_Qle.
    change (2 ^ 32) with 4294967296 in R. lia. }
  assert (V1l : ((1275 # 10000) * inject_Z dt <= B2Q c * B2Q x)%Q).
  { rewrite Vd. apply Qmult_le_r; [lra | exact Lc]. }
  assert (V1u : (B2Q c * B2Q x
                 <= ((1275 # 10000) + (1 # 72057594037927936)) * inject_Z dt)%Q).
  { rewrite Vd. apply Qmult_le_r; [lra | exact Uc]. }
  assert (RPp : rounds_pos 53 1024 (B2Q c * B2Q x) (SFmul 53 1024 c x)).
  { apply SFmul_pos_rounds_pos; try assumption; [lia | lra | rewrite Vd; lra]. }
  set (p := SFmul 53 1024 c x) in *. clearbody p.
  intros Ns.
  assert (Np : nonneg_float 53 1024 p).
  { destruct (rp_class _ _ _ _ RPp) as [Inf | N]; [| exact N].
    rewrite Inf in Ns. simpl in Ns. contradiction. }
  assert (Pp : (0 < B2Q p)%Q).
  { destruct (rounds_pos_near 53 1024 ltac:(lia) _ p 31 RPp) as (_ & Lp & _).
    - change (2 ^ 31)%Q with 2147483648%Q. lra.
    - unfold emin. lia.
    - assert (E : (2 ^ (31 - 53) == 1 # 4194304)%Q) by reflexivity.
      rewrite E in Lp. lra. }
  pose proof (float_of_double_rounds p Np Pp) as RPs.
  set (s := float_of_double p) in *. clearbody s.
  split.
  - intros D2.
    assert (Q3 : (2000 <= inject_Z dt)%Q).
    { change 2000%Q with (inject_Z 2000). rewrite <- Zle_Qle. lia. }
    destruct (rounds_pos_ge_Z 53 1024 ltac:(lia) _ p 255 RPp) as [Inf | G].
    + vm_compute. split; [discriminate | reflexivity].
    + change (inject_Z 255) with 255%Q. lra.
    + rewrite Inf in Np. contradiction.
    + destruct (rounds_pos_ge_Z 24 128 ltac:(lia) _ s 255 RPs) as [Inf | G'].
      * vm_compute. split; [discriminate | reflexivity].
      * exact G.
      * rewrite Inf in Ns. contradiction.
      * exact G'.
  - intros S256.
    assert (P256 : (B2Q p < 256)%Q).
    { destruct (Qlt_le_dec (B2Q p) 256) as [L | G]; [exact L | exfalso].
      destruct (rounds_pos_ge_Z 24 128 ltac:(lia) _ s 256 RPs) as [Inf | G'].
      - vm_compute. split; [discriminate | reflexivity].
      - exact G.
      - rewrite Inf in Ns. contradiction.
      - change (inject_Z 256) with 256%Q in G'. lra. }
    assert (V256 : (B2Q c * B2Q x < 256)%Q).
    { destruct (Qlt_le_dec (B2Q c * B2Q x) 256) as [L | G]; [exact L | exfalso].
      destruct (rounds_pos_ge_Z 53 1024 ltac:(lia) _ p 256 RPp) as [Inf | G'].
      - vm_compute. split; [discriminate | reflexivity].
      - exact G.
      - rewrite Inf in Np. contradiction.
      - change (inject_Z 256) with 256%Q in G'. lra. }
    destruct (rounds_pos_near 53 1024 ltac:(lia) _ p 8 RPp) as (_ & Lp & Up).
    { exact V256. }
    { unfold emin. lia. }
    destruct (rounds_pos_near 24 128 ltac:(lia) _ s 8 RPs) as (_ & Ls & Us).
    { exact P256. }
    { unfold emin. lia. }
    assert (E45 : (2 ^ (8 - 53) == 1 # 35184372088832)%Q) by reflexivity.
    assert (E16 : (2 ^ (8 - 24) == 1 # 65536)%Q) by reflexivity.
    rewrite E45 in Lp, Up. rewrite E16 in Ls, Us.
    split; lra.
Qed.

(** One clamped move either lands on the target or is the rounded sum or
    difference, within [2^-16] of the exact one. *)
Lemma smooth_rate (cur : spec_float) (target : Z) (step : spec_float) :
  nonneg_float 24 128 cur -> (B2Q cur <= 255)%Q -> 0 <= target <= 255 ->
  nonneg_float 24 128 step ->
  B2Q (Demo.smooth cur target step) == inject_Z target \/
  ((B2Q cur < inject_Z target)%Q /\ (B2Q step < 256)%Q /\
   (B2Q cur + B2Q step - (1 # 65536) <= B2Q (Demo.smooth cur target step))%Q /\
   (B2Q (Demo.smooth cur target step) <= B2Q cur + B2Q step + (1 # 65536))%Q) \/
  ((inject_Z target < B2Q cur)%Q /\ (B2Q step <= B2Q cur)%Q /\
   (B2Q cur - B2Q step - (1 # 65536) <= B2Q (Demo.smooth cur target step))%Q /\
   (B2Q (Demo.smooth cur target step) <= B2Q cur - B2Q step + (1 # 65536))%Q).
Proof.
  intros Nc Uc Rt Ns.
  destruct (B32_of_uint8 target Rt) as [Nt Vt].
  assert (T255 : (inject_Z target <= 255)%Q).
  { change 255%Q with (inject_Z 255). rewrite <- Zle_Qle. lia. }
  unfold Demo.smooth, B32.ltb, B32.add, B32.sub, B32.prec, B32.emax.
  set (tgt := B32.of_Z target) in *.
  pose proof (SFltb_nonneg 24 128 ltac:(lia) cur tgt Nc Nt) as Lct.
  pose proof (SFltb_nonneg 24 128 ltac:(lia) tgt cur Nt Nc) as Ltc.
  pose proof (nonneg_float_B2Q 24 128 tgt Nt) as T0.
  pose proof (nonneg_float_B2Q 24 128 cur Nc) as C0.
  pose proof (nonneg_float_B2Q 24 128 step Ns) as S0.
  assert (E16 : (2 ^ (8 - 24) == 1 # 65536)%Q) by reflexivity.
  destruct (SFltb cur tgt) eqn:E1.
  - (* moving up *)
    assert (Lt : (B2Q cur < B2Q tgt)%Q) by (now apply Lct).
    destruct (Qlt_le_dec (B2Q cur + B2Q step) 256) as [Small | Big].
    + destruct (SFadd_nonneg_near 24 128 ltac:(lia) cur step 8 Nc Ns) as (Nx & Lx & Ux).
      { exact Small. }
      { unfold emin. lia. }
      rewrite E16 in Lx, Ux.
      destruct (SFltb tgt (SFadd 24 128 cur step)) eqn:E2; [left; exact Vt |].
      right; left. rewrite Vt in Lt. repeat split; try assumption. lra.
    + left.
      pose proof (SFadd_nonneg_rounds 24 128 cur step ltac:(lia) Nc Ns ltac:(lra)) as RP.
      destruct (rounds_pos_ge_Z 24 128 ltac:(lia) _ _ 256 RP) as [Inf | G].
      * vm_compute. split; [discriminate | reflexivity].
      * exact Big.
      * rewrite Inf, (SFltb_inf_r tgt Nt). exact Vt.
      * destruct (rp_class _ _ _ _ RP) as [Inf | Nx].
        { rewrite Inf, (SFltb_inf_r tgt Nt). exact Vt. }
        pose proof (SFltb_nonneg 24 128 ltac:(lia) tgt _ Nt Nx) as Ltx.
        change (inject_Z 256) with 256%Q in G.
        replace (SFltb tgt (SFadd 24 128 cur step)) with true; [exact Vt |].
        symmetry. apply Ltx. lra.
  - destruct (SFltb tgt cur) eqn:E2.
    + (* moving down *)
      assert (Gt : (B2Q tgt < B2Q cur)%Q) by (now apply Ltc).
      destruct (Qlt_le_dec (B2Q cur) (B2Q step)) as [Over | Within].
      * left.
        destruct (nonneg_float_pos 24 128 cur Nc ltac:(lra)) as (mc & ec & Ec & Bc).
        destruct (nonneg_float_pos 24 128 step Ns ltac:(lra)) as (ms & es & Es & Bs).
        subst cur step.
        destruct (SFsub_finite 24 128 ltac:(lia) mc ec ms es)
          as [[Lt RP] | [[Eq Ez] | [Lt Np]]].
        -- lra.
        -- lra.
        -- destruct (SFltb_nonpos_l _ tgt Np Nt) as [Hlt | [s Hz]].
           ++ rewrite Hlt. exact Vt.
           ++ rewrite Hz.
              pose proof (SFltb_nonneg 24 128 ltac:(lia) (S754_zero s) tgt I Nt) as Lzt.
              destruct (SFltb (S754_zero s) tgt) eqn:E3; [exact Vt |].
              assert (~ (B2Q (S754_zero s) < B2Q tgt)%Q)
                by (intros H; apply Lzt in H; discriminate).
              simpl B2Q in *. rewrite <- Vt. lra.
      * destruct (SFsub_nonneg_near 24 128 ltac:(lia) cur step 8 Nc Ns Within)
          as (Nx & Lx & Ux).
        { change (2 ^ 8)%Q with 256%Q. lra. }
        { unfold emin. lia. }
        rewrite E16 in Lx, Ux.
        destruct (SFltb (SFsub 24 128 cur step) tgt) eqn:E3; [left; exact Vt |].
        right; right. rewrite Vt in Gt. repeat split; assumption.
    + (* already at the target *)
      left.
      assert (A1 : ~ (B2Q cur < B2Q tgt)%Q) by (intros H; apply Lct in H; discriminate).
      assert (A2 : ~ (B2Q tgt < B2Q cur)%Q) by (intros H; apply Ltc in H; discriminate).
      rewrite <- Vt. lra.
Qed.

(** Before two seconds have passed the step is at most 255. *)
Lemma brightness_step_small (dt : Z) :
  0 <= dt < 2000 -> (B2Q (Demo.brightness_step dt) <= 255)%Q.
Proof.
  intros R.
  assert (R32 : 0 <= dt < 2 ^ 32) by (change (2 ^ 32) with 4294967296; lia).
  pose proof (brightness_step_finite dt R32) as Ns.
  destruct (Z.eq_dec dt 0) as [-> | Nz].
  { vm_compute. discriminate. }
  revert Ns. unfold Demo.brightness_step.
  destruct (of_Z_exact 53 1024 ltac:(lia) dt) as [Nd Vd].
  { change (2 ^ 53) with 9007199254740992. lia. }
  unfold B64.mul, B64.prec, B64.emax.
  change (B64.of_Z dt) with (binary_normalize 53 1024 dt 0 false).
  set (x := binary_normalize 53 1024 dt 0 false) in *. clearbody x.
  set (c := B64.div (B64.of_Z 255) Demo.BRIGHTNESS_FADE_DURATION).
  assert (Nc : nonneg_float 53 1024 c) by (vm_compute; reflexivity).
  assert (Lc : (1275 # 10000 <= B2Q c)%Q) by (vm_compute; discriminate).
  assert (Uc : (B2Q c <= (1275 # 10000) + (1 # 72057594037927936))%Q)
    by (vm_compute; discriminate).
  clearbody c.
  assert (Q1 : (1 <= inject_Z dt)%Q).
  { change 1%Q with (inject_Z 1). rewrite <- Zle_Qle. lia. }
  assert (Q2 : (inject_Z dt <= 1999)%Q).
  { change 1999%Q with (inject_Z 1999). rewrite <- Zle_Qle. lia. }
  assert (V1u : (B2Q c * B2Q x
                 <= ((1275 # 10000) + (1 # 72057594037927936)) * inject_Z dt)%Q).
  { rewrite Vd. apply Qmult_le_r; [lra | exact Uc]. }
  assert (RPp : rounds_pos 53 1024 (B2Q c * B2Q x) (SFmul 53 1024 c x)).
  { apply SFmul_pos_rounds_pos; try assumption; [lia | lra | rewrite Vd; lra]. }
  set (p := SFmul 53 1024 c x) in *. clearbody p.
  intros Ns.
  destruct (rounds_pos_le_Z 53 1024 ltac:(lia) _ p 255 RPp) as [Np Up].
  { vm_compute. split; reflexivity. }
  { change (inject_Z 255) with 255%Q. lra. }
  assert (Pp : (0 < B2Q p)%Q).
  { destruct (rounds_pos_near 53 1024 ltac:(lia) _ p 8 RPp) as (_ & Lp & _).
    - change (2 ^ 8)%Q with 256%Q. lra.
    - unfold emin. lia.
    - assert (E : (2 ^ (8 - 53) == 1 # 35184372088832)%Q) by reflexivity.
      rewrite E in Lp.
      assert (V1l : ((1275 # 10000) * inject_Z dt <= B2Q c * B2Q x)%Q).
      { rewrite Vd. apply Qmult_le_r; [lra | exact Lc]. }
      lra. }
  pose proof (float_of_double_rounds p Np Pp) as RPs.
  destruct (rounds_pos_le_Z 24 128 ltac:(lia) _ _ 255 RPs) as [_ Us].
  { vm_compute. split; reflexivity. }
  { exact Up. }
  exact Us.
Qed.

(** One clamped move is never longer than the step, up to the rounding of
    the sum or difference. *)
Lemma smooth_not_faster (cur : spec_float) (target : Z) (step : spec_float) :
  nonneg_float 24 128 cur -> (B2Q cur <= 255)%Q -> 0 <= target <= 255 ->
  nonneg_float 24 128 step ->
  ((B2Q cur < inject_Z target)%Q ->
   (B2Q (Demo.smooth cur target step) <= B2Q cur + B2Q step + (1 # 65536))%Q) /\
  ((inject_Z target < B2Q cur)%Q ->
   (B2Q cur - B2Q step - (1 # 65536) <= B2Q (Demo.smooth cur target step))%Q).
Proof.
  intros Nc Uc Rt Ns.
  destruct (smooth_between cur target step Nc Rt (or_intror Ns)) as [Na Btw].
  pose proof (nonneg_float_B2Q 24 128 _ Na) as A0.
  pose proof (nonneg_float_B2Q 24 128 cur Nc) as C0.
  pose proof (nonneg_float_B2Q 24 128 step Ns) as S0.
  assert (T255 : (inject_Z target <= 255)%Q).
  { change 255%Q with (inject_Z 255). rewrite <- Zle_Qle. lia. }
  destruct (B32_of_uint8 target Rt) as [Nt Vt].
  assert (E16 : (2 ^ (8 - 24) == 1 # 65536)%Q) by reflexivity.
  split; intros D.
  - destruct (Qlt_le_dec (B2Q cur + B2Q step) 256) as [Small | Big].
    + revert Btw. unfold Demo.smooth, B32.ltb, B32.add, B32.sub, B32.prec, B32.emax.
      set (tgt := B32.of_Z target) in *.
      pose proof (SFltb_nonneg 24 128 ltac:(lia) cur tgt Nc Nt) as Lct.
      replace (SFltb cur tgt) with true by (symmetry; apply Lct; rewrite Vt; exact D).
      destruct (SFadd_nonneg_near 24 128 ltac:(lia) cur step 8 Nc Ns) as (Nx & Lx & Ux).
      { exact Small. }
      { unfold emin. lia. }
      rewrite E16 in Lx, Ux.
      pose proof (SFltb_nonneg 24 128 ltac:(lia) tgt _ Nt Nx) as Ltx.
      destruct (SFltb tgt (SFadd 24 128 cur step)) eqn:E2; intros _.
      * assert (G : (B2Q tgt < B2Q (SFadd 24 128 cur step))%Q) by (apply Ltx; reflexivity).
        lra.
      * exact Ux.
    + destruct Btw as [(_ & _ & U) | (L & _ & _)]; lra.
  - destruct (Qlt_le_dec (B2Q cur) (B2Q step)) as [Over | Within]; [lra |].
    revert Btw. unfold Demo.smooth, B32.ltb, B32.add, B32.sub, B32.prec, B32.emax.
    set (tgt := B32.of_Z target) in *.
    pose proof (SFltb_nonneg 24 128 ltac:(lia) cur tgt Nc Nt) as Lct.
    pose proof (SFltb_nonneg 24 128 ltac:(lia) tgt cur Nt Nc) as Ltc.
    destruct (SFltb cur tgt) eqn:E1.
    { assert (G : (B2Q cur < B2Q tgt)%Q) by (apply Lct; reflexivity). lra. }
    replace (SFltb tgt cur) with true by (symmetry; apply Ltc; rewrite Vt; exact D).
    destruct (SFsub_nonneg_near 24 128 ltac:(lia) cur step 8 Nc Ns Within)
      as (Nx & Lx & Ux).
    { change (2 ^ 8)%Q with 256%Q. lra. }
    { unfold emin. lia. }
    rewrite E16 in Lx, Ux.
    pose proof (SFltb_nonneg 24 128 ltac:(lia) _ tgt Nx Nt) as Lxt.
    destruct (SFltb (SFsub 24 128 cur step) tgt) eqn:E3; intros _.
    + assert (G : (B2Q (SFsub 24 128 cur step) < B2Q tgt)%Q) by (apply Lxt; reflexivity).
      lra.
    + exact Lx.
Qed.

(** X5.  The smoothed brightness moves toward the target at the nominal rate
    of 255 per 2000 ms and stops there.  With [travel = 0.1275 * dt] for the
    [dt] ms since the last update, one call of [updateBrightnessSmoothly]
    below the target never passes it and never moves further than [travel];
    it moves by [travel] while that does not reach the target, and is on the
    target once [travel] covers the distance; all up to [2^-14].  Above the
    target the same holds downwards, and on the target the value stays. *)
Theorem demo_brightness_moves_at_rate (now : Z) (st : Demo.state) :
  nonneg_float 24 128 (Demo.currentBrightnessPrecise st) ->
  (B2Q (Demo.currentBrightnessPrecise st) <= 255)%Q ->
  0 <= Demo.targetBrightness st <= 255 ->
  let dt := CInt.u32 (now - Demo.lastBrightUpdate st) in
  let travel := ((1275 # 10000) * inject_Z dt)%Q in
  let before := B2Q (Demo.currentBrightnessPrecise st) in
  let after :=
    B2Q (Demo.currentBrightnessPrecise (Demo.updateBrightnessSmoothly now st)) in
  let target := inject_Z (Demo.targetBrightness st) in
  (before < target ->
   after <= target /\
   after <= before + travel + (1 # 16384) /\
   (before + travel <= target -> before + travel - (1 # 16384) <= after) /\
   (target <= before + travel -> target - (1 # 16384) <= after) /\
   (target + (1 # 16384) <= before + travel -> after == target))%Q /\
  (target < before ->
   target <= after /\
   before - travel - (1 # 16384) <= after /\
   (target <= before - travel -> after <= before - travel + (1 # 16384)) /\
   (before - travel <= target -> after <= target + (1 # 16384)) /\
   (before - travel <= target - (1 # 16384) -> after == target))%Q /\
  (before == target -> after == target).
Proof.
  intros Nc Uc Rt dt travel before after target.
  assert (Rdt : 0 <= dt < 2 ^ 32) by (apply Z.mod_pos_bound; lia).
  destruct (brightness_step_spec dt Rdt) as (Ns & Big & Near).
  destruct (smooth_between _ _ _ Nc Rt (or_intror Ns)) as [Na Btw].
  pose proof (smooth_rate _ _ _ Nc Uc Rt Ns) as Rate.
  destruct (smooth_not_faster _ _ _ Nc Uc Rt Ns) as [Up Down].
  pose proof (smooth_reaches _ _ _ Nc Rt Ns) as Reach.
  pose proof (nonneg_float_B2Q 24 128 _ Nc) as C0.
  pose proof (nonneg_float_B2Q 24 128 _ Ns) as S0.
  change (B2Q (Demo.smooth (Demo.currentBrightnessPrecise st) (Demo.targetBrightness st)
                 (Demo.brightness_step dt))) with after in *.
  fold before target in Btw, Rate, Up, Down, Reach, C0, Uc. fold travel in Near.
  set (step := B2Q (Demo.brightness_step dt)) in *.
  assert (T0 : (0 <= target)%Q).
  { unfold target. change 0%Q with (inject_Z 0). rewrite <- Zle_Qle. lia. }
  assert (T255 : (target <= 255)%Q).
  { unfold target. change 255%Q with (inject_Z 255). rewrite <- Zle_Qle. lia. }
  assert (Cases : ((step < 256 /\ travel - (1 # 32768) <= step <= travel + (1 # 32768))
                   \/ (255 <= step /\ 255 <= travel))%Q).
  { destruct (Z_lt_ge_dec dt 2000) as [L | G].
    - left. pose proof (brightness_step_small dt ltac:(lia)) as S.
      fold step in S.
      assert (S' : (step < 256)%Q) by lra.
      split; [exact S' | exact (Near S')].
    - right. split; [apply Big; lia |].
      assert (Q3 : (2000 <= inject_Z dt)%Q).
      { change 2000%Q with (inject_Z 2000). rewrite <- Zle_Qle. lia. }
      unfold travel. lra. }
  clear Near Big. clearbody step after before target travel.
  split; [| split].
  - intros D. specialize (Up D). clear Down.
    assert (A : (after <= target)%Q) by (destruct Btw as [(_ & _ & U) | (L & _ & _)]; lra).
    split; [exact A |].
    split; [destruct Cases as [(S & N1 & N2) | (S & T)]; lra |].
    split; [| split]; intros H.
    + destruct Rate as [Eq | [(_ & S & A1 & A2) | (L & _)]]; [lra | | lra].
      destruct Cases as [(_ & N1 & N2) | (S' & T)]; lra.
    + destruct Rate as [Eq | [(_ & S & A1 & A2) | (L & _)]]; [lra | | lra].
      destruct Cases as [(_ & N1 & N2) | (S' & T)]; lra.
    + apply Reach. left.
      destruct Cases as [(_ & N1 & N2) | (S' & T)]; lra.
  - intros D. specialize (Down D). clear Up.
    assert (A : (target <= after)%Q) by (destruct Btw as [(L & _ & _) | (_ & U & _)]; lra).
    split; [exact A |].
    split; [destruct Cases as [(S & N1 & N2) | (S & T)]; lra |].
    split; [| split]; intros H.
    + destruct Rate as [Eq | [(L & _) | (_ & S & A1 & A2)]]; [lra | lra |].
      destruct Cases as [(_ & N1 & N2) | (S' & T)]; lra.
    + destruct Rate as [Eq | [(L & _) | (_ & S & A1 & A2)]]; [lra | lra |].
      destruct Cases as [(_ & N1 & N2) | (S' & T)]; lra.
    + apply Reach. right.
      destruct Cases as [(_ & N1 & N2) | (S' & T)]; lra.
  - intros E. apply Qle_antisym; destruct Btw as [(L & U1 & U2) | (L & U1 & U2)]; lra.
Qed.

Lemma demo_brightness_moves_at_rate_witness :
  let st := Demo.mkState 0 0 0 Demo.COLOR_NIGHT Demo.COLOR_NIGHT Demo.COLOR_NIGHT
              "NIGHT" 100 (B32.of_Z 255) 255 (repeat (mkRGB 0 0 0) Demo.LED_COUNT) in
  let after :=
    B2Q (Demo.currentBrightnessPrecise (Demo.updateBrightnessSmoothly 50 st)) in
  (100 <= after /\
   255 - (1275 # 10000) * 50 - (1 # 16384) <= after /\
   after <= 255 - (1275 # 10000) * 50 + (1 # 16384))%Q.
Proof.
  intros st after.
  assert (N : nonneg_float 24 128 (Demo.currentBrightnessPrecise st))
    by (vm_compute; reflexivity).
  assert (U : (B2Q (Demo.currentBrightnessPrecise st) <= 255)%Q)
    by (vm_compute; discriminate).
  assert (R : 0 <= Demo.targetBrightness st <= 255) by (simpl; lia).
  assert (D : (inject_Z (Demo.targetBrightness st)
               < B2Q (Demo.currentBrightnessPrecise st))%Q)
    by (vm_compute; reflexivity).
  assert (H : (inject_Z (Demo.targetBrightness st)
               <= B2Q (Demo.currentBrightnessPrecise st)
                  - (1275 # 10000) * inject_Z (CInt.u32 (50 - Demo.lastBrightUpdate st)))%Q)
    by (vm_compute; discriminate).
  destruct (proj1 (proj2 (demo_brightness_moves_at_rate 50 st N U R)) D)
    as (A & B & C & _).
  split; [exact A |]. split; [exact B | exact (C H)].
Defined.

(** X6.  Two seconds after the previous update the brightness is on the target,
    whatever the distance was: [BRIGHTNESS_FADE_DURATION] bounds the time of
    a full sweep. *)
Theorem demo_brightness_settles_after_two_seconds (now : Z) (st : Demo.state) :
  nonneg_float 24 128 (Demo.currentBrightnessPrecise st) ->
  (B2Q (Demo.currentBrightnessPrecise st) <= 255)%Q ->
  0 <= Demo.targetBrightness st <= 255 ->
  2000 <= CInt.u32 (now - Demo.lastBrightUpdate st) ->
  let st' := Demo.updateBrightnessSmoothly now st in
  B2Q (Demo.currentBrightnessPrecise st') == inject_Z (Demo.targetBrightness st) /\
  Demo.globalBrightness st' = Demo.targetBrightness st.
Proof.
  intros Nc Uc Rt D2 st'.
  set (dt := CInt.u32 (now - Demo.lastBrightUpdate st)) in *.
  assert (Rdt : 0 <= dt < 2 ^ 32) by (apply Z.mod_pos_bound; lia).
  destruct (brightness_step_spec dt Rdt) as (Ns & Big & _).
  specialize (Big D2).
  pose proof (nonneg_float_B2Q 24 128 _ Nc) as C0.
  assert (T0 : (0 <= inject_Z (Demo.targetBrightness st))%Q).
  { change 0%Q with (inject_Z 0). rewrite <- Zle_Qle. lia. }
  assert (T255 : (inject_Z (Demo.targetBrightness st) <= 255)%Q).
  { change 255%Q with (inject_Z 255). rewrite <- Zle_Qle. lia. }
  assert (Reach : B2Q (Demo.smooth (Demo.currentBrightnessPrecise st)
                         (Demo.targetBrightness st) (Demo.brightness_step dt))
                  == inject_Z (Demo.targetBrightness st)).
  { apply (smooth_reaches _ _ _ Nc Rt Ns).
    destruct (Qlt_le_dec (inject_Z (Demo.targetBrightness st))
                         (B2Q (Demo.currentBrightnessPrecise st))) as [G | L].
    - right. split; lra.
    - left. split; lra. }
  destruct (smooth_between _ _ _ Nc Rt (or_intror Ns)) as [Na _].
  split; [exact Reach |].
  unfold st'. cbn [Demo.updateBrightnessSmoothly Demo.globalBrightness]. fold dt.
  destruct (to_uint8_floor 24 128 _ Na) as (Fl & _ & _); [rewrite Reach; lra |].
  rewrite Fl, (Qfloor_comp _ _ Reach). apply Qfloor_Z.
Qed.

Lemma demo_brightness_settles_after_two_seconds_witness :
  let st := Demo.mkState 0 0 0 Demo.COLOR_NIGHT Demo.COLOR_NIGHT Demo.COLOR_NIGHT
              "NIGHT" 100 (B32.of_Z 255) 255 (repeat (mkRGB 0 0 0) Demo.LED_COUNT) in
  Demo.globalBrightness (Demo.updateBrightnessSmoothly 2000 st) = 100.
Proof.
  intros st.
  assert (N : nonneg_float 24 128 (Demo.currentBrightnessPrecise st))
    by (vm_compute; reflexivity).
  assert (U : (B2Q (Demo.currentBrightnessPrecise st) <= 255)%Q)
    by (vm_compute; discriminate).
  assert (R : 0 <= Demo.targetBrightness st <= 255) by (simpl; lia).
  assert (D : 2000 <= CInt.u32 (2000 - Demo.lastBrightUpdate st))
    by (vm_compute; discriminate).
  exact (proj2 (demo_brightness_settles_after_two_seconds 2000 st N U R D)).
Defined.

(** ** The start of a fade *)

(** At [timeElapsed = 0] the factor is [+0]. *)
Lemma fade_factor_start (D : Z) :
  0 < D < 2 ^ 24 -> fade_factor 0 D = S754_zero false.
Proof.
  intros R. unfold fade_factor, B32.div, B32.of_Z, B32.prec, B32.emax.
  destruct (of_Z_exact 24 128 ltac:(lia) D ltac:(lia)) as [N V].
  destruct (nonneg_float_pos 24 128 _ N) as (m & e & E & B).
  { rewrite V. change 0%Q with (inject_Z 0). rewrite <- Zlt_Qlt. lia. }
  rewrite E. reflexivity.
Qed.

Lemma end_term_at_start :
  forallb (fun e => match B32.mul (B32.of_Z e) (S754_zero false) with
                    | S754_zero false => true
                    | _ => false
                    end) (zrange 0 256) = true.
Proof. vm_compute. reflexivity. Qed.

Lemma start_term_at_start :
  forallb (fun s => fade_channel s 0 (S754_zero false) =? s) (zrange 0 256) = true.
Proof. vm_compute. reflexivity. Qed.

Lemma fade_channel_start (s e : Z) :
  0 <= s <= 255 -> 0 <= e <= 255 -> fade_channel s e (S754_zero false) = s.
Proof.
  intros Rs Re.
  pose proof (forallb_zrange _ 0 256 end_term_at_start e ltac:(simpl; lia)) as He.
  pose proof (forallb_zrange _ 0 256 start_term_at_start s ltac:(simpl; lia)) as Hs.
  cbv beta in He, Hs. apply Z.eqb_eq in Hs.
  unfold fade_channel, fade_value in *.
  destruct (B32.mul (B32.of_Z e) (S754_zero false)) as [[|] | | |] eqn:E;
    try discriminate.
  rewrite <- Hs at 2. reflexivity.
Qed.

Lemma fade_color_start (D : Z) (startColor endColor : RGBColor) :
  0 < D < 2 ^ 24 -> RGBColor_ok startColor -> RGBColor_ok endColor ->
  fade_color D 0 startColor endColor = startColor.
Proof.
  intros R (Sr & Sg & Sb) (Er & Eg & Eb). unfold fade_color.
  destruct (Z.ltb_spec 0 D) as [_ | G]; [| lia].
  rewrite (fade_factor_start D R), !fade_channel_start by assumption.
  destruct startColor. reflexivity.
Qed.

(** X7.  A mode change does not make the colour jump: right after [setupFade]
    the fade still shows the colour that was current, in both sketches. *)
Theorem fade_starts_at_current_color :
  (forall color now st,
      RGBColor_ok (Demo.currentColor st) -> RGBColor_ok color ->
      let st' := Demo.fade now (Demo.setupFade color now st) in
      Demo.currentColor st' = Demo.currentColor st /\
      Demo.startColor st' = Demo.currentColor st /\ Demo.endColor st' = color) /\
  (forall color mode now st,
      RGBColor_ok (Live.currentColor st) -> RGBColor_ok color ->
      let st' := Live.fade now (Live.setupFade color mode now st) in
      Live.currentColor st' = Live.currentColor st /\
      Live.startColor st' = Live.currentColor st /\ Live.endColor st' = color).
Proof.
  split.
  - intros color now st Oc Ok st'. unfold st'.
    cbn [Demo.fade Demo.setupFade Demo.currentColor Demo.startColor Demo.endColor
         Demo.fadeStartTime].
    rewrite Z.sub_diag. change (CInt.u32 0) with 0.
    split; [| split; reflexivity].
    apply fade_color_start; [vm_compute; split; reflexivity | assumption | assumption].
  - intros color mode now st Oc Ok st'. unfold st'.
    cbn [Live.fade Live.setupFade Live.currentColor Live.startColor Live.endColor
         Live.fadeStartTime].
    rewrite Z.sub_diag. change (CInt.u32 0) with 0.
    split; [| split; reflexivity].
    apply fade_color_start; [vm_compute; split; reflexivity | assumption | assumption].
Qed.

Lemma fade_starts_at_current_color_witness :
  Demo.currentColor
    (Demo.fade 12345 (Demo.setupFade Demo.COLOR_DAYTIME 12345 Demo.init))
  = Demo.COLOR_NIGHT.
Proof.
  assert (O1 : RGBColor_ok (Demo.currentColor Demo.init))
    by (vm_compute; repeat split; discriminate).
  assert (O2 : RGBColor_ok Demo.COLOR_DAYTIME)
    by (vm_compute; repeat split; discriminate).
  exact (proj1 (proj1 fade_starts_at_current_color Demo.COLOR_DAYTIME 12345
                  Demo.init O1 O2)).
Defined.

(** ** Clock roll-over *)

Lemma u32_elapsed (start elapsed : Z) :
  0 <= elapsed < 2 ^ 32 ->
  CInt.u32 (CInt.u32 (start + elapsed) - start) = elapsed.
Proof.
  intros R. unfold CInt.u32.
  rewrite Zminus_mod_idemp_l.
  replace (start + elapsed - start) with elapsed by lia.
  apply Z.mod_small. exact R.
Qed.

(** X8.  The fade and the brightness smoothing measure time by unsigned
    subtraction, so they see the true elapsed time also when [millis()] has
    wrapped past [2^32] in between. *)
Theorem elapsed_time_survives_rollover (elapsed : Z) :
  0 <= elapsed < 2 ^ 32 ->
  (forall st,
      Demo.currentColor (Demo.fade (CInt.u32 (Demo.fadeStartTime st + elapsed)) st)
      = fade_color Demo.FADE_DURATION_MS elapsed (Demo.startColor st) (Demo.endColor st)) /\
  (forall st,
      Live.currentColor (Live.fade (CInt.u32 (Live.fadeStartTime st + elapsed)) st)
      = fade_color Live.FADE_DURATION_MS elapsed (Live.startColor st) (Live.endColor st)) /\
  (forall st,
      Demo.currentBrightnessPrecise
        (Demo.updateBrightnessSmoothly
           (CInt.u32 (Demo.lastBrightUpdate st + elapsed)) st)
      = Demo.smooth (Demo.currentBrightnessPrecise st) (Demo.targetBrightness st)
          (Demo.brightness_step elapsed)).
Proof.
  intros R. repeat split; intros st.
  - cbn [Demo.fade Demo.currentColor]. now rewrite u32_elapsed.
  - cbn [Live.fade Live.currentColor]. now rewrite u32_elapsed.
  - cbn [Demo.updateBrightnessSmoothly Demo.currentBrightnessPrecise].
    now rewrite u32_elapsed.
Qed.

Lemma elapsed_time_survives_rollover_witness :
  let st := Demo.mkState 4294967000 0 0 Demo.COLOR_NIGHT Demo.COLOR_NIGHT
              Demo.COLOR_DAYTIME "DAYTIME" 255 (B32.of_Z 255) 255
              (repeat (mkRGB 0 0 0) Demo.LED_COUNT) in
  Demo.currentColor (Demo.fade 2704 st) = Demo.COLOR_DAYTIME.
Proof.
  intros st.
  assert (R : 0 <= 3000 < 2 ^ 32) by (vm_compute; split; [discriminate | reflexivity]).
  exact (proj1 (elapsed_time_survives_rollover 3000 R) st).
Defined.

(** ** From the sensor to the target brightness *)

(** [constrain(map(dist, lo, hi, 255, 0), 0, 255)] for a distance below
    [hi]: full brightness up to [lo], then a linear descent. *)
Lemma sensor_map_value (lo hi dist : Z) :
  lo < hi -> dist < hi ->
  Arduino.constrain (Arduino.map dist lo hi 255 0) 0 255
  = 255 - Z.max 0 (dist - lo) * 255 / (hi - lo) /\
  0 < 255 - Z.max 0 (dist - lo) * 255 / (hi - lo) <= 255.
Proof.
  intros W H. unfold Arduino.map, Arduino.constrain.
  set (w := hi - lo). assert (Pw : 0 < w) by (unfold w; lia).
  destruct (Z_le_gt_dec dist lo) as [Le | Gt].
  - replace (Z.max 0 (dist - lo)) with 0 by lia.
    rewrite Z.mul_0_l, Z.div_0_l by lia.
    assert (Q0 : 0 <= Z.quot ((dist - lo) * (0 - 255)) w).
    { apply Z.quot_pos; [nia | lia]. }
    split; [| lia].
    destruct (Z.ltb_spec (Z.quot ((dist - lo) * (0 - 255)) w + 255) 0); [lia |].
    destruct (Z.gtb_spec (Z.quot ((dist - lo) * (0 - 255)) w + 255) 255); lia.
  - replace (Z.max 0 (dist - lo)) with (dist - lo) by lia.
    set (a := (dist - lo) * 255).
    assert (Pa : 0 <= a) by (unfold a; lia).
    replace ((dist - lo) * (0 - 255)) with (- a) by (unfold a; lia).
    rewrite Z.quot_opp_l, Z.quot_div_nonneg by lia.
    assert (Q0 : 0 <= a / w) by (apply Z.div_pos; lia).
    assert (Q1 : a / w < 255).
    { apply Z.div_lt_upper_bound; [lia |]. unfold a, w. nia. }
    split; [| lia].
    destruct (Z.ltb_spec (- (a / w) + 255) 0); [lia |].
    destruct (Z.gtb_spec (- (a / w) + 255) 255); lia.
Qed.

Lemma demo_loop_target (tk : Demo.ticks) (echo : Z) (st : Demo.state) :
  Demo.targetBrightness (Demo.loop tk echo st)
  = Demo.targetBrightness (Demo.readSensor (Demo.getDistance echo) st).
Proof.
  unfold Demo.loop.
  cbn [Demo.applyCurrentColor Demo.fade Demo.updateBrightnessSmoothly
       Demo.targetBrightness].
  destruct (demo_cycleMode_frame (Demo.t_loop tk mod 30000) (Demo.t_setupFade tk) st)
    as (_ & T & _).
  unfold Demo.readSensor.
  destruct (Demo.getDistance echo <? Demo.DIST_MAX); cbn [Demo.targetBrightness];
    [reflexivity | exact T].
Qed.

(** X2.  In the demo, one [loop()] turns the echo time into the target
    brightness: no echo or an echo from 35 cm or farther (2059 us or more)
    leaves the target alone; a nearer hand sets it to 255 up to 2 cm and
    lowers it linearly from there, never below 8. *)
Theorem demo_echo_sets_target (tk : Demo.ticks) (echo : Z) (st : Demo.state) :
  0 <= echo < 2 ^ 31 ->
  let dist := 17 * echo / 1000 in
  let target' := Demo.targetBrightness (Demo.loop tk echo st) in
  (echo = 0 \/ 2059 <= echo -> target' = Demo.targetBrightness st) /\
  (0 < echo < 2059 ->
   target' = 255 - Z.max 0 (dist - 2) * 255 / 33 /\ 8 <= target' <= 255).
Proof.
  intros R dist target'. unfold target'. rewrite demo_loop_target.
  unfold Demo.readSensor.
  split.
  - intros [-> | Far].
    + reflexivity.
    + rewrite getDistance_value by lia.
      destruct (Z.ltb_spec (17 * echo / 1000) Demo.DIST_MAX) as [L | _];
        [| reflexivity].
      exfalso. unfold Demo.DIST_MAX in L.
      assert (35 <= 17 * echo / 1000) by (apply Z.div_le_lower_bound; lia). lia.
  - intros Near. rewrite getDistance_value by lia. fold dist.
    assert (D0 : 0 <= dist) by (apply Z.div_pos; lia).
    assert (D1 : dist < 35) by (apply Z.div_lt_upper_bound; lia).
    destruct (Z.ltb_spec dist Demo.DIST_MAX) as [_ | G];
      [| unfold Demo.DIST_MAX in G; lia].
    cbn [Demo.targetBrightness].
    destruct (sensor_map_value Demo.DIST_MIN Demo.DIST_MAX dist) as [E _];
      [reflexivity | exact D1 |].
    rewrite E. change (Demo.DIST_MAX - Demo.DIST_MIN) with 33.
    change Demo.DIST_MIN with 2.
    split; [reflexivity |].
    assert (Z.max 0 (dist - 2) * 255 / 33 < 248).
    { apply Z.div_lt_upper_bound; lia. }
    assert (0 <= Z.max 0 (dist - 2) * 255 / 33) by (apply Z.div_pos; lia).
    lia.
Qed.

Lemma demo_echo_sets_target_witness :
  Demo.targetBrightness
    (Demo.loop (Demo.mkTicks 0 0 50 50) 1060 Demo.init) = 132.
Proof.
  assert (R : 0 <= 1060 < 2 ^ 31) by (vm_compute; split; [discriminate | reflexivity]).
  assert (N : 0 < 1060 < 2059) by lia.
  exact (proj1 (proj2 (demo_echo_sets_target (Demo.mkTicks 0 0 50 50) 1060
                         Demo.init R) N)).
Defined.

(** X3.  The live sketch maps a distance below 25 cm the same way with its
    own range.  [map] multiplies [dist - 5] by [-255] in [long]: below 25 cm
    the computation stays within [long] exactly from [dist = -8421499] on.
    On that range the target becomes [255 - max(0, dist - 5) * 255 / 20]:
    255 up to 5 cm, then linearly down, never below 13.  A distance of 25 cm
    or more leaves the target alone. *)
Theorem live_distance_sets_target (dist : Z) (st : Live.state) :
  (dist < 25 ->
   (Arduino.map_fits dist Live.DIST_MIN Live.DIST_MAX 255 0 <-> - 8421499 <= dist)) /\
  (- 8421499 <= dist < 25 ->
   Live.targetBrightness (Live.readSensor dist st)
   = 255 - Z.max 0 (dist - 5) * 255 / 20 /\
   13 <= Live.targetBrightness (Live.readSensor dist st) <= 255) /\
  (25 <= dist ->
   Live.targetBrightness (Live.readSensor dist st) = Live.targetBrightness st).
Proof.
  split; [| split].
  - intros H. unfold Arduino.map_fits, Live.DIST_MIN, Live.DIST_MAX. split.
    + intros (_ & _ & P & _). unfold Arduino.fits_long in P.
      change (2 ^ 31) with 2147483648 in P. lia.
    + intros L.
      set (p := (dist - 5) * (0 - 255)).
      assert (P : - 4845 <= p <= 2147483520) by (unfold p; lia).
      assert (Q : - 242 <= Z.quot p (25 - 5) <= 107374176).
      { split.
        - change (- 242) with (Z.quot (- 4845) (25 - 5)).
          apply Z.quot_le_mono; lia.
        - change 107374176 with (Z.quot 2147483520 (25 - 5)).
          apply Z.quot_le_mono; lia. }
      unfold Arduino.map, Arduino.fits_long. fold p.
      change (2 ^ 31) with 2147483648.
      repeat split; lia.
  - intros [_ H]. unfold Live.readSensor.
    destruct (Z.ltb_spec dist Live.DIST_MAX) as [_ | G];
      [| unfold Live.DIST_MAX in G; lia].
    cbn [Live.targetBrightness].
    destruct (sensor_map_value Live.DIST_MIN Live.DIST_MAX dist) as [E _];
      [reflexivity | exact H |].
    rewrite E. change (Live.DIST_MAX - Live.DIST_MIN) with 20.
    change Live.DIST_MIN with 5.
    split; [reflexivity |].
    assert (Z.max 0 (dist - 5) * 255 / 20 < 243).
    { apply Z.div_lt_upper_bound; lia. }
    assert (0 <= Z.max 0 (dist - 5) * 255 / 20) by (apply Z.div_pos; lia).
    lia.
  - intros H. unfold Live.readSensor.
    destruct (Z.ltb_spec dist Live.DIST_MAX) as [L | _];
      [unfold Live.DIST_MAX in L; lia | reflexivity].
Qed.

(** ** The invariant of the demo *)

Ltac demo_fields :=
  cbn [Demo.fadeStartTime Demo.lastBrightUpdate Demo.simHour Demo.currentColor
       Demo.startColor Demo.endColor Demo.currentMode Demo.targetBrightness
       Demo.currentBrightnessPrecise Demo.globalBrightness Demo.strip
       Demo.setDemoMode Demo.setupFade Demo.updateBrightnessSmoothly Demo.fade
       Demo.applyCurrentColor].

Lemma to_uint8_range (x : spec_float) : 0 <= to_uint8 x <= 255.
Proof.
  unfold to_uint8, CInt.u8.
  pose proof (Z.mod_pos_bound (SFtrunc x) (2 ^ 8) ltac:(reflexivity)) as H.
  change (2 ^ 8) with 256 in *. lia.
Qed.

Lemma demo_cycleMode_ok (cycleTime now : Z) (st : Demo.state) :
  demo_state_ok st -> demo_state_ok (Demo.cycleMode cycleTime now st).
Proof.
  intros [H1 H2 H3 H4 H5 H6 H7 H8 H9 H10].
  unfold Demo.cycleMode, Demo.selectMode.
  destruct (cycleTime <? Demo.HOLD_MODE); [| destruct (cycleTime <? Demo.HOLD_MODE * 2)];
    match goal with
    | |- context [negb ?b] => destruct b
    end; cbn [negb]; try (constructor; assumption);
    constructor; demo_fields; try assumption; try (repeat split; discriminate);
    unfold demo_mode_row; tauto.
Qed.

Lemma demo_readSensor_ok (dist : Z) (st : Demo.state) :
  demo_state_ok st -> demo_state_ok (Demo.readSensor dist st).
Proof.
  intros [H1 H2 H3 H4 H5 H6 H7 H8 H9 H10]. unfold Demo.readSensor.
  destruct (dist <? Demo.DIST_MAX); constructor; demo_fields; try assumption.
  apply constrain_range. lia.
Qed.

Lemma demo_updateBrightnessSmoothly_ok (now : Z) (st : Demo.state) :
  demo_state_ok st -> demo_state_ok (Demo.updateBrightnessSmoothly now st).
Proof.
  intros [H1 H2 H3 H4 H5 H6 H7 H8 H9 H10].
  assert (Rdt : 0 <= CInt.u32 (now - Demo.lastBrightUpdate st) < 2 ^ 32)
    by (apply Z.mod_pos_bound; lia).
  pose proof (brightness_step_finite _ Rdt) as Ns.
  destruct (smooth_between _ _ _ H1 H3 (or_intror Ns)) as [Na B].
  assert (T255 : (inject_Z (Demo.targetBrightness st) <= 255)%Q).
  { change 255%Q with (inject_Z 255). rewrite <- Zle_Qle. lia. }
  constructor; cbn [Demo.updateBrightnessSmoothly Demo.currentBrightnessPrecise
    Demo.targetBrightness Demo.globalBrightness Demo.currentColor Demo.startColor
    Demo.endColor Demo.strip Demo.currentMode Demo.simHour]; try assumption.
  - destruct B as [B | B]; lra.
  - apply to_uint8_range.
Qed.

Lemma fade_color_ok (D el : Z) (startColor endColor : RGBColor) :
  RGBColor_ok endColor -> RGBColor_ok (fade_color D el startColor endColor).
Proof.
  intros H. unfold fade_color. destruct (el <? D); [| exact H].
  repeat split; apply to_uint8_range.
Qed.

Lemma demo_fade_ok (now : Z) (st : Demo.state) :
  demo_state_ok st -> demo_state_ok (Demo.fade now st).
Proof.
  intros [H1 H2 H3 H4 H5 H6 H7 H8 H9 H10].
  constructor; demo_fields; try assumption. now apply fade_color_ok.
Qed.

Lemma demo_applyCurrentColor_ok (st : Demo.state) :
  demo_state_ok st -> demo_state_ok (Demo.applyCurrentColor st).
Proof.
  intros [H1 H2 H3 H4 H5 H6 H7 H8 H9 H10].
  constructor; cbn [Demo.applyCurrentColor Demo.currentBrightnessPrecise
    Demo.targetBrightness Demo.globalBrightness Demo.currentColor Demo.startColor
    Demo.endColor Demo.strip Demo.currentMode Demo.simHour]; try assumption.
  - rewrite fill_strip_all by exact H8. apply repeat_length.
  - rewrite fill_strip_all by exact H8.
    apply Forall_forall. intros x Hx. apply repeat_spec in Hx. subst x.
    repeat split; apply to_uint8_range.
Qed.

Lemma demo_loop_ok (tk : Demo.ticks) (echo : Z) (st : Demo.state) :
  demo_state_ok st -> demo_state_ok (Demo.loop tk echo st).
Proof.
  intros H. unfold Demo.loop.
  apply demo_applyCurrentColor_ok, demo_fade_ok, demo_updateBrightnessSmoothly_ok,
    demo_readSensor_ok, demo_cycleMode_ok, H.
Qed.

(** Printing keeps the two rows at sixteen cells. *)
Lemma put_length (i : nat) (ch : ascii) (l : list ascii) :
  List.length (LCD.put i ch l) = List.length l.
Proof.
  revert i. induction l as [| x rest IH]; intros [| j]; simpl; try reflexivity.
  now rewrite IH.
Qed.

Lemma write_ok (ch : ascii) (d : LCD.display) :
  display_ok d -> display_ok (LCD.write ch d).
Proof.
  intros [L0 L1]. unfold LCD.write, display_ok. cbn [LCD.line0 LCD.line1].
  split; match goal with |- context [if ?b then _ else _] => destruct b end;
    rewrite ?put_length; assumption.
Qed.

Lemma print_ok (s : string) (d : LCD.display) :
  display_ok d -> display_ok (LCD.print s d).
Proof.
  revert d. induction s as [| ch rest IH]; intros d H; simpl; [exact H |].
  apply IH, write_ok, H.
Qed.

Lemma setCursor_ok (c r : Z) (d : LCD.display) :
  display_ok d -> display_ok (LCD.setCursor c r d).
Proof. intros H. exact H. Qed.

Lemma demo_updateLCD_ok (mode : string) (hour : Z) (d : LCD.display) :
  display_ok d -> display_ok (Demo.updateLCD mode hour d).
Proof.
  intros H. unfold Demo.updateLCD, LCD.print_int.
  apply (print_ok mode), (print_ok "MODE: "), setCursor_ok,
    (print_ok "                "), setCursor_ok, (print_ok ":00  "),
    (print_ok (NilZero.string_of_int (Z.to_int hour))).
  destruct (hour <? 10).
  - apply (print_ok "0"), (print_ok "Sim Time: "), setCursor_ok, H.
  - apply (print_ok "Sim Time: "), setCursor_ok, H.
Qed.

Lemma demo_init_ok : demo_state_ok Demo.init /\ display_ok LCD.begin.
Proof.
  split; [| split; reflexivity].
  constructor; unfold Demo.init; demo_fields.
  - vm_compute. reflexivity.
  - vm_compute. discriminate.
  - lia.
  - lia.
  - repeat split; discriminate.
  - repeat split; discriminate.
  - repeat split; discriminate.
  - reflexivity.
  - apply Forall_forall. intros x Hx. apply repeat_spec in Hx. subst x.
    repeat split; discriminate.
  - unfold demo_mode_row. tauto.
Qed.

Lemma demo_iterate_ok (inputs : list (Demo.ticks * Z)) (sd : Demo.state * LCD.display) :
  demo_state_ok (fst sd) -> display_ok (snd sd) ->
  demo_state_ok (fst (Demo.iterate inputs sd)) /\
  display_ok (snd (Demo.iterate inputs sd)).
Proof.
  revert sd. induction inputs as [| [tk echo] rest IH]; intros sd Hs Hd.
  - split; assumption.
  - simpl. apply IH; unfold Demo.loop_lcd; cbn [fst snd].
    + now apply demo_loop_ok.
    + now apply demo_updateLCD_ok.
Qed.

Lemma demo_run_ok (inputs : list (Demo.ticks * Z)) :
  demo_state_ok (fst (Demo.run inputs)) /\ display_ok (snd (Demo.run inputs)).
Proof.
  unfold Demo.run. destruct demo_init_ok as [Hs Hd].
  apply demo_iterate_ok; assumption.
Qed.

(** X9.  Every state the demo reaches from power-up, whatever the clock and the
    sensor deliver, keeps the globals in range: the smoothed brightness is a
    finite number in [0, 255], the three brightness bytes and all colour
    channels (also those sent to the strip) are in 0..255, the strip has its
    60 pixels, the mode, simulated hour and target colour belong together,
    and the display keeps two rows of sixteen cells. *)
Theorem demo_run_state_ok (inputs : list (Demo.ticks * Z)) :
  demo_state_ok (fst (Demo.run inputs)) /\ display_ok (snd (Demo.run inputs)).
Proof.
  unfold Demo.run. destruct demo_init_ok as [Hs Hd].
  apply demo_iterate_ok; assumption.
Qed.

(** ** The display *)

Lemma print_app (s1 s2 : string) (d : LCD.display) :
  LCD.print (s1 ++ s2) d = LCD.print s2 (LCD.print s1 d).
Proof.
  revert d. induction s1 as [| ch rest IH]; intros d; simpl; [reflexivity |].
  apply IH.
Qed.

(** [if (hour < 10) print("0"); print(hour)] writes two digits. *)
Lemma padded_number :
  forallb (fun n => String.eqb
                      (String.append (if n <? 10 then "0"%string else ""%string)
                                     (NilZero.string_of_int (Z.to_int n)))
                      (two_digits n)) (zrange 0 100) = true.
Proof. vm_compute. reflexivity. Qed.

Lemma print_padded (n : Z) (d : LCD.display) :
  0 <= n <= 99 ->
  LCD.print_int n (if n <? 10 then LCD.print "0" d else d)
  = LCD.print (two_digits n) d.
Proof.
  intros R.
  pose proof (forallb_zrange _ 0 100 padded_number n ltac:(simpl; lia)) as H.
  cbv beta in H. apply String.eqb_eq in H. rewrite <- H.
  unfold LCD.print_int. destruct (n <? 10); [| reflexivity].
  now rewrite print_app.
Qed.

Lemma display_cells (l : list ascii) :
  List.length l = 16%nat ->
  exists a0 a1 a2 a3 a4 a5 a6 a7 a8 a9 a10 a11 a12 a13 a14 a15,
    l = [a0; a1; a2; a3; a4; a5; a6; a7; a8; a9; a10; a11; a12; a13; a14; a15].
Proof.
  intros H.
  do 16 (destruct l as [| ? l]; [discriminate |]).
  destruct l; [| discriminate].
  repeat eexists.
Qed.

Lemma startColumn_margins (mode : string) :
  (String.length mode <= 10)%nat ->
  let left := startColumn mode in
  let right := 16 - left - (Z.of_nat (String.length mode) + 6) in
  0 <= left /\ left <= right <= left + 1.
Proof.
  intros L left right. subst right left. unfold startColumn. cbv zeta.
  assert (Z.of_nat (String.length mode) <= 10) by lia.
  rewrite Z.quot_div_nonneg by lia.
  pose proof (Z.div_mod (16 - (Z.of_nat (String.length mode) + 6)) 2 ltac:(lia)).
  pose proof (Z.mod_pos_bound (16 - (Z.of_nat (String.length mode) + 6)) 2 ltac:(lia)).
  lia.
Qed.

(** What the demo's [updateLCD] leaves on the display, whatever was shown
    before. *)
Lemma demo_updateLCD_shows (mode : string) (hour : Z) (d : LCD.display) :
  display_ok d -> 0 <= hour <= 99 -> (String.length mode <= 10)%nat ->
  LCD.line0 (Demo.updateLCD mode hour d)
  = list_ascii_of_string ("Sim Time: " ++ two_digits hour ++ ":00 ") /\
  LCD.line1 (Demo.updateLCD mode hour d) = centred mode.
Proof.
  intros [L0 L1] Rh Lm. unfold Demo.updateLCD.
  rewrite print_padded by exact Rh.
  destruct (display_cells _ L0)
    as (a0 & a1 & a2 & a3 & a4 & a5 & a6 & a7 & a8 & a9 & a10 & a11 & a12 & a13
        & a14 & a15 & E0).
  destruct (display_cells _ L1)
    as (b0 & b1 & b2 & b3 & b4 & b5 & b6 & b7 & b8 & b9 & b10 & b11 & b12 & b13
        & b14 & b15 & E1).
  destruct d as [c r l0 l1]. cbn [LCD.line0 LCD.line1] in E0, E1. subst l0 l1.
  unfold two_digits.
  generalize (digit (hour / 10)) (digit (hour mod 10)). intros d1 d2.
  do 11 (destruct mode as [| ? mode]; [split; vm_compute; reflexivity |]).
  simpl in Lm. lia.
Qed.

Lemma demo_iterate_app (inputs : list (Demo.ticks * Z)) (tk : Demo.ticks) (echo : Z)
      (sd : Demo.state * LCD.display) :
  Demo.iterate (inputs ++ [(tk, echo)]) sd
  = Demo.loop_lcd tk echo (Demo.iterate inputs sd).
Proof.
  revert sd. induction inputs as [| [tk' echo'] rest IH]; intros sd; simpl;
    [reflexivity | apply IH].
Qed.

(** X10.  After every iteration of the demo's [loop()], from power-up on, the
    display is a function of the globals alone (nothing of an earlier text
    is left over): the first row reads [Sim Time: HH:00] with the simulated
    hour in two digits, the second row shows [MODE: <mode>] for the current
    mode, centred with the left margin equal to the right one or one cell
    narrower, and blank elsewhere. *)
Theorem demo_display_follows_state
        (inputs : list (Demo.ticks * Z)) (tk : Demo.ticks) (echo : Z) :
  let sd := Demo.run (inputs ++ [(tk, echo)]) in
  let mode := Demo.currentMode (fst sd) in
  let left := startColumn mode in
  let right := 16 - left - (Z.of_nat (String.length mode) + 6) in
  LCD.line0 (snd sd)
  = list_ascii_of_string ("Sim Time: " ++ two_digits (Demo.simHour (fst sd)) ++ ":00 ") /\
  LCD.line1 (snd sd) = centred mode /\
  0 <= left /\ left <= right <= left + 1.
Proof.
  intros sd mode left right.
  assert (E : sd = Demo.loop_lcd tk echo (Demo.run inputs))
    by (apply demo_iterate_app).
  destruct (demo_run_ok inputs) as [Hs Hd].
  set (prev := Demo.run inputs) in *.
  pose proof (demo_loop_ok tk echo (fst prev) Hs) as Hs'.
  assert (Row : demo_mode_row mode (Demo.simHour (fst sd)) (Demo.endColor (fst sd))).
  { unfold mode. rewrite E. apply (ok_mode _ Hs'). }
  assert (Lm : (String.length mode <= 10)%nat).
  { destruct Row as [(-> & _) | [(-> & _) | [(-> & _) | (-> & _)]]]; simpl; lia. }
  assert (Rh : 0 <= Demo.simHour (fst sd) <= 99).
  { destruct Row as [(_ & -> & _) | [(_ & -> & _) | [(_ & -> & _) | (_ & -> & _)]]];
      vm_compute; split; discriminate. }
  assert (Ed : snd sd = Demo.updateLCD mode (Demo.simHour (fst sd)) (snd prev)).
  { unfold mode. rewrite E. reflexivity. }
  rewrite Ed.
  destruct (demo_updateLCD_shows mode (Demo.simHour (fst sd)) (snd prev) Hd Rh Lm)
    as [S0 S1].
  split; [exact S0 |]. split; [exact S1 |].
  apply startColumn_margins. exact Lm.
Qed.

(** X11.  What the live sketch's [updateLCD] leaves on the display, whatever was
    shown before: the time of day as [Time: HH:MM] with both numbers in two
    digits, and the mode centred on the second row. *)
Theorem live_updateLCD_shows (mode : string) (hour minutes : Z) (d : LCD.display) :
  display_ok d -> 0 <= hour < 24 -> 0 <= minutes < 60 ->
  (String.length mode <= 10)%nat ->
  LCD.line0 (Live.updateLCD mode hour minutes d)
  = list_ascii_of_string
      ("Time: " ++ two_digits hour ++ ":" ++ two_digits minutes ++ "     ") /\
  LCD.line1 (Live.updateLCD mode hour minutes d) = centred mode.
Proof.
  intros [L0 L1] Rh Rm Lm. unfold Live.updateLCD.
  rewrite (print_padded hour) by lia.
  rewrite (print_padded minutes) by lia.
  destruct (display_cells _ L0)
    as (a0 & a1 & a2 & a3 & a4 & a5 & a6 & a7 & a8 & a9 & a10 & a11 & a12 & a13
        & a14 & a15 & E0).
  destruct (display_cells _ L1)
    as (b0 & b1 & b2 & b3 & b4 & b5 & b6 & b7 & b8 & b9 & b10 & b11 & b12 & b13
        & b14 & b15 & E1).
  destruct d as [c r l0 l1]. cbn [LCD.line0 LCD.line1] in E0, E1. subst l0 l1.
  unfold two_digits.
  generalize (digit (hour / 10)) (digit (hour mod 10))
             (digit (minutes / 10)) (digit (minutes mod 10)).
  intros h1 h2 m1 m2.
  do 11 (destruct mode as [| ? mode]; [split; vm_compute; reflexivity |]).
  simpl in Lm. lia.
Qed.

Lemma live_updateLCD_shows_witness :
  LCD.line0 (Live.updateLCD "DAYTIME" 9 5 LCD.begin)
  = list_ascii_of_string "Time: 09:05     " /\
  LCD.line1 (Live.updateLCD "DAYTIME" 9 5 LCD.begin)
  = list_ascii_of_string " MODE: DAYTIME  ".
Proof.
  assert (D : display_ok LCD.begin) by (split; reflexivity).
  assert (Rh : 0 <= 9 < 24) by lia.
  assert (Rm : 0 <= 5 < 60) by lia.
  assert (Lm : (String.length "DAYTIME" <= 10)%nat) by (simpl; lia).
  exact (live_updateLCD_shows "DAYTIME" 9 5 LCD.begin D Rh Rm Lm).
Defined.

(** ** The sensor, the strip and the settled lamp *)

(** X1.  [getDistance] converts the echo time to whole centimetres exactly: for
    every positive [long] it returns the integer part of
    [0.017 * duration], as if computed without rounding; so the hand is
    seen as nearer than [DIST_MAX] exactly for echoes shorter than
    2059 us.  A timeout (0) gives the sentinel 999. *)
Theorem demo_getDistance_whole_centimetres (duration : Z) :
  0 <= duration < 2 ^ 31 ->
  Demo.getDistance duration = (if duration =? 0 then 999 else 17 * duration / 1000) /\
  (Demo.getDistance duration < Demo.DIST_MAX <-> 0 < duration < 2059).
Proof.
  intros R.
  destruct (Z.eqb_spec duration 0) as [-> | Nz].
  - split; [reflexivity |]. vm_compute. split; [discriminate | intros [H _]; discriminate].
  - rewrite getDistance_value by lia. split; [reflexivity |].
    unfold Demo.DIST_MAX. split.
    + intros H. split; [lia |].
      destruct (Z_lt_le_dec duration 2059) as [L | G]; [exact L | exfalso].
      assert (35 <= 17 * duration / 1000) by (apply Z.div_le_lower_bound; lia). lia.
    + intros [_ H]. apply Z.div_lt_upper_bound; lia.
Qed.

Lemma demo_getDistance_whole_centimetres_witness :
  Demo.getDistance 1060 = 18 /\ (Demo.getDistance 1060 < Demo.DIST_MAX <-> 0 < 1060 < 2059).
Proof.
  assert (R : 0 <= 1060 < 2 ^ 31) by (vm_compute; split; [discriminate | reflexivity]).
  exact (demo_getDistance_whole_centimetres 1060 R).
Defined.

Lemma scaled_pixel_value (c : RGBColor) (gb : Z) :
  RGBColor_ok c -> 0 <= gb <= 255 ->
  Demo.scaled_pixel c gb = mkRGB (r c * gb / 255) (g c * gb / 255) (b c * gb / 255).
Proof.
  intros (Hr & Hg & Hb) Rg. unfold Demo.scaled_pixel. cbv zeta.
  change (to_uint8 (B32.mul (B32.of_Z (r c)) (Demo.brightness_scale gb)))
    with (scaled_channel (r c) gb).
  change (to_uint8 (B32.mul (B32.of_Z (g c)) (Demo.brightness_scale gb)))
    with (scaled_channel (g c) gb).
  change (to_uint8 (B32.mul (B32.of_Z (b c)) (Demo.brightness_scale gb)))
    with (scaled_channel (b c) gb).
  now rewrite !scaled_channel_value.
Qed.

(** X4.  The demo's [applyCurrentColor] sends to every pixel, per channel, the
    integer part of [channel * globalBrightness / 255]: the floating-point
    scaling never loses a unit.  So full brightness shows [currentColor]
    itself, brightness 0 switches the strip off, and no channel is ever
    brighter than in [currentColor]. *)
Theorem demo_pixel_is_scaled_floor (st : Demo.state) :
  RGBColor_ok (Demo.currentColor st) ->
  0 <= Demo.globalBrightness st <= 255 ->
  List.length (Demo.strip st) = Demo.LED_COUNT ->
  let c := Demo.currentColor st in
  let gb := Demo.globalBrightness st in
  let px := mkRGB (r c * gb / 255) (g c * gb / 255) (b c * gb / 255) in
  Demo.strip (Demo.applyCurrentColor st) = repeat px Demo.LED_COUNT /\
  (gb = 255 -> px = c) /\
  (gb = 0 -> px = mkRGB 0 0 0) /\
  (0 <= r px <= r c /\ 0 <= g px <= g c /\ 0 <= b px <= b c).
Proof.
  intros Oc Rg Len c gb px.
  split.
  - cbn [Demo.applyCurrentColor Demo.strip].
    rewrite fill_strip_all by exact Len.
    now rewrite scaled_pixel_value.
  - destruct Oc as (Hr & Hg & Hb). fold c in Hr, Hg, Hb. fold gb in Rg.
    split; [| split].
    + intros E. unfold px. rewrite E, !Z.div_mul by lia. destruct c; reflexivity.
    + intros E. unfold px. rewrite E, !Z.mul_0_r. reflexivity.
    + unfold px. cbn [r g b].
      assert (B : forall x, 0 <= x <= 255 -> 0 <= x * gb / 255 <= x).
      { intros x Hx. split; [apply Z.div_pos; nia |].
        apply Z.div_le_upper_bound; nia. }
      repeat split; apply B; assumption.
Qed.

Lemma demo_pixel_is_scaled_floor_witness :
  let st := Demo.mkState 0 0 22 Demo.COLOR_NIGHT Demo.COLOR_NIGHT Demo.COLOR_NIGHT
              "NIGHT" 132 (B32.of_Z 132) 132 (repeat (mkRGB 0 0 0) Demo.LED_COUNT) in
  Demo.strip (Demo.applyCurrentColor st) = repeat (mkRGB 132 72 0) 60.
Proof.
  intros st.
  assert (O : RGBColor_ok (Demo.currentColor st))
    by (vm_compute; repeat split; discriminate).
  assert (R : 0 <= Demo.globalBrightness st <= 255) by (simpl; lia).
  assert (L : List.length (Demo.strip st) = Demo.LED_COUNT) by reflexivity.
  exact (proj1 (demo_pixel_is_scaled_floor st O R L)).
Defined.

(** X12.  Once the three seconds of a fade are over, the lamp shows the colour of
    the mode on the display: in any state the demo reaches, a [loop()] whose
    fade is complete leaves [currentColor] equal to the target colour of the
    current mode, and every pixel at that colour scaled by the brightness. *)
Theorem demo_settled_lamp_shows_mode_color
        (inputs : list (Demo.ticks * Z)) (tk : Demo.ticks) (echo : Z) :
  let st := fst (Demo.run (inputs ++ [(tk, echo)])) in
  Demo.FADE_DURATION_MS <= CInt.u32 (Demo.t_fade tk - Demo.fadeStartTime st) ->
  let c := Demo.currentColor st in
  let gb := Demo.globalBrightness st in
  demo_mode_row (Demo.currentMode st) (Demo.simHour st) c /\
  Demo.strip st
  = repeat (mkRGB (r c * gb / 255) (g c * gb / 255) (b c * gb / 255)) Demo.LED_COUNT.
Proof.
  intros st Done c gb.
  assert (E : st = Demo.loop tk echo (fst (Demo.run inputs))).
  { unfold st, Demo.run. rewrite demo_iterate_app. reflexivity. }
  destruct (demo_run_ok inputs) as [Hs _].
  set (prev := fst (Demo.run inputs)) in *.
  pose proof (demo_loop_ok tk echo prev Hs) as Hs'. rewrite <- E in Hs'.
  assert (Ec : c = Demo.endColor st).
  { unfold c. rewrite E in Done |- *. revert Done. unfold Demo.loop.
    cbn [Demo.applyCurrentColor Demo.fade Demo.currentColor Demo.endColor
         Demo.fadeStartTime].
    intros Done. unfold fade_color.
    match goal with
    | |- context [?a <? ?d] => destruct (Z.ltb_spec a d) as [L | L]
    end; [lia | reflexivity]. }
  split.
  - rewrite Ec. apply (ok_mode _ Hs').
  - unfold c, gb. rewrite E. unfold Demo.loop.
    set (st3 := Demo.fade _ _).
    assert (H3 : demo_state_ok st3).
    { apply demo_fade_ok, demo_updateBrightnessSmoothly_ok, demo_readSensor_ok,
        demo_cycleMode_ok, Hs. }
    cbn [Demo.applyCurrentColor Demo.strip Demo.currentColor Demo.globalBrightness].
    rewrite fill_strip_all by (apply (ok_strip_length _ H3)).
    rewrite scaled_pixel_value;
      [reflexivity | apply (ok_current _ H3) | apply (ok_global _ H3)].
Qed.

Lemma demo_settled_lamp_shows_mode_color_witness :
  let st := fst (Demo.run [(Demo.mkTicks 0 0 0 0, 0); (Demo.mkTicks 5000 5000 5000 5000, 0)]) in
  Demo.currentColor st = Demo.COLOR_DAYTIME /\
  Demo.strip st = repeat (mkRGB 0 10 50) 60.
Proof.
  intros st.
  assert (D : Demo.FADE_DURATION_MS
              <= CInt.u32 (Demo.t_fade (Demo.mkTicks 5000 5000 5000 5000)
                           - Demo.fadeStartTime st))
    by (vm_compute; discriminate).
  destruct (demo_settled_lamp_shows_mode_color
              [(Demo.mkTicks 0 0 0 0, 0)] (Demo.mkTicks 5000 5000 5000 5000) 0 D)
    as [_ S].
  split; [vm_compute; reflexivity | exact S].
Defined.

Lemma live_distance_sets_target_witness :
  Arduino.map_fits 15 Live.DIST_MIN Live.DIST_MAX 255 0 /\
  Live.targetBrightness (Live.readSensor 15 Live.init) = 128 /\
  Live.targetBrightness (Live.readSensor (-3) Live.init) = 255.
Proof.
  assert (N : 15 < 25) by lia.
  assert (R : - 8421499 <= 15 < 25) by lia.
  assert (R' : - 8421499 <= -3 < 25) by lia.
  assert (L : - 8421499 <= 15) by lia.
  split; [exact (proj2 (proj1 (live_distance_sets_target 15 Live.init) N) L) |].
  split.
  - exact (proj1 (proj1 (proj2 (live_distance_sets_target 15 Live.init)) R)).
  - exact (proj1 (proj1 (proj2 (live_distance_sets_target (-3) Live.init)) R')).
Defined.

(** ** Mode changes over successive iterations *)

Lemma demo_loop_fade_fields (tk : Demo.ticks) (echo : Z) (st : Demo.state) :
  let st0 := Demo.cycleMode (Demo.t_loop tk mod 30000) (Demo.t_setupFade tk) st in
  Demo.fadeStartTime (Demo.loop tk echo st) = Demo.fadeStartTime st0 /\
  Demo.startColor (Demo.loop tk echo st) = Demo.startColor st0 /\
  Demo.endColor (Demo.loop tk echo st) = Demo.endColor st0 /\
  Demo.currentMode (Demo.loop tk echo st) = Demo.currentMode st0 /\
  Demo.simHour (Demo.loop tk echo st) = Demo.simHour st0.
Proof.
  intros st0. unfold Demo.loop. fold st0.
  cbn [Demo.applyCurrentColor Demo.fade Demo.updateBrightnessSmoothly
       Demo.fadeStartTime Demo.startColor Demo.endColor Demo.currentMode
       Demo.simHour].
  unfold Demo.readSensor.
  destruct (Demo.getDistance echo <? Demo.DIST_MAX); repeat split.
Qed.

(** X13.  Within one window of the demo cycle only the first [loop()] starts
    a fade: a later iteration whose cycle time selects the same mode keeps
    [fadeStartTime], [startColor], [endColor], the mode and the simulated
    hour, so the running fade is not restarted. *)
Theorem demo_same_window_keeps_fade
        (tk1 tk2 : Demo.ticks) (echo1 echo2 : Z) (st : Demo.state) :
  Demo.selectMode (Demo.t_loop tk2 mod 30000)
    = Demo.selectMode (Demo.t_loop tk1 mod 30000) ->
  let st1 := Demo.loop tk1 echo1 st in
  let st2 := Demo.loop tk2 echo2 st1 in
  Demo.fadeStartTime st2 = Demo.fadeStartTime st1 /\
  Demo.startColor st2 = Demo.startColor st1 /\
  Demo.endColor st2 = Demo.endColor st1 /\
  Demo.currentMode st2 = Demo.currentMode st1 /\
  Demo.simHour st2 = Demo.simHour st1.
Proof.
  intros Same st1 st2.
  destruct (demo_loop_fade_fields tk2 echo2 st1) as (F & S & E & M & H).
  fold st2 in F, S, E, M, H.
  assert (Keep : Demo.cycleMode (Demo.t_loop tk2 mod 30000) (Demo.t_setupFade tk2) st1
                 = st1).
  { unfold Demo.cycleMode. rewrite Same.
    pose proof (demo_loop_mode tk1 echo1 st) as M1. fold st1 in M1.
    destruct (Demo.selectMode (Demo.t_loop tk1 mod 30000)) as [[mode hour] color].
    cbn [fst] in M1. rewrite M1, String.eqb_refl. reflexivity. }
  rewrite Keep in F, S, E, M, H. repeat split; assumption.
Qed.

Lemma demo_same_window_keeps_fade_witness :
  let st1 := Demo.loop (Demo.mkTicks 1000 1000 1000 1000) 0 Demo.init in
  let st2 := Demo.loop (Demo.mkTicks 2000 2000 2000 2000) 0 st1 in
  Demo.fadeStartTime st2 = 1000 /\ Demo.currentMode st2 = "DAYTIME"%string.
Proof.
  intros st1 st2.
  assert (S : Demo.selectMode (Demo.t_loop (Demo.mkTicks 2000 2000 2000 2000) mod 30000)
              = Demo.selectMode (Demo.t_loop (Demo.mkTicks 1000 1000 1000 1000) mod 30000))
    by reflexivity.
  destruct (demo_same_window_keeps_fade (Demo.mkTicks 1000 1000 1000 1000)
              (Demo.mkTicks 2000 2000 2000 2000) 0 0 Demo.init S)
    as (F & _ & _ & M & _).
  split; [exact F | exact M].
Defined.

Lemma live_checkMode_fields_same (hour now : Z) (st : Live.state) :
  fst (Live.selectMode hour) = Live.currentMode st ->
  Live.checkMode hour now st = st.
Proof.
  intros H. unfold Live.checkMode.
  destruct (Live.selectMode hour) as [mode color]. cbn [fst] in H.
  rewrite H, String.eqb_refl. reflexivity.
Qed.

(** X14.  The live [loop()] looks at the clock at most once a minute.  While
    fewer than 60000 ms have passed since [lastTimeUpdate] it leaves the
    mode and the fade alone, whatever the hour is; when the minute is over
    it sets the mode that belongs to the hour and restarts the minute.  The
    brightness update, which the sketch does not define, is assumed to leave
    these globals alone. *)
Theorem live_loop_checks_mode_once_a_minute
        (updateBrightnessSmoothly : Live.state -> Live.state)
        (tk : Live.ticks) (hour dist : Z) (st : Live.state) :
  (forall s,
      Live.currentMode (updateBrightnessSmoothly s) = Live.currentMode s /\
      Live.fadeStartTime (updateBrightnessSmoothly s) = Live.fadeStartTime s /\
      Live.startColor (updateBrightnessSmoothly s) = Live.startColor s /\
      Live.endColor (updateBrightnessSmoothly s) = Live.endColor s /\
      Live.lastTimeUpdate (updateBrightnessSmoothly s) = Live.lastTimeUpdate s) ->
  let st' := Live.loop updateBrightnessSmoothly tk hour dist st in
  let waited := CInt.u32 (Live.t_modeCheck tk - Live.lastTimeUpdate st) in
  (waited < 60000 ->
   Live.currentMode st' = Live.currentMode st /\
   Live.fadeStartTime st' = Live.fadeStartTime st /\
   Live.startColor st' = Live.startColor st /\
   Live.endColor st' = Live.endColor st /\
   Live.lastTimeUpdate st' = Live.lastTimeUpdate st) /\
  (60000 <= waited ->
   Live.currentMode st' = fst (Live.selectMode hour) /\
   Live.lastTimeUpdate st' = Live.t_timeUpdate tk /\
   (fst (Live.selectMode hour) = Live.currentMode st ->
    Live.fadeStartTime st' = Live.fadeStartTime st /\
    Live.startColor st' = Live.startColor st /\
    Live.endColor st' = Live.endColor st) /\
   (fst (Live.selectMode hour) <> Live.currentMode st ->
    Live.fadeStartTime st' = Live.t_setupFade tk /\
    Live.startColor st' = Live.currentColor st /\
    Live.endColor st' = snd (Live.selectMode hour))).
Proof.
  intros Keep st' waited.
  assert (Out : forall s0,
             let s' :=
               (let st1 := Live.readSensor dist s0 in
                let st2 := updateBrightnessSmoothly st1 in
                let st3 := Live.fade (Live.t_fade tk) st2 in
                let st4 := Live.applyCurrentColor st3 in
                if CInt.u32 (Live.t_lcdCheck tk - Live.lastLCDUpdate st4) >=? 1000
                then Live.set_lastLCDUpdate (Live.t_lcdUpdate tk) st4
                else st4) in
             Live.currentMode s' = Live.currentMode s0 /\
             Live.fadeStartTime s' = Live.fadeStartTime s0 /\
             Live.startColor s' = Live.startColor s0 /\
             Live.endColor s' = Live.endColor s0 /\
             Live.lastTimeUpdate s' = Live.lastTimeUpdate s0).
  { intros s0. cbv zeta.
    destruct (Keep (Live.readSensor dist s0)) as (K1 & K2 & K3 & K4 & K5).
    assert (R : Live.currentMode (Live.readSensor dist s0) = Live.currentMode s0 /\
                Live.fadeStartTime (Live.readSensor dist s0) = Live.fadeStartTime s0 /\
                Live.startColor (Live.readSensor dist s0) = Live.startColor s0 /\
                Live.endColor (Live.readSensor dist s0) = Live.endColor s0 /\
                Live.lastTimeUpdate (Live.readSensor dist s0) = Live.lastTimeUpdate s0).
    { unfold Live.readSensor. destruct (dist <? Live.DIST_MAX); repeat split. }
    destruct R as (R1 & R2 & R3 & R4 & R5).
    destruct (_ >=? 1000);
      cbn [Live.set_lastLCDUpdate Live.applyCurrentColor Live.fade Live.currentMode
           Live.fadeStartTime Live.startColor Live.endColor Live.lastTimeUpdate];
      rewrite K1, K2, K3, K4, K5; repeat split; assumption. }
  unfold st', Live.loop. fold waited.
  split.
  - intros W. destruct (Z.geb_spec waited 60000) as [G | _]; [lia |].
    apply Out.
  - intros W. destruct (Z.geb_spec waited 60000) as [_ | L]; [| lia].
    destruct (Out (Live.set_lastTimeUpdate (Live.t_timeUpdate tk)
                     (Live.checkMode hour (Live.t_setupFade tk) st)))
      as (O1 & O2 & O3 & O4 & O5).
    cbv zeta in O1, O2, O3, O4, O5.
    rewrite O1, O2, O3, O4, O5.
    cbn [Live.set_lastTimeUpdate Live.currentMode Live.fadeStartTime Live.startColor
         Live.endColor Live.lastTimeUpdate].
    split; [apply live_checkMode_mode |]. split; [reflexivity |].
    split.
    + intros Same. rewrite (live_checkMode_fields_same hour _ st Same).
      repeat split.
    + intros Diff. unfold Live.checkMode.
      destruct (Live.selectMode hour) as [mode color]. cbn [fst snd] in *.
      destruct (String.eqb_spec mode (Live.currentMode st)) as [E | _];
        [contradiction |].
      cbn [negb Live.setupFade Live.fadeStartTime Live.startColor Live.endColor].
      repeat split.
Qed.

Lemma live_loop_checks_mode_once_a_minute_witness :
  let st' := Live.loop (fun s => s) (Live.mkTicks 59999 59999 59999 59999 59999 59999)
               8 999 Live.init in
  Live.currentMode st' = "NIGHT"%string /\ Live.fadeStartTime st' = 0.
Proof.
  intros st'.
  assert (K : forall s : Live.state,
             Live.currentMode ((fun s => s) s) = Live.currentMode s /\
             Live.fadeStartTime ((fun s => s) s) = Live.fadeStartTime s /\
             Live.startColor ((fun s => s) s) = Live.startColor s /\
             Live.endColor ((fun s => s) s) = Live.endColor s /\
             Live.lastTimeUpdate ((fun s => s) s) = Live.lastTimeUpdate s)
    by (intros s; repeat split).
  assert (W : CInt.u32 (Live.t_modeCheck (Live.mkTicks 59999 59999 59999 59999 59999 59999)
                        - Live.lastTimeUpdate Live.init) < 60000)
    by (vm_compute; reflexivity).
  destruct (proj1 (live_loop_checks_mode_once_a_minute (fun s => s)
                     (Live.mkTicks 59999 59999 59999 59999 59999 59999) 8 999
                     Live.init K) W) as (M & F & _).
  split; [exact M | exact F].
Defined.

(** ** The brightness that reaches the strip *)





